(** * Sparse reshape kernel (python/tvm/topi/sparse_reshape.py)

    A shallow embedding of the TIR program that [gen_ir] builds, and the
    properties of the coordinate remapping it performs.

    Conventions of the embedding.
    - A dtype is the bit width of a signed two's-complement integer; every
      arithmetic result of that dtype is reduced with [wrap].
    - Input buffers are lists of integers.  Buffers obtained from
      [ib.allocate] or [decl_buffer] start uninitialised: a cell is
      [None] until it is stored to.
    - A 2-D buffer is the list of its rows; [shape1] of a buffer without
      rows is 0, which no loop of the kernel can observe, since every use
      of [shape[1]] sits inside a loop over the rows.
    - Indices are natural numbers.  The only index expression of the source
      that can be negative is [size - 1] for a buffer of [size] 0; truncated
      subtraction makes it 0, which is outside that empty buffer as well.
    - An access outside a buffer, a load of an uninitialised cell and a
      division the machine cannot do are faults: the run stops with no
      result.  A division cannot be done when the divisor is 0
      ([DivideByZero]) or when the least value of the dtype is divided by
      -1, whose quotient is outside the dtype ([DivideOverflow]); the
      remainder of such a division stops the run like its quotient.
    - One-element scratch buffers ([total_ele], [division_total_ele],
      [equal_shape], [current_element]) are accessed at index 0 only and
      are modelled as the value they hold.
    - [gen_ir] builds the whole program before any of it runs, and the
      builder checks every store: the value must have the dtype of the
      buffer.  In line 162 a coordinate ([it]) is multiplied by a
      multiplier ([dt]); the product, and the sum it is added to, have the
      wider of the two dtypes, and the sum is stored into
      [flattened_indices] ([dt]).  With [it] wider than [dt] the builder
      raises ([DtypeMismatch]) and there is no kernel: the stages that are
      or contain that line ([flatten_loop], [transcoder], [gen_ir]) start
      with this check, which precedes every fault of a run.  With [it] no
      wider than [dt] the coordinate is widened to [dt] and the arithmetic
      of line 162 is that of [dt].  Every other store has the dtype of its
      buffer by a [Cast] or by construction; the two shape vectors have one
      dtype, [dt]. *)

From Stdlib Require Import ZArith Lia.
From stdpp Require Import base numbers option list strings.

Local Open Scope Z_scope.

(** ** Faults and the result monad *)

Inductive fault : Set :=
| OutOfBounds
| Uninitialised
| DivideByZero
| DivideOverflow
| DtypeMismatch.

Inductive result (A : Type) : Type :=
| Ok (a : A)
| Fault (f : fault).

Arguments Ok {A} a.
Arguments Fault {A} f.

#[global] Instance result_ret : MRet result := λ A a, Ok a.
#[global] Instance result_bind : MBind result := λ A B k m,
  match m with
  | Ok a => k a
  | Fault f => Fault f
  end.

(** ** Fixed-width integers *)

Definition dtype := positive.

(** The signed integer dtypes of TVM. *)
Definition int8 : dtype := 8%positive.
Definition int16 : dtype := 16%positive.
Definition int32 : dtype := 32%positive.
Definition int64 : dtype := 64%positive.

Definition half (bits : dtype) : Z := 2 ^ (Z.pos bits - 1).

Definition wrap (bits : dtype) (x : Z) : Z :=
  (x + half bits) mod (2 * half bits) - half bits.

Definition in_range (bits : dtype) (x : Z) : Prop :=
  - half bits <= x < half bits.

Definition Cast (dt : dtype) (x : Z) : Z := wrap dt x.

Definition mul (dt : dtype) (a b : Z) : Z := wrap dt (a * b).

Definition add (dt : dtype) (a b : Z) : Z := wrap dt (a + b).

(** The divisions the machine can do: the divisor is not 0, and the
    dividend is not the least value of the dtype when the divisor is -1. *)
Definition division_defined (dt : dtype) (a b : Z) : Prop :=
  b ≠ 0 ∧ ¬ (a = - half dt ∧ b = -1).

(** [te.div] is truncating division. *)
Definition div (dt : dtype) (a b : Z) : result Z :=
  if decide (b = 0) then Fault DivideByZero
  else if decide (a = - half dt ∧ b = -1) then Fault DivideOverflow
  else Ok (wrap dt (Z.quot a b)).

Definition floordiv (dt : dtype) (a b : Z) : result Z :=
  if decide (b = 0) then Fault DivideByZero
  else if decide (a = - half dt ∧ b = -1) then Fault DivideOverflow
  else Ok (wrap dt (a / b)).

Definition floormod (dt : dtype) (a b : Z) : result Z :=
  if decide (b = 0) then Fault DivideByZero
  else if decide (a = - half dt ∧ b = -1) then Fault DivideOverflow
  else Ok (wrap dt (a mod b)).

(** ** The checks of the builder *)

(** The dtype of a binary operation on integers of two widths. *)
Definition binary_op_dtype (a b : dtype) : dtype := Pos.max a b.

(** [buffer[i] = value], when the statement is built. *)
Definition check_store (buffer value : dtype) : result unit :=
  if decide (value = buffer) then Ok tt else Fault DtypeMismatch.

(** ** Buffers *)

Abbreviation cell := (option Z).

Definition allocate (n : nat) : list cell := replicate n None.

Definition decl_buffer (shape : nat * nat) : list (list cell) :=
  replicate shape.1 (allocate shape.2).

Definition shape0 {A} (b : list (list A)) : nat := length b.

Definition shape1 {A} (b : list (list A)) : nat :=
  match b with
  | [] => 0%nat
  | row :: _ => length row
  end.

(** Reading an input buffer. *)
Definition input (b : list Z) (i : nat) : result Z :=
  match b !! i with
  | Some v => Ok v
  | None => Fault OutOfBounds
  end.

Definition input2 (b : list (list Z)) (i j : nat) : result Z :=
  match b !! i with
  | Some row => input row j
  | None => Fault OutOfBounds
  end.

(** Reading and writing an allocated buffer. *)
Definition load (b : list cell) (i : nat) : result Z :=
  match b !! i with
  | Some (Some v) => Ok v
  | Some None => Fault Uninitialised
  | None => Fault OutOfBounds
  end.

Definition store (b : list cell) (i : nat) (v : Z) : result (list cell) :=
  if decide (i < length b)%nat then Ok (<[i := Some v]> b)
  else Fault OutOfBounds.

Definition store2 (b : list (list cell)) (i j : nat) (v : Z)
  : result (list (list cell)) :=
  match b !! i with
  | Some row => row' ← store row j v; Ok (<[i := row']> b)
  | None => Fault OutOfBounds
  end.

(** ** Loops *)

Fixpoint for_loop {St : Type} (body : nat → St → result St)
    (lo count : nat) (s : St) : result St :=
  match count with
  | O => Ok s
  | S c => s' ← body lo s; for_loop body (S lo) c s'
  end.

Definition for_range {St : Type} (lo hi : nat)
    (body : nat → St → result St) (s : St) : result St :=
  for_loop body lo (hi - lo) s.

(** ** The kernel, stage by stage *)

Section Kernel.

(** [dt] is [new_shape_ptr.dtype], the dtype of the shapes and of every
    scratch table; [it] is [sparse_indices_ptr.dtype]. *)
Variables (dt it : dtype).

(** Line 162, when it is built:
    [flattened_indices[i] += sparse_indices[i, j] * multipliers[j]]. *)
Definition build_flatten : result unit :=
  check_store dt (binary_op_dtype dt (binary_op_dtype it dt)).

(** Lines 104-114: [total_ele] and the cumulative reverse exclusive
    multiply. *)
Definition multipliers_loop (prev_shape : list Z)
  : result (list cell * Z) :=
  let prev_shape_size := length prev_shape in
  let multipliers := allocate prev_shape_size in
  total_ele ← input prev_shape 0;
  multipliers ← store multipliers (prev_shape_size - 1) (Cast dt 1);
  for_range 0 (prev_shape_size - 1)
    (λ i_ '(multipliers, total_ele),
       let i := (i_ + 1)%nat in
       p ← input prev_shape (prev_shape_size - i);
       m ← load multipliers (prev_shape_size - i);
       multipliers ← store multipliers (prev_shape_size - 1 - i) (mul dt p m);
       p' ← input prev_shape (prev_shape_size - i);
       Ok (multipliers, mul dt total_ele p'))
    (multipliers, total_ele).

(** Lines 116-122: the product of the entries of [new_shape] other
    than -1. *)
Definition division_total_loop (new_shape : list Z) : result Z :=
  for_range 0 (length new_shape)
    (λ i division_total_ele,
       e ← input new_shape i;
       if decide (e ≠ -1) then Ok (mul dt division_total_ele e)
       else Ok division_total_ele)
    (Cast dt 1).

(** Lines 124-131: the true output shape. *)
Definition out_new_shape_loop (new_shape : list Z)
    (total_ele division_total_ele : Z) (out_new_shape : list cell)
  : result (list cell) :=
  for_range 0 (length new_shape)
    (λ i out_new_shape,
       e ← input new_shape i;
       if decide (e = -1) then
         q ← div dt total_ele division_total_ele;
         store out_new_shape i (Cast dt q)
       else store out_new_shape i e)
    out_new_shape.

(** Lines 133-142: are [prev_shape] and [out_new_shape] equal? *)
Definition equal_shape_check (prev_shape new_shape : list Z)
    (out_new_shape : list cell) : result bool :=
  let equal_shape := true in
  if decide (length prev_shape = length new_shape) then
    for_range 0 (length prev_shape)
      (λ i equal_shape,
         p ← input prev_shape i;
         o ← load out_new_shape i;
         if decide (p ≠ o) then Ok false else Ok equal_shape)
      equal_shape
  else Ok false.

(** Lines 145-148: the same coordinates when the shapes are equal. *)
Definition copy_loop (sparse_indices : list (list Z))
    (new_sparse_indices : list (list cell)) : result (list (list cell)) :=
  for_range 0 (shape0 sparse_indices)
    (λ i new_sparse_indices,
       for_range 0 (shape1 sparse_indices)
         (λ j new_sparse_indices,
            v ← input2 sparse_indices i j;
            store2 new_sparse_indices i j v)
         new_sparse_indices)
    new_sparse_indices.

(** Lines 152-157: the dividers. *)
Definition dividers_loop (new_shape_size : nat) (out_new_shape : list cell)
  : result (list cell) :=
  let dividers := allocate new_shape_size in
  dividers ← store dividers (new_shape_size - 1) (Cast dt 1);
  for_range 0 (new_shape_size - 1)
    (λ i_ dividers,
       let i := (i_ + 1)%nat in
       d ← load dividers (new_shape_size - i);
       o ← load out_new_shape (new_shape_size - i);
       store dividers (new_shape_size - 1 - i) (mul dt d o))
    dividers.

(** Lines 159-162: the linear offset of every row. *)
Definition flatten_loop (sparse_indices : list (list Z))
    (multipliers : list cell) : result (list cell) :=
  _ ← build_flatten;
  let flattened_indices := allocate (shape0 sparse_indices) in
  for_range 0 (shape0 sparse_indices)
    (λ i flattened_indices,
       flattened_indices ← store flattened_indices i (Cast dt 0);
       for_range 0 (shape1 sparse_indices)
         (λ j flattened_indices,
            f ← load flattened_indices i;
            x ← input2 sparse_indices i j;
            m ← load multipliers j;
            store flattened_indices i (add dt f (mul dt x m)))
         flattened_indices)
    flattened_indices.

(** Lines 164-174: the coordinates of every offset under the new shape. *)
Definition unflatten_loop (flattened_indices dividers : list cell)
    (new_sparse_indices : list (list cell)) : result (list (list cell)) :=
  for_range 0 (shape0 new_sparse_indices)
    (λ i new_sparse_indices,
       current_element ← load flattened_indices i;
       '(new_sparse_indices, _) ←
         for_range 0 (shape1 new_sparse_indices)
           (λ j '(new_sparse_indices, current_element),
              d ← load dividers j;
              q ← floordiv dt current_element d;
              new_sparse_indices ← store2 new_sparse_indices i j (Cast it q);
              d' ← load dividers j;
              r ← floormod dt current_element d';
              Ok (new_sparse_indices, r))
           (new_sparse_indices, current_element);
       Ok new_sparse_indices)
    new_sparse_indices.

(** Lines 104-131 together: the shape resolver. *)
Definition shape_resolver (prev_shape new_shape : list Z)
    (out_new_shape : list cell) : result (list cell * list cell) :=
  '(multipliers, total_ele) ← multipliers_loop prev_shape;
  division_total_ele ← division_total_loop new_shape;
  out_new_shape ←
    out_new_shape_loop new_shape total_ele division_total_ele out_new_shape;
  Ok (multipliers, out_new_shape).

(** Lines 150-174 together: the transcoder. *)
Definition transcoder (sparse_indices : list (list Z))
    (new_shape_size : nat) (multipliers out_new_shape : list cell)
    (new_sparse_indices : list (list cell)) : result (list (list cell)) :=
  _ ← build_flatten;
  dividers ← dividers_loop new_shape_size out_new_shape;
  flattened_indices ← flatten_loop sparse_indices multipliers;
  unflatten_loop flattened_indices dividers new_sparse_indices.

Definition gen_ir (sparse_indices : list (list Z))
    (prev_shape new_shape : list Z)
    (new_sparse_indices : list (list cell)) (out_new_shape : list cell)
  : result (list (list cell) * list cell) :=
  _ ← build_flatten;
  '(multipliers, out_new_shape) ←
    shape_resolver prev_shape new_shape out_new_shape;
  equal_shape ← equal_shape_check prev_shape new_shape out_new_shape;
  new_sparse_indices ←
    (if (equal_shape : bool) then copy_loop sparse_indices new_sparse_indices
     else transcoder sparse_indices (length new_shape) multipliers
            out_new_shape new_sparse_indices);
  Ok (new_sparse_indices, out_new_shape).

Definition sparse_reshape (sparse_indices : list (list Z))
    (prev_shape new_shape : list Z)
    (new_sparse_indices_shape : nat * nat) (new_shape_shape : nat)
  : result (list (list cell) * list cell) :=
  gen_ir sparse_indices prev_shape new_shape
    (decl_buffer new_sparse_indices_shape) (allocate new_shape_shape).

End Kernel.

(** ** What the loops compute, as functions on lists

    Each function below is the closed form of one loop of the kernel, in
    the arithmetic of the loop; the lemmas of the next part prove that the
    loop returns it. *)

Section Tables.

Variables (dt it : dtype).

(** [multipliers] for [prev_shape], [dividers] for [out_new_shape]: the
    last entry is 1, every other entry is the next size times the next
    entry. *)
Fixpoint strides (shape : list Z) : list Z :=
  match shape with
  | [] => []
  | _ :: rest =>
      let ms := strides rest in
      match rest, ms with
      | p :: _, m :: _ => mul dt p m
      | _, _ => Cast dt 1
      end :: ms
  end.

(** [total_ele]: [prev_shape[0]], multiplied by the other entries from the
    last one down to the second. *)
Definition total_elements (prev_shape : list Z) : Z :=
  match prev_shape with
  | [] => 0
  | p0 :: ps => fold_right (λ p acc, mul dt acc p) p0 ps
  end.

(** [division_total_ele]. *)
Definition division_total (new_shape : list Z) : Z :=
  fold_left (λ d e, if decide (e ≠ -1) then mul dt d e else d)
    new_shape (Cast dt 1).

(** [out_new_shape]: every -1 replaced by the truncated quotient. *)
Definition resolved_shape (prev_shape new_shape : list Z) : list Z :=
  let q := Z.quot (total_elements prev_shape) (division_total new_shape) in
  (λ e, if decide (e = -1) then Cast dt (wrap dt q) else e) <$> new_shape.

(** [flattened_indices[i]] for one row. *)
Definition flatten_row (multipliers row : list Z) : Z :=
  fold_left (λ f xm, add dt f (mul dt xm.1 xm.2))
    (zip row multipliers) (Cast dt 0).

(** The quotients of the division chain of lines 170-174, in [dt]. *)
Fixpoint division_chain (dividers : list Z) (current_element : Z) : list Z :=
  match dividers with
  | [] => []
  | d :: ds =>
      wrap dt (current_element / d)
        :: division_chain ds (wrap dt (current_element mod d))
  end.

(** One row of [new_sparse_indices] on the general path. *)
Definition unflatten_row (dividers : list Z) (current_element : Z) : list Z :=
  Cast it <$> division_chain dividers current_element.

Definition transcode_row (prev_shape out_shape row : list Z) : list Z :=
  unflatten_row (strides out_shape) (flatten_row (strides prev_shape) row).

(** The coordinates the kernel returns when it returns. *)
Definition reshaped_indices (sparse_indices : list (list Z))
    (prev_shape new_shape : list Z) : list (list Z) :=
  let out_shape := resolved_shape prev_shape new_shape in
  if decide (prev_shape = out_shape) then sparse_indices
  else transcode_row prev_shape out_shape <$> sparse_indices.

End Tables.

(** ** The vocabulary of the specification *)

Definition sentinel : Z := -1.

Fixpoint product (shape : list Z) : Z :=
  match shape with
  | [] => 1
  | s :: rest => s * product rest
  end.

(** Row-major linear offset: every coordinate weighted by the product of
    the sizes of the dimensions to its right. *)
Fixpoint linear_offset (shape row : list Z) : Z :=
  match shape, row with
  | _ :: rest, x :: xs => x * product rest + linear_offset rest xs
  | _, _ => 0
  end.

(** The stride table without wrap-around: entry [j] is the product of the
    sizes to the right of dimension [j]. *)
Fixpoint exact_strides (shape : list Z) : list Z :=
  match shape with
  | [] => []
  | _ :: rest => product rest :: exact_strides rest
  end.

(** The coordinates of a linear offset: divide by each stride from the
    most significant dimension on, carrying the remainder. *)
Fixpoint unflatten (shape : list Z) (offset : Z) : list Z :=
  match shape with
  | [] => []
  | _ :: rest =>
      offset / product rest :: unflatten rest (offset mod product rest)
  end.

(** The offset of a row for a table of strides, in exact arithmetic: the
    sum of the coordinates, each times its stride.  With the exact strides
    of a shape it is the linear offset. *)
Fixpoint weighted_sum (strides row : list Z) : Z :=
  match strides, row with
  | m :: ms, x :: xs => x * m + weighted_sum ms xs
  | _, _ => 0
  end.

Definition in_bounds (shape row : list Z) : Prop :=
  Forall2 (λ x s, 0 <= x < s) row shape.

Definition known_product (new_shape : list Z) : Z :=
  product (filter (λ e, e ≠ sentinel) new_shape).

Definition sentinels (new_shape : list Z) : nat :=
  length (filter (λ e, e = sentinel) new_shape).

(** [new_shape] with every sentinel replaced by [total / known]. *)
Definition substitute_sentinel (total known : Z) (new_shape : list Z) : list Z :=
  (λ e, if decide (e = sentinel) then total / known else e) <$> new_shape.

(** A fully written buffer. *)
Definition written (values : list Z) : list cell := Some <$> values.

Definition written2 (rows : list (list Z)) : list (list cell) :=
  written <$> rows.

(** ** The conclusions of the claims about whole runs *)

(** The conclusion of claim C1: the kernel returns, and row by row the
    linear offset under [prev_shape] is the linear offset of the output
    row under the resolved shape. *)
Definition order_preserved (dt it : dtype) (sparse_indices : list (list Z))
    (prev_shape new_shape : list Z) : Prop :=
  ∃ new_sparse_indices resolved_new_shape,
    sparse_reshape dt it sparse_indices prev_shape new_shape
      (length sparse_indices, length new_shape) (length new_shape)
    = Ok (written2 new_sparse_indices, written resolved_new_shape)
    ∧ Forall2 (λ row row', linear_offset prev_shape row
                           = linear_offset resolved_new_shape row')
        sparse_indices new_sparse_indices.

(** The conclusion of claim C2: the resolver writes [new_shape] with the
    sentinel replaced by [P / known], and the product of what it writes is
    [P]. *)
Definition shape_inferred (dt : dtype) (prev_shape new_shape : list Z) : Prop :=
  let inferred :=
    substitute_sentinel (product prev_shape) (known_product new_shape)
      new_shape in
  shape_resolver dt prev_shape new_shape (allocate (length new_shape))
  = Ok (written (strides dt prev_shape), written inferred)
  ∧ product inferred = product prev_shape.

(** The conclusion of claim C6: reshaping to [new_shape] and back returns
    the coordinates it started from. *)
Definition round_trips (dt it : dtype) (sparse_indices : list (list Z))
    (prev_shape new_shape : list Z) : Prop :=
  ∃ there,
    sparse_reshape dt it sparse_indices prev_shape new_shape
      (length sparse_indices, length new_shape) (length new_shape)
    = Ok (written2 there, written new_shape)
    ∧ sparse_reshape dt it there new_shape prev_shape
        (length there, length prev_shape) (length prev_shape)
      = Ok (written2 sparse_indices, written prev_shape).

(** The conclusion of claim C9: the resolver returns, with every -1
    replaced by one quotient and every other entry copied as it is. *)
Definition resolved_verbatim (dt : dtype) (prev_shape new_shape : list Z)
  : Prop :=
  ∃ multipliers quotient,
    shape_resolver dt prev_shape new_shape (allocate (length new_shape))
    = Ok (multipliers,
          written ((λ e, if decide (e = sentinel) then quotient else e)
                   <$> new_shape)).

(** ** Vocabulary for the further properties of the kernel *)

(** The shape the resolver infers, in exact arithmetic. *)
Definition inferred_shape (prev_shape new_shape : list Z) : list Z :=
  substitute_sentinel (product prev_shape) (known_product new_shape) new_shape.

(** The reference reshape of one coordinate: the coordinates, under the
    inferred shape, of the row's linear offset under [prev_shape]. *)
Definition reference_row (prev_shape new_shape row : list Z) : list Z :=
  unflatten (inferred_shape prev_shape new_shape)
    (linear_offset prev_shape row).

(** The inputs on which the kernel is exact: coordinates no wider than
    the shapes, both shapes non-empty, sizes positive, at most one sentinel,
    which the element count can resolve, the same element count on both
    sides, representable in the shape dtype, and every inferred size within
    the range of the coordinate dtype. *)
Definition compatible (dt it : dtype) (prev_shape new_shape : list Z) : Prop :=
  (it <= dt)%positive
  ∧ prev_shape ≠ [] ∧ new_shape ≠ []
  ∧ Forall (λ s, 0 < s) prev_shape
  ∧ Forall (λ e, e = sentinel ∨ 0 < e) new_shape
  ∧ (sentinels new_shape <= 1)%nat
  ∧ (sentinel ∈ new_shape → (known_product new_shape | product prev_shape))
  ∧ (sentinel ∉ new_shape → product new_shape = product prev_shape)
  ∧ product prev_shape < half dt
  ∧ Forall (λ s, s <= half it) (inferred_shape prev_shape new_shape).

(** Lexicographic order of coordinates, the order of a canonical COO
    tensor. *)
Fixpoint lex_lt (a b : list Z) : Prop :=
  match a, b with
  | x :: xs, y :: ys => x < y ∨ (x = y ∧ lex_lt xs ys)
  | _, _ => False
  end.

(** * The inputs of a run (python/tvm/driver/tvmc/runner.py)

    [get_input_info], [generate_tensor_data] and [make_inputs_dict].

    Conventions of the embedding.
    - A Python dict is the list of its items in insertion order; no key
      occurs twice in a dict, which the properties that need it assume of
      their arguments.
    - An exception is a value of [exception]; the message of a
      [TVMCException] is kept as the arguments of its format string.
    - numpy is not part of this repository: its arrays, its random state
      and the four calls the code makes are the fields of [Numpy].  A call
      returns, or raises an exception of numpy's own (a [TypeError] for a
      dtype it does not know, a [ValueError] for a negative dimension),
      which the code does not catch.  The global random state is threaded
      through explicitly.
    - [json.loads] and [load_param_dict] are external too:
      [get_input_info] is modelled from the parsed graph and the loaded
      parameter dict on; the parsed graph has the keys the code reads
      ("arg_nodes", "nodes", "attrs"/"shape", "attrs"/"dltype"). *)

Module Runner.

Inductive message : Type :=
| InputNotInGraph (input_name : string) (expected : list string)
| UnknownFillMode (fill_mode : string).

Inductive exception : Type :=
| TVMCException (m : message)
| KeyError (key : string)
| IndexError
| NumpyError (exc : string).

Inductive py (A : Type) : Type :=
| Return (a : A)
| Raise (e : exception).

Arguments Return {A} a.
Arguments Raise {A} e.

#[global] Instance py_ret : MRet py := λ A a, Return a.
#[global] Instance py_bind : MBind py := λ A B k m,
  match m with
  | Return a => k a
  | Raise e => Raise e
  end.

(** ** Dicts and lists *)

Definition dict (V : Type) : Type := list (string * V).

Definition keys {V : Type} (d : dict V) : list string := d.*1.

Fixpoint get {V : Type} (d : dict V) (key : string) : option V :=
  match d with
  | [] => None
  | (k, v) :: rest => if decide (k = key) then Some v else get rest key
  end.

(** [d[key]] *)
Definition getitem {V : Type} (d : dict V) (key : string) : py V :=
  match get d key with
  | Some v => Return v
  | None => Raise (KeyError key)
  end.

(** [d[key] = v]: a key already there keeps its place. *)
Fixpoint setitem {V : Type} (d : dict V) (key : string) (v : V) : dict V :=
  match d with
  | [] => [(key, v)]
  | (k, v') :: rest =>
      if decide (k = key) then (key, v) :: rest
      else (k, v') :: setitem rest key v
  end.

(** [l[i]] for a Python int [i]: a negative index counts from the end. *)
Definition index {A : Type} (l : list A) (i : Z) : py A :=
  let n := Z.of_nat (length l) in
  let j := if decide (i < 0) then i + n else i in
  if decide (0 <= j < n) then
    match l !! Z.to_nat j with
    | Some x => Return x
    | None => Raise IndexError
    end
  else Raise IndexError.

(** [for a in l: body] *)
Fixpoint for_each {A St : Type} (l : list A) (body : A → St → py St) (s : St)
  : py St :=
  match l with
  | [] => Return s
  | a :: rest => s' ← body a s; for_each rest body s'
  end.

(** [needle in hay], for strings. *)
Fixpoint contains (needle hay : string) : bool :=
  if String.prefix needle hay then true
  else match hay with
       | EmptyString => false
       | String _ rest => contains needle rest
       end.

(** ** numpy *)

(** What a call into numpy gives: its value, or the exception it raises,
    by the name of its class. *)
Inductive numpy_result (A : Type) : Type :=
| Array (a : A)
| Raises (exc : string).

Arguments Array {A} a.
Arguments Raises {A} exc.

Definition from_numpy {A : Type} (r : numpy_result A) : py A :=
  match r with
  | Array a => Return a
  | Raises exc => Raise (NumpyError exc)
  end.

Class Numpy : Type := {
  ndarray : Type;
  random_state : Type;
  np_zeros : list Z → string → numpy_result ndarray;
  np_ones : list Z → string → numpy_result ndarray;
  (** [np.random.randint(high, size=shape, dtype=dtype)] *)
  np_random_randint :
    random_state → Z → list Z → string
    → numpy_result (ndarray * random_state);
  (** [np.random.uniform(low, high, size=shape).astype(dtype)] *)
  np_random_uniform_astype :
    random_state → Z → Z → list Z → string
    → numpy_result (ndarray * random_state)
}.

Section Inputs.

Context `{Numpy}.

(** Lines 248-285. *)
Definition generate_tensor_data (shape : list Z) (dtype fill_mode : string)
  (g : random_state) : py (ndarray * random_state) :=
if decide (fill_mode = "zeros") then
  tensor ← from_numpy (np_zeros shape dtype); Return (tensor, g)
else if decide (fill_mode = "ones") then
  tensor ← from_numpy (np_ones shape dtype); Return (tensor, g)
else if decide (fill_mode = "random") then
  if contains "int8" dtype then
    from_numpy (np_random_randint g 128 shape dtype)
  else from_numpy (np_random_uniform_astype g (-1) 1 shape dtype)
else Raise (TVMCException (UnknownFillMode fill_mode)).


(** Lines 288-354. *)
Definition make_inputs_dict (shape_dict : dict (list Z))
  (dtype_dict : dict string) (inputs : option (dict ndarray))
  (fill_mode : string) (g : random_state)
: py (dict ndarray * random_state) :=
let inputs := match inputs with None => [] | Some d => d end in
_ ← for_each (keys inputs)
      (λ input_name (_ : unit),
         if decide (input_name ∉ keys shape_dict) then
           Raise (TVMCException
                    (InputNotInGraph input_name (keys shape_dict)))
         else Return tt)
      tt;
for_each (keys shape_dict)
  (λ input_name '(inputs_dict, g),
     if decide (input_name ∈ keys inputs) then
       v ← getitem inputs input_name;
       Return (setitem inputs_dict input_name v, g)
     else
       shape ← getitem shape_dict input_name;
       dtype ← getitem dtype_dict input_name;
       '(data, g) ← generate_tensor_data shape dtype fill_mode g;
       Return (setitem inputs_dict input_name data, g))
  ([], g).

End Inputs.

(** ** The graph of a compiled module *)

Record node : Type := { name : string }.

Record graph : Type := {
  arg_nodes : list Z;
  nodes : list node;
  (** [graph["attrs"]["shape"][1]] and [graph["attrs"]["dltype"][1]] *)
  attrs_shape : list (list Z);
  attrs_dltype : list string
}.

(** Lines 198-245, from [params_dict] and [graph] on. *)
Definition get_input_info {V : Type} (graph : graph) (params_dict : dict V)
  : py (dict (list Z) * dict string) :=
  let param_names := keys params_dict in
  for_each (arg_nodes graph)
    (λ node_id '(shape_dict, dtype_dict),
       node ← index (nodes graph) node_id;
       let name := name node in
       if decide (name ∉ param_names) then
         shape ← index (attrs_shape graph) node_id;
         dtype ← index (attrs_dltype graph) node_id;
         Return (setitem shape_dict name shape, setitem dtype_dict name dtype)
       else Return (shape_dict, dtype_dict))
    ([], []).

(** ** A numpy to run examples on

    An array is the call that made it, and the state of the generator is
    the number of draws so far.  A call with a dtype outside
    [known_dtypes] raises [TypeError], one with a negative dimension
    [ValueError]. *)
Inductive array : Type :=
  | Zeros (shape : list Z) (dtype : string)
  | Ones (shape : list Z) (dtype : string)
  | Randint (draw : nat) (high : Z) (shape : list Z) (dtype : string)
  | Uniform (draw : nat) (low high : Z) (shape : list Z) (dtype : string)
  | Loaded (file : string).

Definition known_dtypes : list string :=
  ["bool"; "int8"; "uint8"; "int16"; "uint16"; "int32"; "uint32"; "int64";
   "uint64"; "float16"; "float32"; "float64"].

Definition checked {A : Type} (shape : list Z) (dtype : string) (a : A)
  : numpy_result A :=
  if decide (dtype ∈ known_dtypes) then
    if decide (Forall (λ d, 0 ≤ d)%Z shape) then Array a
    else Raises "ValueError"
  else Raises "TypeError".

Definition symbolic_numpy : Numpy := {|
  ndarray := array;
  random_state := nat;
  np_zeros shape dtype := checked shape dtype (Zeros shape dtype);
  np_ones shape dtype := checked shape dtype (Ones shape dtype);
  np_random_randint g high shape dtype :=
    checked shape dtype (Randint g high shape dtype, S g);
  np_random_uniform_astype g low high shape dtype :=
    checked shape dtype (Uniform g low high shape dtype, S g)
|}.

(** A graph with the inputs "data" and "mask" and the parameter "weight". *)
Definition example_graph : graph := {|
  arg_nodes := [0; 1; 2];
  nodes := [ {| name := "data" |}; {| name := "weight" |};
             {| name := "mask" |}; {| name := "dense" |} ];
  attrs_shape := [[1; 16]; [8; 16]; [1; 8]; [1; 8]];
  attrs_dltype := ["float32"; "float32"; "int8"; "float32"]
|}.

Definition example_params : dict unit := [("weight", tt)].

Definition example_shape_dict : dict (list Z) :=
  [("data", [1; 16]); ("mask", [1; 8])].

Definition example_dtype_dict : dict string :=
  [("data", "float32"); ("mask", "int8")].

End Runner.

(** ** Fixed-width arithmetic *)

Lemma half_pos (b : dtype) : 0 < half b.
Proof. unfold half. apply Z.pow_pos_nonneg; lia. Qed.

Lemma wrap_in_range (b : dtype) (x : Z) : in_range b (wrap b x).
Proof.
  unfold in_range, wrap. pose proof (half_pos b).
  pose proof (Z.mod_pos_bound (x + half b) (2 * half b)). lia.
Qed.

Lemma wrap_id (b : dtype) (x : Z) : in_range b x → wrap b x = x.
Proof.
  unfold in_range, wrap. intros Hx.
  rewrite Z.mod_small by lia. lia.
Qed.

Lemma wrap_mul_l (b : dtype) (x y : Z) : wrap b (wrap b x * y) = wrap b (x * y).
Proof.
  unfold wrap. pose proof (half_pos b). f_equal.
  set (M := 2 * half b).
  replace (((x + half b) mod M - half b) * y + half b)
    with (((x + half b) mod M) * y + (half b - half b * y)) by lia.
  replace (x * y + half b) with ((x + half b) * y + (half b - half b * y)) by lia.
  rewrite (Z.add_mod ((x + half b) mod M * y)) by lia.
  rewrite (Z.add_mod ((x + half b) * y)) by lia.
  rewrite Z.mul_mod_idemp_l by lia. reflexivity.
Qed.

Lemma wrap_add_l (b : dtype) (x y : Z) : wrap b (wrap b x + y) = wrap b (x + y).
Proof.
  unfold wrap. pose proof (half_pos b). f_equal.
  set (M := 2 * half b).
  replace ((x + half b) mod M - half b + y + half b)
    with ((x + half b) mod M + y) by lia.
  replace (x + y + half b) with ((x + half b) + y) by lia.
  now rewrite Z.add_mod_idemp_l by lia.
Qed.

Lemma wrap_add_r (b : dtype) (x y : Z) : wrap b (x + wrap b y) = wrap b (x + y).
Proof. rewrite (Z.add_comm x), wrap_add_l. f_equal. lia. Qed.

Lemma half_mono (a b : dtype) : (a <= b)%positive → half a <= half b.
Proof. unfold half. intros H. apply Z.pow_le_mono_r; lia. Qed.

Lemma half_8_le (b : dtype) : (8 <= b)%positive → 128 <= half b.
Proof. intros H. apply (half_mono 8%positive b) in H. exact H. Qed.

(** ** Divisions and the build check *)

Lemma division_defined_pos (dt : dtype) (a b : Z) :
  0 < b → division_defined dt a b.
Proof. unfold division_defined. lia. Qed.

Lemma division_defined_divisor (dt : dtype) (a b : Z) :
  b ≠ 0 → b ≠ -1 → division_defined dt a b.
Proof. unfold division_defined. lia. Qed.

Lemma div_defined (dt : dtype) (a b : Z) :
  division_defined dt a b → div dt a b = Ok (wrap dt (Z.quot a b)).
Proof.
  intros [Hb Ho]. unfold div.
  rewrite decide_False by exact Hb. now rewrite decide_False by exact Ho.
Qed.

Lemma floordiv_defined (dt : dtype) (a b : Z) :
  division_defined dt a b → floordiv dt a b = Ok (wrap dt (a / b)).
Proof.
  intros [Hb Ho]. unfold floordiv.
  rewrite decide_False by exact Hb. now rewrite decide_False by exact Ho.
Qed.

Lemma floormod_defined (dt : dtype) (a b : Z) :
  division_defined dt a b → floormod dt a b = Ok (wrap dt (a mod b)).
Proof.
  intros [Hb Ho]. unfold floormod.
  rewrite decide_False by exact Hb. now rewrite decide_False by exact Ho.
Qed.

Lemma div_fault (dt : dtype) (a b : Z) :
  ¬ division_defined dt a b →
  div dt a b = Fault (if decide (b = 0) then DivideByZero else DivideOverflow).
Proof.
  intros Hn. unfold div, division_defined in *.
  destruct (decide (b = 0)); [reflexivity|].
  rewrite decide_True; [reflexivity|].
  destruct (decide (a = - half dt ∧ b = -1)); tauto.
Qed.

Lemma build_flatten_ok (dt it : dtype) :
  (it <= dt)%positive → build_flatten dt it = Ok tt.
Proof.
  intros H. unfold build_flatten, check_store, binary_op_dtype.
  apply decide_True. lia.
Qed.

Lemma build_flatten_fault (dt it : dtype) :
  (dt < it)%positive → build_flatten dt it = Fault DtypeMismatch.
Proof.
  intros H. unfold build_flatten, check_store, binary_op_dtype.
  apply decide_False. lia.
Qed.

(** ** Reasoning about loops *)

Lemma for_loop_inv {St : Type} (I : nat → St → Prop)
    (body : nat → St → result St) (count lo : nat) (s : St) :
  I lo s →
  (∀ i s, (lo <= i < lo + count)%nat → I i s →
          ∃ s', body i s = Ok s' ∧ I (S i) s') →
  ∃ s', for_loop body lo count s = Ok s' ∧ I (lo + count)%nat s'.
Proof.
  revert lo s. induction count as [|c IH]; intros lo s H0 Hstep; simpl.
  - exists s. rewrite Nat.add_0_r. auto.
  - destruct (Hstep lo s) as (s1 & Hb & H1); [lia | assumption |].
    rewrite Hb. simpl.
    destruct (IH (S lo) s1) as (s2 & Hl & H2); [assumption | |].
    + intros i t Hi. apply Hstep. lia.
    + exists s2. split; [assumption |].
      replace (lo + S c)%nat with (S lo + c)%nat by lia. assumption.
Qed.

(** ** The stride tables *)

Section StrideFacts.

Variable dt : dtype.
Local Open Scope nat_scope.

Lemma length_strides (shape : list Z) :
  length (strides dt shape) = length shape.
Proof. induction shape as [|s rest IH]; simpl; [reflexivity | now rewrite IH]. Qed.

Lemma strides_lookup_last (shape : list Z) :
  shape ≠ [] → strides dt shape !! (length shape - 1) = Some (Cast dt 1).
Proof.
  induction shape as [|s rest IH]; [congruence | intros _].
  destruct rest as [|p rest'].
  - reflexivity.
  - replace (length (s :: p :: rest') - 1) with (S (length (p :: rest') - 1))
      by (simpl; lia).
    change (strides dt (p :: rest') !! (length (p :: rest') - 1)
            = Some (Cast dt 1)).
    apply IH. congruence.
Qed.

Lemma strides_lookup_step (shape : list Z) (j : nat) (p m : Z) :
  shape !! S j = Some p → strides dt shape !! S j = Some m →
  strides dt shape !! j = Some (mul dt p m).
Proof.
  revert j. induction shape as [|s rest IH]; intros j Hp Hm; [discriminate|].
  destruct j as [|j].
  - simpl in Hp, Hm. simpl.
    destruct rest as [|p' rest']; [discriminate|].
    simpl in Hp. injection Hp as ->.
    destruct (strides dt (p :: rest')) as [|m' ms] eqn:E; [discriminate|].
    simpl in Hm. injection Hm as ->. reflexivity.
  - change (strides dt rest !! S j = Some m) in Hm.
    change (rest !! S j = Some p) in Hp.
    change (strides dt rest !! j = Some (mul dt p m)).
    now apply IH.
Qed.

End StrideFacts.

(** ** Buffer accesses *)

Lemma bind_Ok {A B : Type} (a : A) (k : A → result B) : (Ok a ≫= k) = k a.
Proof. reflexivity. Qed.

Section BufferFacts.

Local Open Scope nat_scope.

Lemma input_lookup (b : list Z) (i : nat) (v : Z) :
  b !! i = Some v → input b i = Ok v.
Proof. unfold input. now intros ->. Qed.

Lemma input2_lookup (b : list (list Z)) (i j : nat) (row : list Z) (v : Z) :
  b !! i = Some row → row !! j = Some v → input2 b i j = Ok v.
Proof. unfold input2. intros -> H. now apply input_lookup. Qed.

Lemma load_lookup (b : list cell) (i : nat) (v : Z) :
  b !! i = Some (Some v) → load b i = Ok v.
Proof. unfold load. now intros ->. Qed.

Lemma load_written (vs : list Z) (i : nat) (v : Z) :
  vs !! i = Some v → load (written vs) i = Ok v.
Proof.
  intros H. apply load_lookup. unfold written.
  rewrite list_lookup_fmap, H. reflexivity.
Qed.

Lemma store_lt (b : list cell) (i : nat) (v : Z) :
  i < length b → store b i v = Ok (<[i := Some v]> b).
Proof. unfold store. intros H. now rewrite decide_True. Qed.

Lemma store2_lookup (b : list (list cell)) (i j : nat) (row : list cell) (v : Z) :
  b !! i = Some row → j < length row →
  store2 b i j v = Ok (<[i := <[j := Some v]> row]> b).
Proof. unfold store2. intros -> H. now rewrite store_lt. Qed.

Lemma written_eq (b : list cell) (vs : list Z) :
  length b = length vs →
  (∀ j v, vs !! j = Some v → b !! j = Some (Some v)) →
  b = written vs.
Proof.
  intros Hlen H. apply list_eq. intros j. unfold written.
  rewrite list_lookup_fmap.
  destruct (vs !! j) as [v|] eqn:E.
  - exact (H j v E).
  - simpl. apply lookup_ge_None. apply lookup_ge_None in E. lia.
Qed.

End BufferFacts.

(** ** Lines 104-114 *)

Section MultipliersLoop.

Variable dt : dtype.
Local Open Scope nat_scope.

Lemma multipliers_loop_ok (prev_shape : list Z) :
  prev_shape ≠ [] →
  multipliers_loop dt prev_shape
  = Ok (written (strides dt prev_shape), total_elements dt prev_shape).
Proof.
  intros Hne. destruct prev_shape as [|p0 ps]; [congruence|].
  unfold multipliers_loop.
  set (prev := p0 :: ps). set (n := length prev).
  assert (Hn : n = S (length ps)) by reflexivity.
  rewrite (input_lookup prev 0 p0) by reflexivity. rewrite bind_Ok.
  rewrite store_lt by (unfold allocate; rewrite length_replicate; lia).
  rewrite bind_Ok. unfold for_range. rewrite Nat.sub_0_r.
  set (body := λ (i_ : nat) '(multipliers, total_ele), _).
  set (I := λ (k : nat) (s : list cell * Z),
         length s.1 = n
         ∧ (∀ j v, n - 1 - k <= j → strides dt prev !! j = Some v →
                   s.1 !! j = Some (Some v))
         ∧ s.2 = fold_right (λ p acc, mul dt acc p) p0
                   (drop (length ps - k) ps)).
  destruct (for_loop_inv I body (n - 1) 0
              (<[n - 1 := Some (Cast dt 1)]> (allocate n), p0))
    as ([ms tot] & Hrun & Hlen & Hms & Htot).
  - unfold I; cbn [fst snd]. split_and!.
    + rewrite length_insert. unfold allocate. now rewrite length_replicate.
    + intros j v Hj Hv.
      assert (j < n).
      { unfold n. rewrite <- (length_strides dt prev).
        eapply lookup_lt_Some. exact Hv. }
      assert (j = n - 1) as -> by lia.
      rewrite list_lookup_insert_eq
        by (unfold allocate; rewrite length_replicate; lia).
      pose proof (strides_lookup_last dt prev Hne) as Hl.
      fold n in Hl. congruence.
    + rewrite Nat.sub_0_r, drop_all. reflexivity.
  - intros k [ms tot] Hk (Hlen & Hms & Htot). cbn [fst snd] in Hlen, Hms, Htot.
    unfold body.
    assert (Hidx : n - (k + 1) < length prev) by (fold n; lia).
    destruct (lookup_lt_is_Some_2 prev _ Hidx) as [p Hp].
    assert (Hidx' : n - (k + 1) < length (strides dt prev))
      by (rewrite length_strides; exact Hidx).
    destruct (lookup_lt_is_Some_2 _ _ Hidx') as [m Hm].
    rewrite (input_lookup _ _ _ Hp). rewrite bind_Ok.
    rewrite (load_lookup ms _ m) by (apply Hms; [lia | exact Hm]).
    rewrite bind_Ok. rewrite store_lt by lia. rewrite bind_Ok.
    eexists; split; [reflexivity|]. unfold I; cbn [fst snd]. split_and!.
    + now rewrite length_insert.
    + intros j v Hj Hv.
      destruct (decide (j = n - 1 - (k + 1))) as [->|Hne'].
      * rewrite list_lookup_insert_eq by lia.
        replace (n - (k + 1)) with (S (n - 1 - (k + 1))) in Hp, Hm by lia.
        pose proof (strides_lookup_step dt prev _ p m Hp Hm). congruence.
      * rewrite list_lookup_insert_ne by congruence. apply Hms; [lia | exact Hv].
    + subst tot.
      assert (Hps : ps !! (length ps - S k) = Some p).
      { unfold prev in Hp.
        replace (n - (k + 1)) with (S (length ps - S k)) in Hp by lia.
        exact Hp. }
      rewrite (drop_S ps p (length ps - S k) Hps).
      replace (S (length ps - S k)) with (length ps - k) by lia.
      reflexivity.
  - cbn [fst snd] in Hlen, Hms, Htot. rewrite Hrun. f_equal. f_equal.
    + apply written_eq.
      * now rewrite length_strides.
      * intros j v Hv. apply Hms; [lia | exact Hv].
    + rewrite Htot. unfold prev, total_elements.
      replace (length ps - (0 + (n - 1))) with 0 by lia. reflexivity.
Qed.

End MultipliersLoop.

(** A loop whose state after [i] iterations is known in closed form. *)
Lemma for_loop_eq {St : Type} (body : nat → St → result St) (f : nat → St)
    (count lo : nat) :
  (∀ i, (lo <= i < lo + count)%nat → body i (f i) = Ok (f (S i))) →
  for_loop body lo count (f lo) = Ok (f (lo + count)%nat).
Proof.
  intros Hstep.
  destruct (for_loop_inv (λ i s, s = f i) body count lo (f lo)) as (s & -> & ->);
    [reflexivity | | reflexivity].
  intros i s Hi ->. eauto.
Qed.

Section FillFacts.

Local Open Scope nat_scope.

(** Overwriting position [i] of a buffer whose first [i] cells hold the
    first [i] values. *)
Lemma insert_prefix {A B : Type} (F : A → B) (vs : list A) (b : list B)
    (i : nat) (v : A) :
  vs !! i = Some v → i < length b →
  <[i := F v]> ((F <$> take i vs) ++ drop i b)
  = (F <$> take (S i) vs) ++ drop (S i) b.
Proof.
  intros Hv Hb.
  destruct (lookup_lt_is_Some_2 b i Hb) as [y Hy].
  assert (Hlen : length (F <$> take i vs) = i).
  { rewrite length_fmap, length_take. apply lookup_lt_Some in Hv. lia. }
  rewrite (drop_S b y i Hy).
  rewrite <- (Nat.add_0_r i) at 1. rewrite <- Hlen at 1.
  rewrite insert_app_r. simpl.
  rewrite (take_S_r vs i v Hv), fmap_app, <- app_assoc. reflexivity.
Qed.

Lemma prefix_full {A B : Type} (F : A → B) (vs : list A) (b : list B) :
  length b = length vs →
  (F <$> take (length vs) vs) ++ drop (length vs) b = F <$> vs.
Proof.
  intros H. rewrite take_ge by lia. rewrite drop_ge by lia.
  apply app_nil_r.
Qed.

Lemma prefix_lookup {A B : Type} (F : A → B) (vs : list A) (b : list B)
    (i : nat) :
  i <= length vs → ((F <$> take i vs) ++ drop i b) !! i = b !! i.
Proof.
  intros Hi.
  assert (Hlen : length (F <$> take i vs) = i)
    by (rewrite length_fmap, length_take; lia).
  rewrite lookup_app_r by lia. rewrite Hlen, Nat.sub_diag.
  rewrite lookup_drop. f_equal. lia.
Qed.

Lemma prefix_length {A B : Type} (F : A → B) (vs : list A) (b : list B)
    (i : nat) :
  i <= length vs → length vs = length b →
  length ((F <$> take i vs) ++ drop i b) = length b.
Proof.
  intros Hi Hl.
  rewrite length_app, length_fmap, length_take, length_drop. lia.
Qed.

End FillFacts.

(** ** Lines 116-131 *)

Section ResolverLoops.

Variable dt : dtype.
Local Open Scope nat_scope.

Lemma division_total_loop_ok (new_shape : list Z) :
  division_total_loop dt new_shape = Ok (division_total dt new_shape).
Proof.
  unfold division_total_loop, for_range, division_total.
  rewrite Nat.sub_0_r.
  set (step := λ (d e : Z), if decide (e ≠ (-1)%Z) then mul dt d e else d).
  set (body := λ (i : nat) (d : Z), _).
  pose (f := λ k : nat, fold_left step (take k new_shape) (Cast dt 1)).
  change (for_loop body 0 (length new_shape) (f 0)
          = Ok (fold_left step new_shape (Cast dt 1))).
  rewrite (for_loop_eq body f).
  - unfold f. simpl. rewrite take_ge by lia. reflexivity.
  - intros i Hi. unfold body, f.
    destruct (lookup_lt_is_Some_2 new_shape i) as [e He]; [lia|].
    rewrite (input_lookup _ _ _ He), bind_Ok.
    rewrite (take_S_r _ _ _ He), fold_left_app. simpl.
    destruct (decide (e ≠ (-1)%Z)) as [Hd|Hd]; unfold step;
      [rewrite decide_True by exact Hd | rewrite decide_False by exact Hd];
      reflexivity.
Qed.

Lemma out_new_shape_loop_ok (new_shape : list Z) (total known : Z)
    (out : list cell) :
  length out = length new_shape →
  (division_defined dt total known ∨ (-1)%Z ∉ new_shape) →
  out_new_shape_loop dt new_shape total known out
  = Ok (written ((λ e, if decide (e = (-1)%Z)
                       then Cast dt (wrap dt (Z.quot total known)) else e)
                 <$> new_shape)).
Proof.
  intros Hlen Hk. unfold out_new_shape_loop, for_range, written.
  rewrite Nat.sub_0_r.
  set (g := λ e : Z, if decide (e = (-1)%Z)
                     then Cast dt (wrap dt (Z.quot total known)) else e).
  set (body := λ (i : nat) (o : list cell), _).
  pose (f := λ k : nat, (Some <$> take k (g <$> new_shape)) ++ drop k out).
  change (for_loop body 0 (length new_shape) (f 0) = Ok (Some <$> (g <$> new_shape))).
  rewrite (for_loop_eq body f).
  - unfold f. simpl. rewrite <- (length_fmap g new_shape) at 1 2.
    rewrite prefix_full by (now rewrite length_fmap). reflexivity.
  - intros i Hi. unfold body.
    destruct (lookup_lt_is_Some_2 new_shape i) as [e He]; [lia|].
    rewrite (input_lookup _ _ _ He), bind_Ok.
    assert (Hg : (g <$> new_shape) !! i = Some (g e))
      by (rewrite list_lookup_fmap, He; reflexivity).
    assert (Hfl : i < length (f i)).
    { unfold f. rewrite prefix_length; rewrite ?length_fmap; lia. }
    assert (Hnext : <[i := Some (g e)]> (f i) = f (S i)).
    { unfold f. apply insert_prefix; [exact Hg | lia]. }
    destruct (decide (e = (-1)%Z)) as [->|Hne].
    + assert (division_defined dt total known) as Hk0.
      { destruct Hk as [Hk|Hk]; [exact Hk|].
        exfalso. apply Hk. eapply list_elem_of_lookup_2. exact He. }
      rewrite (div_defined _ _ _ Hk0), bind_Ok.
      rewrite store_lt by exact Hfl. rewrite <- Hnext.
      unfold g. rewrite decide_True by reflexivity. reflexivity.
    + rewrite store_lt by exact Hfl. rewrite <- Hnext.
      unfold g. rewrite decide_False by exact Hne. reflexivity.
Qed.

Lemma out_new_shape_loop_fault (new_shape : list Z) (total known : Z)
    (out : list cell) (f : fault) :
  div dt total known = Fault f →
  length out = length new_shape → (-1)%Z ∈ new_shape →
  out_new_shape_loop dt new_shape total known out = Fault f.
Proof.
  intros Hdiv. unfold out_new_shape_loop, for_range. rewrite Nat.sub_0_r.
  set (body := λ (i : nat) (o : list cell), _).
  assert (G : ∀ (l : list Z) (pre : list Z) (o : list cell),
             new_shape = pre ++ l → length o = length new_shape →
             (-1)%Z ∈ l →
             for_loop body (length pre) (length l) o = Fault f).
  { induction l as [|e l IH]; intros pre o Hsplit Hlen Hin.
    - now apply elem_of_nil in Hin.
    - change (for_loop body (length pre) (S (length l)) o = Fault f).
      cbn [for_loop].
      assert (He : new_shape !! length pre = Some e).
      { rewrite Hsplit. rewrite lookup_app_r by lia.
        now rewrite Nat.sub_diag. }
      assert (Hlt : length pre < length o).
      { rewrite Hlen, Hsplit, length_app. simpl. lia. }
      assert (Hb : body (length pre) o
                   = if decide (e = (-1)%Z) then Fault f
                     else Ok (<[length pre := Some e]> o)).
      { unfold body. rewrite (input_lookup _ _ _ He), bind_Ok.
        destruct (decide (e = (-1)%Z)) as [->|Hne].
        - rewrite Hdiv. reflexivity.
        - now rewrite store_lt. }
      rewrite Hb. destruct (decide (e = (-1)%Z)) as [->|Hne]; [reflexivity|].
      rewrite bind_Ok.
      replace (S (length pre)) with (length (pre ++ [e]))
        by (rewrite length_app; simpl; lia).
      apply IH.
      + now rewrite <- app_assoc.
      + now rewrite length_insert.
      + apply elem_of_cons in Hin. destruct Hin; congruence. }
  intros Hlen Hin. apply (G new_shape [] out); auto.
Qed.

End ResolverLoops.

(** ** Lines 133-148 *)

Section ShortcutLoops.

Local Open Scope nat_scope.

Lemma equal_shape_check_ok (prev_shape new_shape out : list Z) :
  length out = length new_shape →
  equal_shape_check prev_shape new_shape (written out)
  = Ok (bool_decide (prev_shape = out)).
Proof.
  intros Hlen. unfold equal_shape_check.
  destruct (decide (length prev_shape = length new_shape)) as [Heq|Hne].
  - unfold for_range. rewrite Nat.sub_0_r.
    set (body := λ (i : nat) (eq : bool), _).
    pose (f := λ k : nat, bool_decide (take k prev_shape = take k out)).
    change (for_loop body 0 (length prev_shape) (f 0)
            = Ok (bool_decide (prev_shape = out))).
    rewrite (for_loop_eq body f).
    + unfold f. simpl. rewrite !take_ge by lia. reflexivity.
    + intros i Hi. unfold body, f.
      destruct (lookup_lt_is_Some_2 prev_shape i) as [p Hp]; [lia|].
      destruct (lookup_lt_is_Some_2 out i) as [o Ho]; [lia|].
      rewrite (input_lookup _ _ _ Hp), bind_Ok.
      rewrite (load_written _ _ _ Ho), bind_Ok.
      rewrite (take_S_r _ _ _ Hp), (take_S_r _ _ _ Ho).
      destruct (decide (p ≠ o)) as [Hd|Hd].
      * rewrite (bool_decide_eq_false_2 (_ ++ [p] = _)); [reflexivity|].
        intros E. apply app_inj_tail in E. tauto.
      * assert (p = o) as -> by (destruct (decide (p = o)); tauto).
        f_equal. apply bool_decide_ext. split.
        -- intros ->. reflexivity.
        -- intros E. now apply app_inj_tail in E.
  - rewrite bool_decide_eq_false_2; [reflexivity|].
    intros ->. lia.
Qed.

(** Filling row [i] of a 2-D buffer column by column. *)
Lemma store2_prefix (b : list (list cell)) (i j : nat) (vals : list Z)
    (row0 : list cell) (v : Z) :
  i < length b → vals !! j = Some v → j < length row0 →
  length vals = length row0 →
  store2 (<[i := (Some <$> take j vals) ++ drop j row0]> b) i j v
  = Ok (<[i := (Some <$> take (S j) vals) ++ drop (S j) row0]> b).
Proof.
  intros Hi Hv Hj Hl.
  rewrite (store2_lookup _ _ _ ((Some <$> take j vals) ++ drop j row0)).
  - rewrite list_insert_insert_eq.
    rewrite (insert_prefix Some vals row0 j v Hv Hj). reflexivity.
  - now rewrite list_lookup_insert_eq.
  - rewrite prefix_length; lia.
Qed.

Lemma row_prefix_0 (b : list (list cell)) (i : nat) (vals : list Z)
    (row0 : list cell) :
  b !! i = Some row0 → <[i := (Some <$> take 0 vals) ++ drop 0 row0]> b = b.
Proof. intros H. simpl. now apply list_insert_id. Qed.

Lemma shape1_rows {A : Type} (b : list (list A)) (c i : nat) :
  Forall (λ row, length row = c) b → i < length b → shape1 b = c.
Proof.
  intros H Hi. destruct b as [|row b]; [simpl in Hi; lia|].
  simpl. now inversion H.
Qed.

Lemma copy_loop_ok (sparse_indices : list (list Z))
    (new_sparse_indices : list (list cell)) (c : nat) :
  Forall (λ row, length row = c) sparse_indices →
  Forall (λ row, length row = c) new_sparse_indices →
  length new_sparse_indices = length sparse_indices →
  copy_loop sparse_indices new_sparse_indices
  = Ok (written2 sparse_indices).
Proof.
  intros Hsi Hnsi Hlen. unfold copy_loop, for_range, shape0, written2.
  rewrite !Nat.sub_0_r.
  set (body := λ (i : nat) (b : list (list cell)), _).
  pose (f := λ i : nat,
          (written <$> take i sparse_indices) ++ drop i new_sparse_indices).
  change (for_loop body 0 (length sparse_indices) (f 0)
          = Ok (written <$> sparse_indices)).
  rewrite (for_loop_eq body f).
  - unfold f. simpl. now rewrite prefix_full.
  - intros i Hi. unfold body.
    rewrite (shape1_rows sparse_indices c i Hsi) by lia.
    destruct (lookup_lt_is_Some_2 sparse_indices i) as [row Hrow]; [lia|].
    destruct (lookup_lt_is_Some_2 new_sparse_indices i) as [row0 Hrow0]; [lia|].
    pose proof (Forall_lookup_1 _ _ _ _ Hsi Hrow) as Hrl.
    pose proof (Forall_lookup_1 _ _ _ _ Hnsi Hrow0) as Hr0l.
    cbv beta in Hrl, Hr0l.
    assert (Hfi : i < length (f i))
      by (unfold f; rewrite prefix_length; lia).
    set (inner := λ (j : nat) (b : list (list cell)), _).
    pose (g := λ j : nat,
            <[i := (Some <$> take j row) ++ drop j row0]> (f i)).
    assert (Hg0 : g 0 = f i).
    { unfold g. apply row_prefix_0. unfold f.
      rewrite prefix_lookup by lia. exact Hrow0. }
    rewrite <- Hg0. rewrite <- Hrl.
    rewrite (for_loop_eq inner g).
    + f_equal. unfold g. simpl. rewrite prefix_full by lia.
      unfold f. apply (insert_prefix written); [exact Hrow | lia].
    + intros j Hj. unfold inner.
      destruct (lookup_lt_is_Some_2 row j) as [v Hv]; [lia|].
      rewrite (input2_lookup _ _ _ _ _ Hrow Hv), bind_Ok.
      unfold g. apply store2_prefix; [exact Hfi | exact Hv | lia | lia].
Qed.

End ShortcutLoops.

(** ** Lines 150-174 *)

Section TranscoderLoops.

Variables (dt it : dtype).
Local Open Scope nat_scope.

Lemma dividers_loop_ok (out : list Z) :
  out ≠ [] →
  dividers_loop dt (length out) (written out) = Ok (written (strides dt out)).
Proof.
  intros Hne. unfold dividers_loop.
  set (n := length out).
  assert (Hn : 0 < n) by (unfold n; destruct out; [congruence | simpl; lia]).
  rewrite store_lt by (unfold allocate; rewrite length_replicate; lia).
  rewrite bind_Ok. unfold for_range. rewrite Nat.sub_0_r.
  set (body := λ (i_ : nat) (dividers : list cell), _).
  set (I := λ (k : nat) (ds : list cell),
         length ds = n
         ∧ ∀ j v, n - 1 - k <= j → strides dt out !! j = Some v →
                  ds !! j = Some (Some v)).
  destruct (for_loop_inv I body (n - 1) 0
              (<[n - 1 := Some (Cast dt 1)]> (allocate n)))
    as (ds & Hrun & Hlen & Hds).
  - unfold I. split.
    + rewrite length_insert. unfold allocate. now rewrite length_replicate.
    + intros j v Hj Hv.
      assert (j < n).
      { unfold n. rewrite <- (length_strides dt out).
        eapply lookup_lt_Some. exact Hv. }
      assert (j = n - 1) as -> by lia.
      rewrite list_lookup_insert_eq
        by (unfold allocate; rewrite length_replicate; lia).
      pose proof (strides_lookup_last dt out Hne) as Hl.
      fold n in Hl. congruence.
  - intros k ds Hk (Hlen & Hds). unfold body.
    assert (Hidx : n - (k + 1) < length out) by (fold n; lia).
    destruct (lookup_lt_is_Some_2 out _ Hidx) as [p Hp].
    assert (Hidx' : n - (k + 1) < length (strides dt out))
      by (rewrite length_strides; exact Hidx).
    destruct (lookup_lt_is_Some_2 _ _ Hidx') as [m Hm].
    rewrite (load_lookup ds _ m) by (apply Hds; [lia | exact Hm]).
    rewrite bind_Ok. rewrite (load_written _ _ _ Hp), bind_Ok.
    rewrite store_lt by lia.
    eexists; split; [reflexivity|]. unfold I. split.
    + now rewrite length_insert.
    + intros j v Hj Hv.
      destruct (decide (j = n - 1 - (k + 1))) as [->|Hne'].
      * rewrite list_lookup_insert_eq by lia.
        replace (n - (k + 1)) with (S (n - 1 - (k + 1))) in Hp, Hm by lia.
        pose proof (strides_lookup_step dt out _ p m Hp Hm) as Hs.
        unfold mul in *. rewrite (Z.mul_comm m p). congruence.
      * rewrite list_lookup_insert_ne by congruence.
        apply Hds; [lia | exact Hv].
  - rewrite Hrun. f_equal. apply written_eq.
    + now rewrite length_strides.
    + intros j v Hv. apply Hds; [lia | exact Hv].
Qed.

Lemma flatten_loop_ok (sparse_indices : list (list Z)) (multipliers : list Z)
    (c : nat) :
  (it <= dt)%positive →
  Forall (λ row, length row = c) sparse_indices →
  c <= length multipliers →
  flatten_loop dt it sparse_indices (written multipliers)
  = Ok (written (flatten_row dt multipliers <$> sparse_indices)).
Proof.
  intros Hw Hsi Hc. unfold flatten_loop.
  rewrite (build_flatten_ok _ _ Hw), bind_Ok. unfold for_range, shape0.
  rewrite !Nat.sub_0_r.
  set (N := length sparse_indices).
  set (flats := flatten_row dt multipliers <$> sparse_indices).
  assert (HN : length flats = N) by (unfold flats; now rewrite length_fmap).
  set (body := λ (i : nat) (b : list cell), _).
  pose (f := λ i : nat, (Some <$> take i flats) ++ drop i (allocate N)).
  change (for_loop body 0 N (f 0) = Ok (written flats)).
  rewrite (for_loop_eq body f).
  - unfold f, written. simpl. rewrite <- HN at 1 2.
    rewrite prefix_full; [reflexivity|].
    unfold allocate. now rewrite length_replicate.
  - intros i Hi. unfold body.
    assert (Hfi : i < length (f i)).
    { unfold f. rewrite prefix_length; unfold allocate;
        rewrite ?length_replicate; lia. }
    rewrite store_lt by exact Hfi. rewrite bind_Ok.
    rewrite (shape1_rows sparse_indices c i Hsi) by (fold N; lia).
    destruct (lookup_lt_is_Some_2 sparse_indices i) as [row Hrow];
      [fold N; lia|].
    pose proof (Forall_lookup_1 _ _ _ _ Hsi Hrow) as Hrl. cbv beta in Hrl.
    set (step := λ (a : Z) (xm : Z * Z), add dt a (mul dt xm.1 xm.2)).
    set (inner := λ (j : nat) (b : list cell), _).
    pose (g := λ j : nat,
            <[i := Some (fold_left step (take j (zip row multipliers))
                           (Cast dt 0))]> (f i)).
    change (for_loop inner 0 c (g 0) = Ok (f (S i))).
    rewrite (for_loop_eq inner g).
    + unfold g. simpl. rewrite take_ge by (rewrite length_zip; lia).
      unfold f. f_equal.
      apply (insert_prefix Some flats (allocate N) i
               (flatten_row dt multipliers row)).
      * unfold flats. rewrite list_lookup_fmap, Hrow. reflexivity.
      * unfold allocate. rewrite length_replicate. lia.
    + intros j Hj. unfold inner.
      destruct (lookup_lt_is_Some_2 row j) as [x Hx]; [lia|].
      destruct (lookup_lt_is_Some_2 multipliers j) as [m Hm]; [lia|].
      unfold g.
      rewrite (load_lookup _ i _ (list_lookup_insert_eq _ _ _ Hfi)), bind_Ok.
      rewrite (input2_lookup _ _ _ _ _ Hrow Hx), bind_Ok.
      rewrite (load_written _ _ _ Hm), bind_Ok.
      rewrite store_lt by (now rewrite length_insert).
      rewrite list_insert_insert_eq.
      assert (Hz : zip row multipliers !! j = Some (x, m)).
      { apply lookup_zip_with_Some. eauto. }
      rewrite (take_S_r _ _ _ Hz), fold_left_app. reflexivity.
Qed.

Lemma division_chain_lookup (dividers : list Z) (cur : Z) (j : nat) :
  division_chain dt dividers cur !! j
  = (λ d, wrap dt (fold_left (λ r d, wrap dt (r mod d)) (take j dividers) cur
                   / d)%Z)
    <$> dividers !! j.
Proof.
  revert cur j. induction dividers as [|d ds IH]; intros cur j.
  - reflexivity.
  - destruct j as [|j]; [reflexivity|]. simpl. apply IH.
Qed.

Lemma length_division_chain (dividers : list Z) (cur : Z) :
  length (division_chain dt dividers cur) = length dividers.
Proof.
  revert cur. induction dividers as [|d ds IH]; intros cur; simpl;
    [reflexivity | now rewrite IH].
Qed.

Lemma unflatten_loop_ok (flat dividers : list Z)
    (new_sparse_indices : list (list cell)) :
  length new_sparse_indices = length flat →
  Forall (λ row, length row = length dividers) new_sparse_indices →
  (flat = [] ∨ Forall (λ d, d ≠ 0%Z ∧ d ≠ (-1)%Z) dividers) →
  unflatten_loop dt it (written flat) (written dividers) new_sparse_indices
  = Ok (written2 (unflatten_row dt it dividers <$> flat)).
Proof.
  intros Hlen Hrows Hnz'. unfold unflatten_loop, for_range, shape0.
  rewrite !Nat.sub_0_r.
  set (m := length dividers) in *.
  set (outs := unflatten_row dt it dividers <$> flat).
  assert (HN : length outs = length new_sparse_indices)
    by (unfold outs; rewrite length_fmap; lia).
  set (body := λ (i : nat) (b : list (list cell)), _).
  pose (f := λ i : nat,
          (written <$> take i outs) ++ drop i new_sparse_indices).
  change (for_loop body 0 (length new_sparse_indices) (f 0)
          = Ok (written2 outs)).
  rewrite (for_loop_eq body f).
  - unfold f, written2. simpl. rewrite <- HN at 1 2.
    now rewrite prefix_full.
  - intros i Hi. unfold body.
    destruct (lookup_lt_is_Some_2 flat i) as [cur Hcur]; [lia|].
    assert (Hnz : Forall (λ d, d ≠ 0%Z ∧ d ≠ (-1)%Z) dividers).
    { destruct Hnz' as [->|Hnz]; [|exact Hnz].
      rewrite lookup_nil in Hcur. discriminate. }
    destruct (lookup_lt_is_Some_2 new_sparse_indices i) as [row0 Hrow0];
      [lia|].
    pose proof (Forall_lookup_1 _ _ _ _ Hrows Hrow0) as Hr0l.
    cbv beta in Hr0l.
    rewrite (load_written _ _ _ Hcur), bind_Ok.
    assert (Hfi : i < length (f i))
      by (unfold f; rewrite prefix_length; lia).
    assert (Hfrows : Forall (λ row : list cell, length row = m) (f i)).
    { unfold f. apply Forall_app. split.
      - apply Forall_fmap, Forall_take. unfold outs.
        apply Forall_fmap, Forall_forall. intros x _. simpl.
        unfold written, unflatten_row.
        now rewrite !length_fmap, length_division_chain.
      - now apply Forall_drop. }
    rewrite (shape1_rows (f i) m i Hfrows Hfi).
    set (outrow := unflatten_row dt it dividers cur).
    assert (Horl : length outrow = m).
    { unfold outrow, unflatten_row.
      now rewrite length_fmap, length_division_chain. }
    set (rstep := λ (r d : Z), wrap dt (r mod d)%Z).
    set (inner := λ (j : nat) '(b, current_element), _).
    pose (g := λ j : nat,
            (<[i := (Some <$> take j outrow) ++ drop j row0]> (f i),
             fold_left rstep (take j dividers) cur)).
    assert (Hg0 : g 0 = (f i, cur)).
    { unfold g. f_equal. apply row_prefix_0. unfold f.
      rewrite prefix_lookup by lia. exact Hrow0. }
    rewrite <- Hg0. rewrite (for_loop_eq inner g).
    + rewrite bind_Ok. unfold g. f_equal. simpl. rewrite Nat.sub_0_r.
      rewrite <- Horl. rewrite prefix_full by lia.
      unfold f. apply (insert_prefix written); [|lia].
      unfold outs. rewrite list_lookup_fmap, Hcur. reflexivity.
    + intros j Hj. unfold inner, g.
      destruct (lookup_lt_is_Some_2 dividers j) as [d Hd]; [fold m; lia|].
      pose proof (Forall_lookup_1 _ _ _ _ Hnz Hd) as Hd0. cbv beta in Hd0.
      rewrite (load_written _ _ _ Hd), bind_Ok.
      assert (Hdef : ∀ a, division_defined dt a d)
        by (intros a; apply division_defined_divisor; tauto).
      rewrite (floordiv_defined _ _ _ (Hdef _)), bind_Ok.
      rewrite (store2_prefix (f i) i j outrow row0).
      * rewrite !bind_Ok.
        rewrite (floormod_defined _ _ _ (Hdef _)), bind_Ok.
        f_equal. f_equal.
        rewrite (take_S_r _ _ _ Hd), fold_left_app. reflexivity.
      * exact Hfi.
      * unfold outrow, unflatten_row.
        rewrite list_lookup_fmap, division_chain_lookup, Hd. reflexivity.
      * lia.
      * lia.
Qed.

End TranscoderLoops.

(** ** The kernel as a function of its inputs *)

Section KernelFunction.

Variables (dt it : dtype).
Local Open Scope nat_scope.

Lemma length_resolved_shape (prev_shape new_shape : list Z) :
  length (resolved_shape dt prev_shape new_shape) = length new_shape.
Proof. unfold resolved_shape. apply length_fmap. Qed.

Lemma shape_resolver_ok (prev_shape new_shape : list Z) (out : list cell) :
  prev_shape ≠ [] → length out = length new_shape →
  (division_defined dt (total_elements dt prev_shape)
     (division_total dt new_shape) ∨ (-1)%Z ∉ new_shape) →
  shape_resolver dt prev_shape new_shape out
  = Ok (written (strides dt prev_shape),
        written (resolved_shape dt prev_shape new_shape)).
Proof.
  intros Hne Hlen Hk. unfold shape_resolver.
  rewrite multipliers_loop_ok by exact Hne. rewrite bind_Ok.
  rewrite division_total_loop_ok, bind_Ok.
  rewrite out_new_shape_loop_ok by assumption. reflexivity.
Qed.

Lemma shape_resolver_fault (prev_shape new_shape : list Z) (out : list cell)
    (f : fault) :
  prev_shape ≠ [] → length out = length new_shape →
  div dt (total_elements dt prev_shape) (division_total dt new_shape)
  = Fault f →
  (-1)%Z ∈ new_shape →
  shape_resolver dt prev_shape new_shape out = Fault f.
Proof.
  intros Hne Hlen Hk Hin. unfold shape_resolver.
  rewrite multipliers_loop_ok by exact Hne. rewrite bind_Ok.
  rewrite division_total_loop_ok, bind_Ok.
  rewrite (out_new_shape_loop_fault dt _ _ _ _ f) by assumption.
  reflexivity.
Qed.

Lemma transcoder_ok (sparse_indices : list (list Z))
    (multipliers out : list Z) (new_sparse_indices : list (list cell)) :
  (it <= dt)%positive →
  out ≠ [] →
  Forall (λ row, length row = length multipliers) sparse_indices →
  length new_sparse_indices = length sparse_indices →
  Forall (λ row, length row = length out) new_sparse_indices →
  (sparse_indices = []
   ∨ Forall (λ d, d ≠ 0%Z ∧ d ≠ (-1)%Z) (strides dt out)) →
  transcoder dt it sparse_indices (length out) (written multipliers)
    (written out) new_sparse_indices
  = Ok (written2
          ((λ row, unflatten_row dt it (strides dt out)
                     (flatten_row dt multipliers row)) <$> sparse_indices)).
Proof.
  intros Hw Hne Hsi Hlen Hrows Hnz. unfold transcoder.
  rewrite (build_flatten_ok _ _ Hw), bind_Ok.
  rewrite dividers_loop_ok by exact Hne. rewrite bind_Ok.
  rewrite (flatten_loop_ok dt it sparse_indices multipliers
             (length multipliers)) by (auto; lia).
  rewrite bind_Ok.
  rewrite unflatten_loop_ok.
  - now rewrite <- list_fmap_compose.
  - now rewrite length_fmap.
  - now rewrite length_strides.
  - destruct Hnz as [->|Hnz]; [left; reflexivity | right; exact Hnz].
Qed.

Lemma decl_buffer_rows (N m : nat) :
  length (decl_buffer (N, m)) = N
  ∧ Forall (λ row : list cell, length row = m) (decl_buffer (N, m)).
Proof.
  unfold decl_buffer, allocate. simpl. split.
  - apply length_replicate.
  - apply Forall_replicate. apply length_replicate.
Qed.

(** Whenever the kernel can be built, every division is defined and the
    buffers have the shapes the operator declares, the kernel returns
    [reshaped_indices] and [resolved_shape].  The coordinates themselves
    are arbitrary. *)
Lemma sparse_reshape_ok (sparse_indices : list (list Z))
    (prev_shape new_shape : list Z) :
  (it <= dt)%positive →
  prev_shape ≠ [] → new_shape ≠ [] →
  Forall (λ row, length row = length prev_shape) sparse_indices →
  (division_defined dt (total_elements dt prev_shape)
     (division_total dt new_shape) ∨ (-1)%Z ∉ new_shape) →
  (prev_shape = resolved_shape dt prev_shape new_shape
   ∨ sparse_indices = []
   ∨ Forall (λ d, d ≠ 0%Z ∧ d ≠ (-1)%Z)
       (strides dt (resolved_shape dt prev_shape new_shape))) →
  sparse_reshape dt it sparse_indices prev_shape new_shape
    (length sparse_indices, length new_shape) (length new_shape)
  = Ok (written2 (reshaped_indices dt it sparse_indices prev_shape new_shape),
        written (resolved_shape dt prev_shape new_shape)).
Proof.
  intros Hw Hp Hn Hsi Hk Hd. unfold sparse_reshape, gen_ir.
  rewrite (build_flatten_ok _ _ Hw), bind_Ok.
  destruct (decl_buffer_rows (length sparse_indices) (length new_shape))
    as [HbN Hbm].
  rewrite shape_resolver_ok;
    [| exact Hp | unfold allocate; apply length_replicate | exact Hk].
  rewrite bind_Ok.
  rewrite equal_shape_check_ok by apply length_resolved_shape.
  rewrite bind_Ok. unfold reshaped_indices.
  set (out := resolved_shape dt prev_shape new_shape) in *.
  destruct (decide (prev_shape = out)) as [Heq|Hneq].
  - rewrite bool_decide_eq_true_2 by exact Heq.
    rewrite (copy_loop_ok _ _ (length prev_shape)); [reflexivity | exact Hsi | | exact HbN].
    pose proof (f_equal length Heq) as Hl. unfold out in Hl.
    rewrite length_resolved_shape in Hl. rewrite Hl. exact Hbm.
  - rewrite bool_decide_eq_false_2 by exact Hneq.
    destruct Hd as [Hd|Hd]; [contradiction|].
    rewrite <- (length_resolved_shape prev_shape new_shape) at 1.
    fold out. rewrite transcoder_ok.
    + reflexivity.
    + exact Hw.
    + unfold out, resolved_shape. destruct new_shape; [congruence | discriminate].
    + now rewrite length_strides.
    + exact HbN.
    + unfold out. now rewrite length_resolved_shape.
    + exact Hd.
Qed.

End KernelFunction.

(** ** Exact arithmetic: when nothing wraps *)

Section Exact.

Variable dt : dtype.

Lemma product_pos (shape : list Z) :
Forall (λ s, 0 < s) shape → 0 < product shape.
Proof.
induction 1 as [|s rest Hs _ IH]; simpl; [lia | nia].
Qed.

Lemma wrap_small (x : Z) : 0 <= x < half dt → wrap dt x = x.
Proof. intros H. apply wrap_id. unfold in_range. lia. Qed.

Lemma strides_exact (s : Z) (rest : list Z) :
Forall (λ s, 0 < s) rest → product rest < half dt →
strides dt (s :: rest) = exact_strides (s :: rest).
Proof.
revert s. induction rest as [|p r IH]; intros s Hpos Hlt.
- simpl in *. unfold Cast. rewrite wrap_small by lia. reflexivity.
- inversion Hpos as [|? ? Hp Hr]; subst.
  pose proof (product_pos r Hr) as Hr0.
  assert (Hr1 : product r < half dt) by (simpl in Hlt; nia).
  specialize (IH p Hr Hr1).
  change (strides dt (s :: p :: r))
    with (match strides dt (p :: r) with
          | m :: _ => mul dt p m
          | [] => Cast dt 1
          end :: strides dt (p :: r)).
  rewrite IH. simpl. unfold mul. rewrite wrap_small by (simpl in Hlt; nia).
  reflexivity.
Qed.

Lemma strides_exact_all (shape : list Z) :
Forall (λ s, 0 < s) shape → product shape < half dt →
strides dt shape = exact_strides shape.
Proof.
intros Hpos Hlt. destruct shape as [|s rest]; [reflexivity|].
inversion Hpos as [|? ? Hs Hr]; subst.
apply strides_exact; [exact Hr|].
pose proof (product_pos rest Hr). simpl in Hlt. nia.
Qed.

Lemma total_elements_exact (prev_shape : list Z) :
prev_shape ≠ [] → Forall (λ s, 0 < s) prev_shape →
product prev_shape < half dt →
total_elements dt prev_shape = product prev_shape.
Proof.
intros Hne Hpos Hlt. destruct prev_shape as [|p0 ps]; [congruence|].
inversion Hpos as [|? ? Hp0 Hps]; subst. simpl in *.
clear Hne Hpos. revert Hlt.
induction Hps as [|a ps Ha Hps IH]; intros Hlt; simpl in *.
- lia.
- pose proof (product_pos ps Hps) as Hps0.
  rewrite IH by nia. unfold mul. rewrite wrap_small by nia. lia.
Qed.

Lemma known_product_cons (e : Z) (l : list Z) :
known_product (e :: l)
= if decide (e = sentinel) then known_product l else e * known_product l.
Proof.
unfold known_product. destruct (decide (e = sentinel)) as [He|He].
- rewrite filter_cons_False by tauto. reflexivity.
- rewrite filter_cons_True by exact He. reflexivity.
Qed.

Lemma division_total_wrap (new_shape : list Z) :
division_total dt new_shape = wrap dt (known_product new_shape).
Proof.
unfold division_total, Cast.
rewrite <- (Z.mul_1_l (known_product new_shape)).
generalize 1 as acc. induction new_shape as [|e l IH]; intros acc.
- simpl. unfold known_product. simpl. f_equal. lia.
- cbn [fold_left]. rewrite known_product_cons. unfold sentinel.
  destruct (decide (e = -1)) as [He|He].
  + rewrite decide_False by tauto. apply IH.
  + rewrite decide_True by exact He. unfold mul. rewrite wrap_mul_l.
    rewrite IH. f_equal. lia.
Qed.

Lemma quot_exact (a b : Z) : b ≠ 0 → (b | a) → Z.quot a b = a / b.
Proof.
intros Hb [c ->]. rewrite Z.quot_mul by exact Hb.
rewrite Z.div_mul by exact Hb. reflexivity.
Qed.

Lemma divide_pos_bounds (a b : Z) :
0 < a → (b | a) → b ≠ 0 ∧ - a <= b <= a ∧ - a <= a / b <= a.
Proof.
intros Ha [c Hc].
assert (b ≠ 0) by (intros ->; rewrite Z.mul_0_r in Hc; lia).
assert (c ≠ 0) by (intros ->; rewrite Z.mul_0_l in Hc; lia).
split; [assumption|].
rewrite Hc, Z.div_mul by assumption.
assert (0 < b ∧ 0 < c ∨ b < 0 ∧ c < 0) as [[? ?]|[? ?]] by nia; nia.
Qed.

Lemma resolved_shape_exact (prev_shape new_shape : list Z) :
prev_shape ≠ [] → Forall (λ s, 0 < s) prev_shape →
product prev_shape < half dt →
(sentinel ∈ new_shape → (known_product new_shape | product prev_shape)) →
resolved_shape dt prev_shape new_shape
= substitute_sentinel (product prev_shape) (known_product new_shape)
    new_shape.
Proof.
intros Hne Hpos Hlt Hdiv. unfold resolved_shape, substitute_sentinel.
apply list_fmap_ext. intros i e He. unfold sentinel in *.
destruct (decide (e = -1)) as [->|Hn]; [|reflexivity].
assert (Hin : -1 ∈ new_shape) by (eapply list_elem_of_lookup_2; exact He).
pose proof (product_pos _ Hpos) as HP.
destruct (divide_pos_bounds _ _ HP (Hdiv Hin)) as (Hk0 & Hk & Hq).
rewrite (total_elements_exact _ Hne Hpos Hlt), division_total_wrap.
rewrite (wrap_id dt (known_product new_shape)) by (unfold in_range; lia).
rewrite quot_exact by auto. unfold Cast.
rewrite !wrap_id; [reflexivity | | ]; unfold in_range; try lia.
rewrite wrap_id; unfold in_range; lia.
Qed.

Lemma resolved_shape_no_sentinel (prev_shape new_shape : list Z) :
sentinel ∉ new_shape → resolved_shape dt prev_shape new_shape = new_shape.
Proof.
intros Hno. unfold resolved_shape.
rewrite <- (list_fmap_id new_shape) at 2.
apply list_fmap_ext. intros i e He. unfold sentinel in *.
destruct (decide (e = -1)) as [->|Hn]; [|reflexivity].
exfalso. apply Hno. eapply list_elem_of_lookup_2. exact He.
Qed.

End Exact.

(** ** Linear offsets and their coordinates *)

Section Offsets.

Variables (dt it : dtype).

Lemma in_bounds_pos (shape row : list Z) :
in_bounds shape row → Forall (λ s, 0 < s) shape.
Proof.
unfold in_bounds. induction 1 as [|x s row shape Hx _ IH];
  constructor; [lia | exact IH].
Qed.

Lemma in_bounds_length (shape row : list Z) :
in_bounds shape row → length row = length shape.
Proof. unfold in_bounds. apply Forall2_length. Qed.

Lemma linear_offset_bounds (shape row : list Z) :
in_bounds shape row → 0 <= linear_offset shape row < product shape.
Proof.
unfold in_bounds. induction 1 as [|x s row shape Hx Hrest IH]; simpl.
- lia.
- pose proof (product_pos shape (in_bounds_pos _ _ Hrest)). nia.
Qed.

Lemma flatten_row_exact (shape row : list Z) :
in_bounds shape row → product shape < half dt →
flatten_row dt (exact_strides shape) row = linear_offset shape row.
Proof.
intros Hb Hlt. unfold flatten_row, Cast.
rewrite (wrap_small dt 0) by (pose proof (half_pos dt); lia).
pose proof (linear_offset_bounds _ _ Hb) as Hoff.
assert (G : ∀ acc, 0 <= acc → acc + linear_offset shape row < half dt →
            fold_left (λ f xm, add dt f (mul dt xm.1 xm.2))
              (zip row (exact_strides shape)) acc
            = acc + linear_offset shape row).
{ clear Hlt Hoff. unfold in_bounds in Hb.
  induction Hb as [|x s row shape Hx Hrest IH]; intros acc Hacc Hsum.
  - simpl. lia.
  - pose proof (product_pos shape (in_bounds_pos _ _ Hrest)) as HP.
    pose proof (linear_offset_bounds _ _ Hrest) as Hl.
    simpl in Hsum. simpl. unfold add at 2, mul at 2.
    rewrite (wrap_small dt (x * product shape)) by nia.
    rewrite (wrap_small dt (acc + x * product shape)) by nia.
    rewrite IH by nia. lia. }
rewrite G by lia. lia.
Qed.

Lemma weighted_sum_exact (shape row : list Z) :
weighted_sum (exact_strides shape) row = linear_offset shape row.
Proof.
revert row. induction shape as [|s rest IH]; intros [|x xs]; simpl;
  try reflexivity.
now rewrite IH.
Qed.

(** Whatever the coordinates and the table are, [flattened_indices] holds
  the weighted sum, reduced to the dtype of the table. *)
Lemma flatten_row_wrap (multipliers row : list Z) :
flatten_row dt multipliers row = wrap dt (weighted_sum multipliers row).
Proof.
unfold flatten_row, Cast.
assert (G : ∀ acc, in_range dt acc →
            fold_left (λ f xm, add dt f (mul dt xm.1 xm.2))
              (zip row multipliers) acc
            = wrap dt (acc + weighted_sum multipliers row)).
{ revert multipliers. induction row as [|x xs IH]; intros ms acc Hacc.
  - destruct ms; simpl; now rewrite Z.add_0_r, wrap_id.
  - destruct ms as [|m ms]; simpl; [now rewrite Z.add_0_r, wrap_id|].
    rewrite IH by apply wrap_in_range.
    unfold add, mul. rewrite wrap_add_l.
    replace (acc + wrap dt (x * m) + weighted_sum ms xs)
      with (acc + weighted_sum ms xs + wrap dt (x * m)) by lia.
    rewrite wrap_add_r. f_equal. lia. }
rewrite G by apply wrap_in_range.
now rewrite wrap_add_l.
Qed.

Lemma division_chain_exact (shape : list Z) (offset : Z) :
Forall (λ s, 0 < s) shape → 0 <= offset < half dt →
division_chain dt (exact_strides shape) offset = unflatten shape offset.
Proof.
intros Hpos. revert offset.
induction Hpos as [|s rest Hs Hrest IH]; intros offset Hoff.
- reflexivity.
- pose proof (product_pos rest Hrest) as HP. simpl.
  pose proof (Z.div_pos offset (product rest)).
  pose proof (Z.mod_pos_bound offset (product rest) HP).
  assert (offset / product rest <= offset)
    by (apply Z.div_le_upper_bound; nia).
  assert (offset mod product rest <= offset)
    by (apply Z.mod_le; lia).
  rewrite !wrap_small by lia. rewrite IH by lia. reflexivity.
Qed.

(** The coordinates of an offset weigh up to that offset again, whatever
  the offset. *)
Lemma linear_offset_unflatten (shape : list Z) (offset : Z) :
shape ≠ [] → linear_offset shape (unflatten shape offset) = offset.
Proof.
intros Hne. revert offset.
induction shape as [|s rest IH]; intros offset; [congruence|].
destruct rest as [|p r].
- simpl. rewrite Z.div_1_r. lia.
- change (offset / product (p :: r) * product (p :: r)
          + linear_offset (p :: r)
              (unflatten (p :: r) (offset mod product (p :: r))) = offset).
  rewrite IH by congruence.
  pose proof (Z_div_mod_eq_full offset (product (p :: r))). lia.
Qed.

Lemma unflatten_linear_offset (shape row : list Z) :
in_bounds shape row → unflatten shape (linear_offset shape row) = row.
Proof.
unfold in_bounds. induction 1 as [|x s row shape Hx Hrest IH].
- reflexivity.
- pose proof (linear_offset_bounds _ _ Hrest) as Hl. simpl.
  rewrite Z.div_add_l by lia. rewrite Z.div_small by lia.
  rewrite (Z.add_comm (x * product shape)), Z.mod_add by lia.
  rewrite Z.mod_small by lia.
  rewrite IH. f_equal. lia.
Qed.

Lemma unflatten_in_bounds (shape : list Z) (offset : Z) :
Forall (λ s, 0 < s) shape → 0 <= offset < product shape →
in_bounds shape (unflatten shape offset).
Proof.
intros Hpos. revert offset. unfold in_bounds.
induction Hpos as [|s rest Hs Hrest IH]; intros offset Hoff; simpl.
- constructor.
- pose proof (product_pos rest Hrest) as HP. simpl in Hoff.
  constructor.
  + split; [apply Z.div_pos; lia|].
    apply Z.div_lt_upper_bound; [lia | nia].
  + apply IH. apply Z.mod_pos_bound. lia.
Qed.

Lemma Cast_id_all (row : list Z) :
Forall (in_range it) row → Cast it <$> row = row.
Proof.
intros H. rewrite <- (list_fmap_id row) at 2.
apply list_fmap_ext. intros i x Hx. unfold Cast. apply wrap_id.
exact (Forall_lookup_1 _ _ _ _ H Hx).
Qed.

(** One row on the general path, when neither table wraps. *)
Lemma transcode_row_exact (prev_shape out_shape row : list Z) :
in_bounds prev_shape row → product prev_shape < half dt →
Forall (λ s, 0 < s) out_shape → product out_shape < half dt →
transcode_row dt it prev_shape out_shape row
= Cast it <$> unflatten out_shape (linear_offset prev_shape row).
Proof.
intros Hb Hlt Hpos Hlt'. unfold transcode_row, unflatten_row.
rewrite (strides_exact_all dt prev_shape (in_bounds_pos _ _ Hb) Hlt).
rewrite (strides_exact_all dt out_shape Hpos Hlt').
rewrite (flatten_row_exact _ _ Hb Hlt).
pose proof (linear_offset_bounds _ _ Hb).
rewrite division_chain_exact by (auto; lia). reflexivity.
Qed.

Lemma exact_strides_pos (shape : list Z) :
Forall (λ s, 0 < s) shape →
Forall (λ d, d ≠ 0 ∧ d ≠ -1) (exact_strides shape).
Proof.
induction 1 as [|s rest Hs Hrest IH]; simpl; constructor; [|exact IH].
pose proof (product_pos rest Hrest). lia.
Qed.

End Offsets.

(** ** Valid shapes *)

Section ValidShapes.

Variables (dt it : dtype).

Lemma sentinels_cons (e : Z) (l : list Z) :
sentinels (e :: l)
= if decide (e = sentinel) then S (sentinels l) else sentinels l.
Proof.
unfold sentinels. destruct (decide (e = sentinel)) as [He|He].
- rewrite filter_cons_True by exact He. reflexivity.
- rewrite filter_cons_False by exact He. reflexivity.
Qed.

Lemma sentinels_0 (l : list Z) : sentinels l = 0%nat → sentinel ∉ l.
Proof.
induction l as [|e l IH]; intros H.
- apply not_elem_of_nil.
- rewrite sentinels_cons in H.
  destruct (decide (e = sentinel)) as [He|He]; [discriminate|].
  apply not_elem_of_cons. split; [congruence | auto].
Qed.

Lemma known_product_pos (new_shape : list Z) :
Forall (λ e, e = sentinel ∨ 0 < e) new_shape → 0 < known_product new_shape.
Proof.
induction 1 as [|e l He _ IH].
- unfold known_product. simpl. lia.
- rewrite known_product_cons.
  destruct (decide (e = sentinel)); [exact IH | nia].
Qed.

Lemma product_substitute (total known : Z) (new_shape : list Z) :
(sentinels new_shape <= 1)%nat →
product (substitute_sentinel total known new_shape)
= if decide (sentinel ∈ new_shape)
  then total / known * known_product new_shape
  else known_product new_shape.
Proof.
unfold substitute_sentinel.
induction new_shape as [|e l IH]; intros Hs.
- rewrite decide_False by apply not_elem_of_nil. reflexivity.
- rewrite sentinels_cons in Hs. rewrite known_product_cons.
  rewrite fmap_cons. cbn [product].
  destruct (decide (e = sentinel)) as [He|He].
  + assert (Hno : sentinel ∉ l) by (apply sentinels_0; lia).
    rewrite IH by lia. rewrite decide_False by exact Hno.
    rewrite decide_True by (subst e; apply list_elem_of_here).
    reflexivity.
  + rewrite IH by exact Hs.
    destruct (decide (sentinel ∈ l)) as [Hin|Hin].
    * rewrite decide_True by (now apply list_elem_of_further). lia.
    * rewrite decide_False; [reflexivity|].
      intros Hc. apply elem_of_cons in Hc. destruct Hc; congruence.
Qed.

Lemma product_substitute_total (total : Z) (new_shape : list Z) :
(sentinels new_shape = 1)%nat →
(known_product new_shape | total) → known_product new_shape ≠ 0 →
product (substitute_sentinel total (known_product new_shape) new_shape)
= total.
Proof.
intros Hs [c Hc] Hk. rewrite product_substitute by lia.
rewrite decide_True.
- rewrite Hc, Z.div_mul by exact Hk. reflexivity.
- destruct (decide (sentinel ∈ new_shape)) as [Hin|Hin]; [exact Hin|].
  exfalso. clear Hc Hk. induction new_shape as [|e l IH].
  + discriminate.
  + rewrite sentinels_cons in Hs. apply not_elem_of_cons in Hin.
    destruct Hin as [Hne Hin].
    rewrite decide_False in Hs by congruence. auto.
Qed.

Lemma substitute_pos (total : Z) (new_shape : list Z) :
0 < total →
Forall (λ e, e = sentinel ∨ 0 < e) new_shape →
(sentinel ∈ new_shape → (known_product new_shape | total)) →
Forall (λ s, 0 < s)
  (substitute_sentinel total (known_product new_shape) new_shape).
Proof.
intros Ht Hpos Hdiv. unfold substitute_sentinel.
pose proof (known_product_pos _ Hpos) as Hk.
apply Forall_fmap, Forall_forall. intros e He. simpl.
destruct (decide (e = sentinel)) as [->|Hne].
- destruct (Hdiv He) as [c Hc]. rewrite Hc, Z.div_mul by lia. nia.
- rewrite Forall_forall in Hpos. destruct (Hpos e He); [contradiction | assumption].
Qed.

Lemma length_substitute (total known : Z) (new_shape : list Z) :
length (substitute_sentinel total known new_shape) = length new_shape.
Proof. unfold substitute_sentinel. apply length_fmap. Qed.

(** The product of the resolved shape is bounded by what the caller
  supplied: the element count when a sentinel is inferred, the product
  of [new_shape] otherwise. *)
Lemma product_substitute_lt (prev_shape new_shape : list Z) (bound : Z) :
Forall (λ s, 0 < s) prev_shape →
Forall (λ e, e = sentinel ∨ 0 < e) new_shape →
(sentinels new_shape <= 1)%nat →
(sentinel ∈ new_shape → (known_product new_shape | product prev_shape)) →
product prev_shape < bound → known_product new_shape < bound →
product (substitute_sentinel (product prev_shape)
           (known_product new_shape) new_shape) < bound.
Proof.
intros Hpos Hnpos Hs Hdiv HP HK.
pose proof (known_product_pos _ Hnpos) as Hk.
rewrite product_substitute by exact Hs.
destruct (decide (sentinel ∈ new_shape)) as [Hin|Hin]; [|exact HK].
destruct (Hdiv Hin) as [c Hc]. rewrite Hc at 1.
rewrite Z.div_mul by lia. lia.
Qed.

(** On valid shapes the kernel returns; the coordinates are arbitrary. *)
Lemma sparse_reshape_valid (sparse_indices : list (list Z))
  (prev_shape new_shape : list Z) :
(it <= dt)%positive →
prev_shape ≠ [] → new_shape ≠ [] →
Forall (λ s, 0 < s) prev_shape →
Forall (λ e, e = sentinel ∨ 0 < e) new_shape →
(sentinels new_shape <= 1)%nat →
(sentinel ∈ new_shape → (known_product new_shape | product prev_shape)) →
product prev_shape < half dt → known_product new_shape < half dt →
Forall (λ row, length row = length prev_shape) sparse_indices →
let out_shape :=
  substitute_sentinel (product prev_shape) (known_product new_shape)
    new_shape in
sparse_reshape dt it sparse_indices prev_shape new_shape
  (length sparse_indices, length new_shape) (length new_shape)
= Ok (written2
        (if decide (prev_shape = out_shape) then sparse_indices
         else transcode_row dt it prev_shape out_shape <$> sparse_indices),
      written out_shape).
Proof.
intros Hw Hp Hn Hpos Hnpos Hs Hdiv HP HK Hrows out_shape.
pose proof (known_product_pos _ Hnpos) as Hk.
pose proof (product_pos _ Hpos) as Ht.
assert (HR : resolved_shape dt prev_shape new_shape = out_shape)
  by (apply resolved_shape_exact; assumption).
assert (HRpos : Forall (λ s, 0 < s) out_shape)
  by (apply substitute_pos; assumption).
assert (HRlt : product out_shape < half dt)
  by (apply product_substitute_lt; assumption).
rewrite sparse_reshape_ok; try assumption.
- unfold reshaped_indices. rewrite HR. reflexivity.
- left. apply division_defined_pos.
  rewrite division_total_wrap, wrap_small by lia. lia.
- right. right. rewrite HR.
  rewrite (strides_exact_all dt out_shape HRpos HRlt).
  now apply exact_strides_pos.
Qed.

End ValidShapes.

(** ** The claims *)

(** Every successful run of [gen_ir] returns the shape the resolver wrote. *)
Lemma gen_ir_out_shape (dt it : dtype) (sparse_indices : list (list Z))
    (prev_shape new_shape : list Z) (new_sparse_indices : list (list cell))
    (out_new_shape : list cell) (r : list (list cell) * list cell) :
  gen_ir dt it sparse_indices prev_shape new_shape new_sparse_indices
    out_new_shape = Ok r →
  ∃ multipliers,
    shape_resolver dt prev_shape new_shape out_new_shape
    = Ok (multipliers, r.2).
Proof.
  unfold gen_ir.
  destruct (build_flatten dt it) as [[]|f]; [|discriminate].
  rewrite bind_Ok.
  destruct (shape_resolver dt prev_shape new_shape out_new_shape)
    as [[ms out]|f]; [|discriminate].
  rewrite bind_Ok.
  destruct (equal_shape_check prev_shape new_shape out) as [eq|f];
    [|discriminate].
  rewrite bind_Ok.
  destruct (if eq then _ else _) as [nsi|f]; [|discriminate].
  rewrite bind_Ok. intros [= <-]. exists ms. reflexivity.
Qed.

(** C1, as stated, fails: with 8-bit coordinates and 32-bit shapes the
    row [1;99] of shape [2;100] has offset 199, which the kernel narrows
    to -57 when it stores it as the single coordinate under [200].  All
    the preconditions the claim lists hold. *)
Lemma order_preservation_counterexample :
  let prev_shape := [2; 100] in
  let new_shape := [200] in
  let sparse_indices := [[1; 99]] in
  Forall (λ s, 0 < s) prev_shape
  ∧ (sentinels new_shape <= 1)%nat
  ∧ (sentinel ∉ new_shape)
  ∧ Forall (in_bounds prev_shape) sparse_indices
  ∧ product prev_shape < half int32
  ∧ known_product new_shape < half int32
  ∧ sparse_reshape int32 int8 sparse_indices prev_shape new_shape (1, 1)%nat 1
    = Ok (written2 [[-57]], written [200])
  ∧ ¬ order_preserved int32 int8 sparse_indices prev_shape new_shape.
Proof.
  cbv zeta. split_and!.
  - repeat constructor; lia.
  - vm_compute. lia.
  - intros H. apply list_elem_of_singleton in H. discriminate.
  - repeat constructor; lia.
  - vm_compute. reflexivity.
  - vm_compute. reflexivity.
  - vm_compute. reflexivity.
  - intros (out & shape & Hrun & Hoff).
    vm_compute in Hrun. injection Hrun as Hout Hshape.
    destruct shape as [|s [|? ?]]; try discriminate.
    injection Hshape as <-.
    destruct out as [|row [|? ?]]; try discriminate.
    destruct row as [|x [|? ?]]; try discriminate.
    injection Hout as <-.
    inversion Hoff as [|? ? ? ? Heq _]. vm_compute in Heq. discriminate.
Qed.

(** C1, amended: under the preconditions of the claim, with the
    non-sentinel entries of [new_shape] positive and their product, like
    the element count, representable in the shape dtype, and with a
    coordinate dtype no wider than the shape dtype (or the kernel cannot
    be built), order is preserved provided every output coordinate is
    representable in the coordinate dtype of [sparse_indices]. *)
Theorem order_preservation (dt it : dtype) (sparse_indices : list (list Z))
    (prev_shape new_shape : list Z) :
  (it <= dt)%positive →
  prev_shape ≠ [] → new_shape ≠ [] →
  Forall (λ s, 0 < s) prev_shape →
  Forall (λ e, e = sentinel ∨ 0 < e) new_shape →
  (sentinels new_shape <= 1)%nat →
  (sentinel ∈ new_shape → (known_product new_shape | product prev_shape)) →
  Forall (in_bounds prev_shape) sparse_indices →
  product prev_shape < half dt → known_product new_shape < half dt →
  Forall (λ row,
            Forall (in_range it)
              (unflatten
                 (substitute_sentinel (product prev_shape)
                    (known_product new_shape) new_shape)
                 (linear_offset prev_shape row))) sparse_indices →
  order_preserved dt it sparse_indices prev_shape new_shape.
Proof.
  intros Hw Hp Hn Hpos Hnpos Hs Hdiv Hb HP HK Hfit.
  set (out_shape := substitute_sentinel (product prev_shape)
                      (known_product new_shape) new_shape) in *.
  assert (HRpos : Forall (λ s, 0 < s) out_shape)
    by (apply substitute_pos; [apply product_pos| |]; assumption).
  assert (HRlt : product out_shape < half dt)
    by (apply product_substitute_lt; assumption).
  assert (HRne : out_shape ≠ []).
  { intros E. apply (f_equal length) in E. unfold out_shape in E.
    rewrite length_substitute in E. destruct new_shape; [congruence | discriminate]. }
  assert (Hrows : Forall (λ row, length row = length prev_shape)
                    sparse_indices)
    by (eapply Forall_impl; [exact Hb | intros row; apply in_bounds_length]).
  pose proof (sparse_reshape_valid dt it sparse_indices prev_shape new_shape
                Hw Hp Hn Hpos Hnpos Hs Hdiv HP HK Hrows) as Hrun.
  cbv zeta in Hrun. fold out_shape in Hrun.
  unfold order_preserved. rewrite Hrun.
  destruct (decide (prev_shape = out_shape)) as [Heq|Hneq].
  - exists sparse_indices, out_shape. split; [reflexivity|].
    apply Forall_Forall2_diag, Forall_forall. intros row _.
    now rewrite <- Heq.
  - eexists _, out_shape. split; [reflexivity|].
    apply Forall2_fmap_r, Forall_Forall2_diag.
    rewrite Forall_forall in Hb, Hfit. apply Forall_forall.
    intros row Hrow. simpl.
    rewrite (transcode_row_exact dt it) by auto.
    rewrite Cast_id_all by auto.
    now rewrite linear_offset_unflatten.
Qed.

Lemma order_preservation_witness :
  order_preserved int32 int32
    [[0; 0; 0]; [0; 0; 1]; [0; 1; 0]; [1; 0; 0]; [1; 2; 3]]
    [2; 3; 6] [9; -1].
Proof.
  apply order_preservation.
  - reflexivity.
  - discriminate.
  - discriminate.
  - repeat constructor; lia.
  - repeat constructor; (left; reflexivity) || (right; lia).
  - vm_compute. lia.
  - intros _. exists 4. reflexivity.
  - repeat constructor; lia.
  - vm_compute. reflexivity.
  - vm_compute. reflexivity.
  - repeat constructor; vm_compute; discriminate.
Defined.

(** C2, as stated, fails: the element count of [65536; 65536] is 2^32,
    which wraps to 0 in [total_ele] when the shapes are 32-bit, so the
    sentinel is resolved to 0. *)
Lemma shape_inference_counterexample :
  let prev_shape := [65536; 65536] in
  let new_shape := [-1] in
  Forall (λ s, 0 < s) prev_shape
  ∧ Forall (in_range int32) prev_shape
  ∧ sentinels new_shape = 1%nat
  ∧ (known_product new_shape | product prev_shape)
  ∧ shape_resolver int32 prev_shape new_shape (allocate 1)
    = Ok (written [65536; 1], written [0])
  ∧ substitute_sentinel (product prev_shape) (known_product new_shape)
      new_shape = [4294967296]
  ∧ ¬ shape_inferred int32 prev_shape new_shape.
Proof.
  cbv zeta. split_and!.
  - repeat constructor; lia.
  - repeat constructor; vm_compute; discriminate.
  - reflexivity.
  - exists 4294967296. reflexivity.
  - vm_compute. reflexivity.
  - vm_compute. reflexivity.
  - intros [Hrun _]. vm_compute in Hrun. discriminate.
Qed.

(** C2, amended: the claim holds whenever the element count [P] is
    representable in the dtype of the shapes; the shape so resolved is the
    one every successful run of the kernel returns. *)
Theorem shape_inference (dt : dtype) (prev_shape new_shape : list Z) :
  prev_shape ≠ [] →
  Forall (λ s, 0 < s) prev_shape →
  sentinels new_shape = 1%nat →
  (known_product new_shape | product prev_shape) →
  product prev_shape < half dt →
  shape_inferred dt prev_shape new_shape
  ∧ ∀ it sparse_indices new_sparse_indices r,
      gen_ir dt it sparse_indices prev_shape new_shape new_sparse_indices
        (allocate (length new_shape)) = Ok r →
      r.2 = written (substitute_sentinel (product prev_shape)
                       (known_product new_shape) new_shape).
Proof.
  intros Hp Hpos Hs Hdiv HP.
  pose proof (product_pos _ Hpos) as Ht.
  destruct (divide_pos_bounds _ _ Ht Hdiv) as (Hk0 & Hk & _).
  assert (Hres : shape_resolver dt prev_shape new_shape
                   (allocate (length new_shape))
                 = Ok (written (strides dt prev_shape),
                       written (substitute_sentinel (product prev_shape)
                                  (known_product new_shape) new_shape))).
  { rewrite shape_resolver_ok.
    - now rewrite resolved_shape_exact.
    - exact Hp.
    - unfold allocate. apply length_replicate.
    - left. split.
      + rewrite division_total_wrap, wrap_id; [exact Hk0|].
        unfold in_range. lia.
      + rewrite total_elements_exact by assumption.
        pose proof (half_pos dt). lia. }
  split.
  - split; [exact Hres|]. now apply product_substitute_total.
  - intros it si nsi r Hrun.
    destruct (gen_ir_out_shape _ _ _ _ _ _ _ _ Hrun) as [ms Hms].
    rewrite Hres in Hms. now injection Hms as _ <-.
Qed.

Lemma shape_inference_witness :
  shape_inferred int32 [2; 3; 6] [9; -1]
  ∧ ∀ it sparse_indices new_sparse_indices r,
      gen_ir int32 it sparse_indices [2; 3; 6] [9; -1] new_sparse_indices
        (allocate 2) = Ok r →
      r.2 = written (substitute_sentinel 36 9 [9; -1]).
Proof.
  apply (shape_inference int32 [2; 3; 6] [9; -1]).
  - discriminate.
  - repeat constructor; lia.
  - reflexivity.
  - exists 4. reflexivity.
  - vm_compute. reflexivity.
Defined.

(** C3, as stated, fails: with two sentinels, or with an element count
    the known product does not divide, the kernel returns normally and
    writes both outputs. *)
Lemma shape_error_counterexample :
  (1 < sentinels [5; -1; -1]%Z)%nat
  ∧ sparse_reshape int32 int32 [[1; 2]] [2; 3] [5; -1; -1] (1, 3)%nat 3
    = Ok (written2 [[5; 0; 0]], written [5; 1; 1])
  ∧ ¬ (known_product [5; -1] | product [2; 3])
  ∧ sparse_reshape int32 int32 [[1; 2]] [2; 3] [5; -1] (1, 2)%nat 2
    = Ok (written2 [[5; 0]], written [5; 1]).
Proof.
  split_and!.
  - vm_compute. lia.
  - vm_compute. reflexivity.
  - intros [c Hc].
    change (6 = c * 5) in Hc. lia.
  - vm_compute. reflexivity.
Qed.

(** C3, amended: the kernel validates nothing.  On an input with more
    than one sentinel, or with a sentinel and an element count the known
    product does not divide, a kernel that can be built (coordinate dtype
    no wider than the shape dtype) returns both outputs whenever every
    division is defined: [division_total_ele] is not 0, and not -1 when
    [total_ele] is the least value of the dtype, and, when rows are
    transcoded, no divider is 0 or -1.  Every sentinel position then holds
    the truncated quotient of [total_ele] by [division_total_ele]. *)
Theorem no_shape_error (dt it : dtype) (sparse_indices : list (list Z))
    (prev_shape new_shape : list Z) :
  (it <= dt)%positive →
  prev_shape ≠ [] → new_shape ≠ [] →
  Forall (λ row, length row = length prev_shape) sparse_indices →
  ((1 < sentinels new_shape)%nat
   ∨ (sentinel ∈ new_shape
      ∧ ¬ (known_product new_shape | product prev_shape))) →
  division_defined dt (total_elements dt prev_shape)
    (division_total dt new_shape) →
  (prev_shape = resolved_shape dt prev_shape new_shape
   ∨ sparse_indices = []
   ∨ Forall (λ d, d ≠ 0 ∧ d ≠ -1)
       (strides dt (resolved_shape dt prev_shape new_shape))) →
  sparse_reshape dt it sparse_indices prev_shape new_shape
    (length sparse_indices, length new_shape) (length new_shape)
  = Ok (written2 (reshaped_indices dt it sparse_indices prev_shape new_shape),
        written (resolved_shape dt prev_shape new_shape))
  ∧ ∀ i : nat, new_shape !! i = Some sentinel →
         resolved_shape dt prev_shape new_shape !! i
         = Some (wrap dt (Z.quot (total_elements dt prev_shape)
                            (division_total dt new_shape))).
Proof.
  intros Hw Hp Hn Hrows _ Hk Hd. split.
  - apply sparse_reshape_ok; auto.
  - intros i Hi. unfold resolved_shape.
    rewrite list_lookup_fmap, Hi. simpl. unfold Cast.
    rewrite (wrap_id dt (wrap dt _)) by apply wrap_in_range. reflexivity.
Qed.

Lemma no_shape_error_witness :
  sparse_reshape int32 int32 [[1; 2]] [2; 3] [5; -1; -1] (1, 3)%nat 3
  = Ok (written2 (reshaped_indices int32 int32 [[1; 2]] [2; 3] [5; -1; -1]),
        written (resolved_shape int32 [2; 3] [5; -1; -1]))
  ∧ ∀ i : nat, ([5; -1; -1] : list Z) !! i = Some sentinel →
         resolved_shape int32 [2; 3] [5; -1; -1] !! i
         = Some (wrap int32 (Z.quot (total_elements int32 [2; 3])
                               (division_total int32 [5; -1; -1]))).
Proof.
  apply (no_shape_error int32 int32 [[1; 2]] [2; 3] [5; -1; -1]).
  - reflexivity.
  - discriminate.
  - discriminate.
  - repeat constructor.
  - left. vm_compute. lia.
  - apply division_defined_pos. vm_compute. reflexivity.
  - right. right. vm_compute. repeat constructor; discriminate.
Defined.

Lemma quot_0_r (a : Z) : Z.quot a 0 = 0.
Proof. destruct a; reflexivity. Qed.

(** C4: when the resolved shape equals [prev_shape], the copy of the
    equality shortcut and the general transcoder, run on the same buffers
    ([multipliers] of [prev_shape], the resolved shape as [out_new_shape]),
    write the same coordinates, which are the input coordinates; the kernel
    itself takes the shortcut.  A valid input has positive sizes, an
    element count representable in the shape dtype, rows within bounds and
    coordinates that are values of the coordinate dtype, which is no wider
    than the shape dtype. *)
Theorem identity_equivalence (dt it : dtype) (sparse_indices : list (list Z))
    (prev_shape new_shape : list Z) :
  (it <= dt)%positive →
  prev_shape ≠ [] →
  Forall (λ s, 0 < s) prev_shape →
  product prev_shape < half dt →
  Forall (in_bounds prev_shape) sparse_indices →
  Forall (Forall (in_range it)) sparse_indices →
  resolved_shape dt prev_shape new_shape = prev_shape →
  let new_sparse_indices :=
    decl_buffer (length sparse_indices, length new_shape) in
  copy_loop sparse_indices new_sparse_indices = Ok (written2 sparse_indices)
  ∧ transcoder dt it sparse_indices (length new_shape)
      (written (strides dt prev_shape))
      (written (resolved_shape dt prev_shape new_shape)) new_sparse_indices
    = Ok (written2 sparse_indices)
  ∧ sparse_reshape dt it sparse_indices prev_shape new_shape
      (length sparse_indices, length new_shape) (length new_shape)
    = Ok (written2 sparse_indices, written prev_shape).
Proof.
  intros Hw Hp Hpos HP Hb Hty Heq nsi.
  assert (Hlen : length new_shape = length prev_shape)
    by (rewrite <- (length_resolved_shape dt prev_shape new_shape);
        now rewrite Heq).
  assert (Hrows : Forall (λ row, length row = length prev_shape)
                    sparse_indices)
    by (eapply Forall_impl; [exact Hb | intros row; apply in_bounds_length]).
  destruct (decl_buffer_rows (length sparse_indices) (length new_shape))
    as [HbN Hbm]. fold nsi in HbN, Hbm.
  assert (Hcopy : copy_loop sparse_indices nsi = Ok (written2 sparse_indices)).
  { apply (copy_loop_ok _ _ (length prev_shape)); [exact Hrows | | exact HbN].
    now rewrite <- Hlen. }
  split_and!.
  - exact Hcopy.
  - rewrite Heq, Hlen.
    rewrite transcoder_ok.
    + f_equal. f_equal. rewrite <- (list_fmap_id sparse_indices) at 2.
      apply list_fmap_ext. intros i row Hrow.
      pose proof (Forall_lookup_1 _ _ _ _ Hb Hrow) as Hrb.
      pose proof (Forall_lookup_1 _ _ _ _ Hty Hrow) as Hrt.
      change (transcode_row dt it prev_shape prev_shape row = row).
      rewrite transcode_row_exact by assumption.
      rewrite unflatten_linear_offset by exact Hrb.
      now apply Cast_id_all.
    + exact Hw.
    + exact Hp.
    + now rewrite length_strides.
    + exact HbN.
    + now rewrite <- Hlen.
    + right. rewrite strides_exact_all by assumption.
      now apply exact_strides_pos.
  - unfold sparse_reshape, gen_ir. fold nsi.
    rewrite (build_flatten_ok _ _ Hw), bind_Ok.
    assert (Hk : division_defined dt (total_elements dt prev_shape)
                   (division_total dt new_shape) ∨ -1 ∉ new_shape).
    { destruct (decide (-1 ∈ new_shape)) as [Hin|Hin]; [left | right; exact Hin].
      split;
        [|rewrite total_elements_exact by assumption;
          pose proof (half_pos dt); pose proof (product_pos _ Hpos); lia].
      intros Hz. apply list_elem_of_lookup_1 in Hin. destruct Hin as [i Hi].
      assert (Hri : resolved_shape dt prev_shape new_shape !! i = Some 0).
      { unfold resolved_shape. rewrite list_lookup_fmap, Hi, Hz. simpl.
        rewrite quot_0_r. unfold Cast.
        rewrite !wrap_small; [reflexivity | |]; pose proof (half_pos dt);
          try lia.
        rewrite wrap_small; lia. }
      rewrite Heq in Hri.
      pose proof (Forall_lookup_1 _ _ _ _ Hpos Hri). simpl in *. lia. }
    rewrite shape_resolver_ok;
      [| exact Hp | unfold allocate; apply length_replicate | exact Hk].
    rewrite bind_Ok.
    rewrite equal_shape_check_ok by apply length_resolved_shape.
    rewrite bind_Ok, Heq.
    rewrite bool_decide_eq_true_2 by reflexivity.
    rewrite Hcopy. reflexivity.
Qed.

Lemma identity_equivalence_witness :
  let sparse_indices := [[0; 0; 0]; [1; 2; 3]] in
  let new_sparse_indices := decl_buffer (2, 3)%nat in
  copy_loop sparse_indices new_sparse_indices = Ok (written2 sparse_indices)
  ∧ transcoder int64 int32 sparse_indices 3
      (written (strides int64 [2; 3; 4]))
      (written (resolved_shape int64 [2; 3; 4] [2; -1; 4])) new_sparse_indices
    = Ok (written2 sparse_indices)
  ∧ sparse_reshape int64 int32 sparse_indices [2; 3; 4] [2; -1; 4]
      (2, 3)%nat 3
    = Ok (written2 sparse_indices, written [2; 3; 4]).
Proof.
  apply (identity_equivalence int64 int32 [[0; 0; 0]; [1; 2; 3]]
           [2; 3; 4] [2; -1; 4]).
  - vm_compute. discriminate.
  - discriminate.
  - repeat constructor; lia.
  - vm_compute. reflexivity.
  - repeat constructor; lia.
  - repeat constructor; vm_compute; discriminate.
  - vm_compute. reflexivity.
Defined.




(** C6, as stated, fails: with 8-bit coordinates the row [1;99] of shape
    [2;100] becomes [-57] under [200], and [-57] becomes [-1;43] on the
    way back. *)
Lemma round_trip_counterexample :
  let prev_shape := [2; 100] in
  let new_shape := [200] in
  let sparse_indices := [[1; 99]] in
  Forall (λ s, 0 < s) prev_shape
  ∧ Forall (λ s, 0 < s) new_shape
  ∧ product prev_shape = product new_shape
  ∧ Forall (in_bounds prev_shape) sparse_indices
  ∧ Forall (Forall (in_range int8)) sparse_indices
  ∧ sparse_reshape int32 int8 sparse_indices prev_shape new_shape (1, 1)%nat 1
    = Ok (written2 [[-57]], written new_shape)
  ∧ sparse_reshape int32 int8 [[-57]] new_shape prev_shape (1, 2)%nat 2
    = Ok (written2 [[-1; 43]], written prev_shape)
  ∧ ¬ round_trips int32 int8 sparse_indices prev_shape new_shape.
Proof.
  cbv zeta. split_and!.
  - repeat constructor; lia.
  - repeat constructor; lia.
  - reflexivity.
  - repeat constructor; lia.
  - repeat constructor; vm_compute; discriminate.
  - vm_compute. reflexivity.
  - vm_compute. reflexivity.
  - intros (there & Hgo & Hback).
    vm_compute in Hgo. injection Hgo as Hthere.
    destruct there as [|row [|? ?]]; try discriminate.
    destruct row as [|x [|? ?]]; try discriminate.
    injection Hthere as <-.
    vm_compute in Hback. discriminate.
Qed.

Lemma positive_no_sentinel (shape : list Z) :
  Forall (λ s, 0 < s) shape → sentinel ∉ shape.
Proof.
  intros Hpos Hin. rewrite Forall_forall in Hpos.
  specialize (Hpos _ Hin). unfold sentinel in Hpos. lia.
Qed.

Lemma no_sentinel_facts (shape : list Z) :
  sentinel ∉ shape →
  known_product shape = product shape ∧ sentinels shape = 0%nat
  ∧ ∀ total known, substitute_sentinel total known shape = shape.
Proof.
  induction shape as [|e l IH]; intros Hno.
  - split_and!; reflexivity.
  - apply not_elem_of_cons in Hno. destruct Hno as [Hne Hno].
    destruct (IH Hno) as (Hk & Hs & Hsub). split_and!.
    + rewrite known_product_cons, decide_False by congruence.
      simpl. now rewrite Hk.
    + rewrite sentinels_cons, decide_False by congruence. exact Hs.
    + intros total known. unfold substitute_sentinel in *.
      rewrite fmap_cons, Hsub, decide_False by congruence. reflexivity.
Qed.

(** The kernel between two fully given shapes of positive sizes. *)
Lemma sparse_reshape_positive (dt it : dtype)
    (sparse_indices : list (list Z)) (prev_shape new_shape : list Z) :
  (it <= dt)%positive →
  prev_shape ≠ [] → new_shape ≠ [] →
  Forall (λ s, 0 < s) prev_shape → Forall (λ s, 0 < s) new_shape →
  product prev_shape < half dt → product new_shape < half dt →
  Forall (λ row, length row = length prev_shape) sparse_indices →
  sparse_reshape dt it sparse_indices prev_shape new_shape
    (length sparse_indices, length new_shape) (length new_shape)
  = Ok (written2
          (if decide (prev_shape = new_shape) then sparse_indices
           else transcode_row dt it prev_shape new_shape <$> sparse_indices),
        written new_shape).
Proof.
  intros Hw Hp Hn Hpos Hnpos HP HN Hrows.
  pose proof (positive_no_sentinel _ Hnpos) as Hno.
  destruct (no_sentinel_facts _ Hno) as (Hk & Hs & Hsub).
  pose proof (sparse_reshape_valid dt it sparse_indices prev_shape new_shape)
    as Hrun.
  cbv zeta in Hrun. rewrite Hsub in Hrun. apply Hrun; try assumption.
  - eapply Forall_impl; [exact Hnpos | intros e He; right; exact He].
  - lia.
  - intros Hin. contradiction.
  - now rewrite Hk.
Qed.

(** C6, amended: the round trip holds for compatible shapes whose element
    count is representable in the shape dtype, for coordinates that are
    values of the coordinate dtype, which is no wider than the shape
    dtype, provided every size of [new_shape] is within the range of the
    coordinate dtype, so that the coordinates under [new_shape] are
    representable too. *)
Theorem round_trip (dt it : dtype) (sparse_indices : list (list Z))
    (prev_shape new_shape : list Z) :
  (it <= dt)%positive →
  prev_shape ≠ [] → new_shape ≠ [] →
  Forall (λ s, 0 < s) prev_shape → Forall (λ s, 0 < s) new_shape →
  product prev_shape = product new_shape →
  Forall (in_bounds prev_shape) sparse_indices →
  product prev_shape < half dt →
  Forall (Forall (in_range it)) sparse_indices →
  Forall (λ s, s <= half it) new_shape →
  round_trips dt it sparse_indices prev_shape new_shape.
Proof.
  intros Hw Hp Hn Hpos Hnpos Heq Hb HP Hty Hfit.
  assert (HN : product new_shape < half dt) by lia.
  assert (Hrows : Forall (λ row, length row = length prev_shape)
                    sparse_indices)
    by (eapply Forall_impl; [exact Hb | intros row; apply in_bounds_length]).
  unfold round_trips.
  rewrite (sparse_reshape_positive dt it sparse_indices prev_shape new_shape)
    by assumption.
  destruct (decide (prev_shape = new_shape)) as [Hsame|Hdiff].
  - exists sparse_indices. split; [reflexivity|].
    rewrite sparse_reshape_positive by (try assumption; now rewrite <- Hsame).
    rewrite decide_True by congruence. reflexivity.
  - set (there := (λ row, unflatten new_shape (linear_offset prev_shape row))
                  <$> sparse_indices).
    assert (Hthere_b : Forall (in_bounds new_shape) there).
    { unfold there. apply Forall_fmap, Forall_forall. intros row Hrow. simpl.
      rewrite Forall_forall in Hb.
      pose proof (linear_offset_bounds _ _ (Hb row Hrow)).
      apply unflatten_in_bounds; [exact Hnpos | lia]. }
    assert (Hthere : transcode_row dt it prev_shape new_shape
                       <$> sparse_indices = there).
    { unfold there. apply list_fmap_ext. intros i row Hrow.
      rewrite transcode_row_exact;
        [| exact (Forall_lookup_1 _ _ _ _ Hb Hrow) | assumption ..].
      apply Cast_id_all.
      assert (Hrb : in_bounds new_shape
                      (unflatten new_shape (linear_offset prev_shape row))).
      { rewrite Forall_forall in Hthere_b. apply Hthere_b. unfold there.
        apply list_elem_of_fmap. exists row. split; [reflexivity|].
        eapply list_elem_of_lookup_2. exact Hrow. }
      unfold in_bounds in Hrb.
      clear -Hrb Hfit. induction Hrb as [|x s xs ss Hx _ IH].
      - constructor.
      - inversion Hfit as [|? ? Hs Hss]; subst.
        constructor; [unfold in_range; lia | auto]. }
    exists there. split; [now rewrite Hthere|].
    rewrite sparse_reshape_positive; try assumption.
    + rewrite decide_False by congruence. f_equal. f_equal. f_equal.
      unfold there. rewrite <- list_fmap_compose.
      rewrite <- (list_fmap_id sparse_indices) at 2.
      apply list_fmap_ext. intros i row Hrow. simpl.
      pose proof (Forall_lookup_1 _ _ _ _ Hb Hrow) as Hrb.
      pose proof (linear_offset_bounds _ _ Hrb).
      rewrite transcode_row_exact; try assumption.
      * rewrite linear_offset_unflatten by exact Hn.
        rewrite unflatten_linear_offset by exact Hrb.
        apply Cast_id_all. exact (Forall_lookup_1 _ _ _ _ Hty Hrow).
      * apply unflatten_in_bounds; [exact Hnpos | lia].
    + eapply Forall_impl; [exact Hthere_b | intros row; apply in_bounds_length].
Qed.

Lemma round_trip_witness :
  round_trips int64 int32
    [[0; 0; 0]; [0; 0; 1]; [0; 1; 0]; [1; 0; 0]; [1; 2; 3]]
    [2; 3; 6] [9; 4].
Proof.
  apply round_trip.
  - vm_compute. discriminate.
  - discriminate.
  - discriminate.
  - repeat constructor; lia.
  - repeat constructor; lia.
  - reflexivity.
  - repeat constructor; lia.
  - vm_compute. reflexivity.
  - repeat constructor; vm_compute; discriminate.
  - repeat constructor; vm_compute; discriminate.
Defined.

(** All the rows of the general path at once, when nothing wraps and the
    coordinates fit their dtype. *)
Lemma transcode_rows_exact (dt it : dtype) (sparse_indices : list (list Z))
    (prev_shape out_shape : list Z) :
  Forall (in_bounds prev_shape) sparse_indices →
  product prev_shape < half dt →
  Forall (λ s, 0 < s) out_shape → product out_shape < half dt →
  Forall (λ row, Forall (in_range it)
                   (unflatten out_shape (linear_offset prev_shape row)))
    sparse_indices →
  transcode_row dt it prev_shape out_shape <$> sparse_indices
  = (λ row, unflatten out_shape (linear_offset prev_shape row))
    <$> sparse_indices.
Proof.
  intros Hb HP Hpos HO Hfit. apply list_fmap_ext. intros i row Hrow.
  rewrite transcode_row_exact;
    [| exact (Forall_lookup_1 _ _ _ _ Hb Hrow) | assumption ..].
  apply Cast_id_all. exact (Forall_lookup_1 _ _ _ _ Hfit Hrow).
Qed.

(** The outputs the docstring gives are those of [prev_shape = [2;3;6]],
    a shape of 36 elements like [[9;4]]. *)
Lemma docstring_outputs (dt it : dtype) :
  (8 <= dt)%positive → (8 <= it)%positive → (it <= dt)%positive →
  sparse_reshape dt it
    [[0; 0; 0]; [0; 0; 1]; [0; 1; 0]; [1; 0; 0]; [1; 2; 3]]
    [2; 3; 6] [9; -1] (5, 2)%nat 2
  = Ok (written2 [[0; 0]; [0; 1]; [1; 2]; [4; 2]; [8; 1]], written [9; 4]).
Proof.
  intros Hdt Hit Hw.
  set (si := [[0; 0; 0]; [0; 0; 1]; [0; 1; 0]; [1; 0; 0]; [1; 2; 3]]).
  pose proof (half_8_le dt Hdt) as Hd. pose proof (half_8_le it Hit) as Hi.
  assert (Hsmall : ∀ x, 0 <= x < 128 → in_range it x)
    by (intros x Hx; unfold in_range; lia).
  pose proof (sparse_reshape_valid dt it si [2; 3; 6] [9; -1] Hw) as Hrun.
  cbv zeta in Hrun.
  change (product [2; 3; 6]) with 36 in Hrun.
  change (known_product [9; -1]) with 9 in Hrun.
  change (substitute_sentinel 36 9 [9; -1]) with [9; 4] in Hrun.
  rewrite decide_False in Hrun by discriminate.
  rewrite (transcode_rows_exact dt it si [2; 3; 6] [9; 4]) in Hrun.
  - apply Hrun.
    + discriminate.
    + discriminate.
    + repeat constructor; lia.
    + repeat constructor; (left; reflexivity) || (right; lia).
    + vm_compute. lia.
    + intros _. exists 4. reflexivity.
    + lia.
    + lia.
    + repeat constructor.
  - repeat constructor; lia.
  - change (product [2; 3; 6]) with 36. lia.
  - repeat constructor; lia.
  - change (product [9; 4]) with 36. lia.
  - eapply Forall_impl;
      [| intros row Hr; eapply Forall_impl; [exact Hr | exact Hsmall]].
    vm_compute. repeat constructor; discriminate.
Qed.

(** C7: the example of the docstring (lines 52-68).  On the input it gives,
    [prev_shape = [2;3;4]] and [new_shape = [9;-1]], the kernel (any integer
    dtypes of at least 8 bits, the coordinates no wider than the shapes)
    does not return what the docstring states: 9 does not divide the 24
    elements, the sentinel is resolved to the truncated quotient 2, and the
    rows are transcoded for the shape [[9;2]], the last one to [[11;1]],
    outside that shape. *)
Theorem docstring_example (dt it : dtype) :
  (8 <= dt)%positive → (8 <= it)%positive → (it <= dt)%positive →
  let sparse_indices :=
    [[0; 0; 0]; [0; 0; 1]; [0; 1; 0]; [1; 0; 0]; [1; 2; 3]] in
  let returned :=
    sparse_reshape dt it sparse_indices [2; 3; 4] [9; -1] (5, 2)%nat 2 in
  returned
  = Ok (written2 [[0; 0]; [0; 1]; [2; 0]; [6; 0]; [11; 1]], written [9; 2])
  ∧ returned
    ≠ Ok (written2 [[0; 0]; [0; 1]; [1; 2]; [4; 2]; [8; 1]], written [9; 4])
  ∧ ¬ in_bounds [9; 2] [11; 1].
Proof.
  intros Hdt Hit Hw si returned.
  pose proof (half_8_le dt Hdt) as Hd. pose proof (half_8_le it Hit) as Hi.
  assert (Hsmall : ∀ x, 0 <= x < 128 → in_range it x)
    by (intros x Hx; unfold in_range; lia).
  assert (Hret : returned
                 = Ok (written2 [[0; 0]; [0; 1]; [2; 0]; [6; 0]; [11; 1]],
                       written [9; 2])).
  { assert (Htot : total_elements dt [2; 3; 4] = 24).
    { rewrite total_elements_exact;
        [reflexivity | discriminate | repeat constructor; lia
         | change (product [2; 3; 4]) with 24; lia]. }
    assert (Hknown : division_total dt [9; -1] = 9).
    { rewrite division_total_wrap.
      change (known_product [9; -1]) with 9. apply wrap_small. lia. }
    assert (Hres : resolved_shape dt [2; 3; 4] [9; -1] = [9; 2]).
    { unfold resolved_shape. rewrite Htot, Hknown.
      change (Z.quot 24 9) with 2.
      unfold Cast. rewrite !(wrap_small dt 2) by lia. reflexivity. }
    pose proof (sparse_reshape_ok dt it si [2; 3; 4] [9; -1] Hw) as Hrun.
    unfold reshaped_indices in Hrun. rewrite Hres in Hrun.
    rewrite decide_False in Hrun by discriminate.
    rewrite (transcode_rows_exact dt it si [2; 3; 4] [9; 2]) in Hrun.
    - apply Hrun.
      + discriminate.
      + discriminate.
      + repeat constructor.
      + left. rewrite Hknown. apply division_defined_pos. lia.
      + right. right. rewrite strides_exact_all.
        * repeat constructor; vm_compute; discriminate.
        * repeat constructor; lia.
        * change (product [9; 2]) with 18. lia.
    - repeat constructor; lia.
    - change (product [2; 3; 4]) with 24. lia.
    - repeat constructor; lia.
    - change (product [9; 2]) with 18. lia.
    - eapply Forall_impl;
        [| intros row Hr; eapply Forall_impl; [exact Hr | exact Hsmall]].
      vm_compute. repeat constructor; discriminate. }
  split_and!.
  - exact Hret.
  - rewrite Hret. discriminate.
  - intros Hb. inversion Hb as [|? ? ? ? Hx _]. lia.
Qed.

Lemma docstring_example_witness :
  let sparse_indices :=
    [[0; 0; 0]; [0; 0; 1]; [0; 1; 0]; [1; 0; 0]; [1; 2; 3]] in
  let returned :=
    sparse_reshape int32 int32 sparse_indices [2; 3; 4] [9; -1] (5, 2)%nat 2 in
  returned
  = Ok (written2 [[0; 0]; [0; 1]; [2; 0]; [6; 0]; [11; 1]], written [9; 2])
  ∧ returned
    ≠ Ok (written2 [[0; 0]; [0; 1]; [1; 2]; [4; 2]; [8; 1]], written [9; 4])
  ∧ ¬ in_bounds [9; 2] [11; 1].
Proof.
  apply (docstring_example int32 int32).
  - vm_compute. discriminate.
  - vm_compute. discriminate.
  - vm_compute. discriminate.
Defined.

(** C8: without rows the kernel returns a coordinate matrix without rows
    and the resolved shape, which is the shape every run on the same two
    shapes returns, whatever the number of rows.  Valid shapes include
    their dtypes: the coordinates are no wider than the shapes. *)
Theorem empty_input (dt it : dtype) (prev_shape new_shape : list Z) :
  (it <= dt)%positive →
  prev_shape ≠ [] → new_shape ≠ [] →
  Forall (λ s, 0 < s) prev_shape →
  Forall (λ e, e = sentinel ∨ 0 < e) new_shape →
  (sentinels new_shape <= 1)%nat →
  (sentinel ∈ new_shape → (known_product new_shape | product prev_shape)) →
  product prev_shape < half dt → known_product new_shape < half dt →
  let resolved_new_shape :=
    substitute_sentinel (product prev_shape) (known_product new_shape)
      new_shape in
  sparse_reshape dt it [] prev_shape new_shape (0%nat, length new_shape)
    (length new_shape)
  = Ok ([], written resolved_new_shape)
  ∧ ∀ sparse_indices r,
      sparse_reshape dt it sparse_indices prev_shape new_shape
        (length sparse_indices, length new_shape) (length new_shape) = Ok r →
      r.2 = written resolved_new_shape.
Proof.
  intros Hw Hp Hn Hpos Hnpos Hs Hdiv HP HK R.
  assert (Hempty : sparse_reshape dt it [] prev_shape new_shape
                     (0%nat, length new_shape) (length new_shape)
                   = Ok ([], written R)).
  { pose proof (sparse_reshape_valid dt it [] prev_shape new_shape
                  Hw Hp Hn Hpos Hnpos Hs Hdiv HP HK (Forall_nil_2 _)) as Hrun.
    cbv zeta in Hrun. fold R in Hrun. simpl length in Hrun at 1.
    rewrite Hrun. destruct (decide (prev_shape = R)); reflexivity. }
  split; [exact Hempty|].
  intros si r Hrun.
  destruct (gen_ir_out_shape _ _ _ _ _ _ _ _ Hempty) as [ms Hms].
  destruct (gen_ir_out_shape _ _ _ _ _ _ _ _ Hrun) as [ms' Hms'].
  rewrite Hms in Hms'. now injection Hms' as _ <-.
Qed.

Lemma empty_input_witness :
  sparse_reshape int64 int32 [] [2; 3; 6] [9; -1] (0, 2)%nat 2
  = Ok ([], written (substitute_sentinel 36 9 [9; -1]))
  ∧ ∀ sparse_indices r,
      sparse_reshape int64 int32 sparse_indices [2; 3; 6] [9; -1]
        (length sparse_indices, 2%nat) 2 = Ok r →
      r.2 = written (substitute_sentinel 36 9 [9; -1]).
Proof.
  apply (empty_input int64 int32 [2; 3; 6] [9; -1]).
  - vm_compute. discriminate.
  - discriminate.
  - discriminate.
  - repeat constructor; lia.
  - repeat constructor; (left; reflexivity) || (right; lia).
  - vm_compute. lia.
  - intros _. exists 4. reflexivity.
  - vm_compute. reflexivity.
  - vm_compute. reflexivity.
Defined.

(** C9, as stated, fails: a zero entry is multiplied into the known
    product like every other, and beside a -1 the quotient is then a
    division by zero. *)
Lemma sentinel_test_counterexample :
  division_total_loop int32 [0; -1] = Ok 0
  ∧ shape_resolver int32 [2; 3] [0; -1] (allocate 2) = Fault DivideByZero
  ∧ ¬ resolved_verbatim int32 [2; 3] [0; -1].
Proof.
  split_and!.
  - vm_compute. reflexivity.
  - vm_compute. reflexivity.
  - intros (ms & q & Hrun). vm_compute in Hrun. discriminate.
Qed.

(** C9, amended: the resolver compares every entry of [new_shape] with -1
    and nothing else.  [division_total_ele] is the product, in the shape
    dtype, of all the entries other than -1, zero and negative ones
    included; when there is no -1, or the quotient of [total_ele] by that
    product is defined, the resolver returns with every -1 replaced by the
    truncated quotient and every other entry copied as it is.  It fails
    only at a -1 entry, when the product is 0 (division by zero) or when
    the product is -1 and [total_ele] the least value of the dtype
    (division overflow). *)
Theorem sentinel_test (dt : dtype) (prev_shape new_shape : list Z) :
  prev_shape ≠ [] →
  let total := total_elements dt prev_shape in
  let known := wrap dt (known_product new_shape) in
  division_total_loop dt new_shape = Ok known
  ∧ (sentinel ∉ new_shape ∨ division_defined dt total known →
     shape_resolver dt prev_shape new_shape (allocate (length new_shape))
     = Ok (written (strides dt prev_shape),
           written ((λ e, if decide (e = sentinel)
                          then wrap dt (Z.quot total known)
                          else e) <$> new_shape)))
  ∧ (sentinel ∉ new_shape →
     shape_resolver dt prev_shape new_shape (allocate (length new_shape))
     = Ok (written (strides dt prev_shape), written new_shape))
  ∧ (sentinel ∈ new_shape → known = 0 →
     shape_resolver dt prev_shape new_shape (allocate (length new_shape))
     = Fault DivideByZero)
  ∧ (sentinel ∈ new_shape → total = - half dt → known = -1 →
     shape_resolver dt prev_shape new_shape (allocate (length new_shape))
     = Fault DivideOverflow).
Proof.
  intros Hp total known.
  assert (Hlen : length (allocate (length new_shape)) = length new_shape)
    by (unfold allocate; apply length_replicate).
  split_and!.
  - rewrite division_total_loop_ok, division_total_wrap. reflexivity.
  - intros Hk. rewrite shape_resolver_ok; [| exact Hp | exact Hlen |].
    + f_equal. f_equal. f_equal. unfold resolved_shape.
      apply list_fmap_ext. intros i e He. unfold sentinel.
      rewrite division_total_wrap. fold known. fold total.
      destruct (decide (e = -1)); [|reflexivity].
      unfold Cast. apply wrap_id, wrap_in_range.
    + rewrite division_total_wrap. fold known. fold total.
      unfold sentinel in Hk. tauto.
  - intros Hno. rewrite shape_resolver_ok; [| exact Hp | exact Hlen |].
    + now rewrite resolved_shape_no_sentinel.
    + right. exact Hno.
  - intros Hin Hz. apply shape_resolver_fault;
      [exact Hp | exact Hlen | | exact Hin].
    rewrite division_total_wrap. fold known. rewrite Hz.
    unfold div. now rewrite decide_True.
  - intros Hin Ht Hk. apply shape_resolver_fault;
      [exact Hp | exact Hlen | | exact Hin].
    rewrite division_total_wrap. fold known. fold total. rewrite Ht, Hk.
    unfold div. rewrite decide_False by discriminate.
    now rewrite decide_True.
Qed.

Lemma sentinel_test_witness :
  shape_resolver int32 [4; 3] [-2; -1; 3] (allocate 3)
  = Ok (written [3; 1], written [-2; -2; 3])
  ∧ shape_resolver int32 [2; 3] [0; -2; 5] (allocate 3)
    = Ok (written [3; 1], written [0; -2; 5])
  ∧ shape_resolver int32 [2; 3] [0; -1] (allocate 2) = Fault DivideByZero
  ∧ shape_resolver int32 [65536; 32768] [3; 1431655765; -1] (allocate 3)
    = Fault DivideOverflow.
Proof.
  split_and!.
  - destruct (sentinel_test int32 [4; 3] [-2; -1; 3]) as (_ & H & _);
      [discriminate|].
    apply H. right. vm_compute. split; [discriminate|].
    intros [E _]. discriminate.
  - destruct (sentinel_test int32 [2; 3] [0; -2; 5]) as (_ & _ & H & _);
      [discriminate|].
    apply H. apply (bool_decide_unpack _). vm_compute. exact I.
  - destruct (sentinel_test int32 [2; 3] [0; -1]) as (_ & _ & _ & H & _);
      [discriminate|].
    apply H; [|vm_compute; reflexivity].
    apply (bool_decide_unpack _). vm_compute. exact I.
  - destruct (sentinel_test int32 [65536; 32768] [3; 1431655765; -1])
      as (_ & _ & _ & _ & H); [discriminate|].
    apply H; [|vm_compute; reflexivity..].
    apply (bool_decide_unpack _). vm_compute. exact I.
Defined.

(** C10: no path looks at the bounds of a coordinate.  For rows of the
    right width, whatever the coordinates are, a kernel that can be built
    and whose shapes lead to no undefined division (the resolver's
    quotient is defined and no divider is 0 or -1) returns the rows
    unchanged when the resolved shape equals [prev_shape], and otherwise
    every row transcoded through its linear offset: the sum of its
    coordinates weighted by the multipliers, reduced to the shape dtype
    and divided down the dividers with wrap-around.  With positive sizes
    and an element count the shape dtype holds, the multipliers are the
    exact strides and the weighted sum is the row-major linear offset. *)
Theorem no_bounds_check (dt it : dtype) (sparse_indices : list (list Z))
    (prev_shape new_shape : list Z) :
  (it <= dt)%positive →
  prev_shape ≠ [] → new_shape ≠ [] →
  Forall (λ row, length row = length prev_shape) sparse_indices →
  (sentinel ∉ new_shape
   ∨ division_defined dt (total_elements dt prev_shape)
       (division_total dt new_shape)) →
  let out_shape := resolved_shape dt prev_shape new_shape in
  (prev_shape = out_shape →
   sparse_reshape dt it sparse_indices prev_shape new_shape
     (length sparse_indices, length new_shape) (length new_shape)
   = Ok (written2 sparse_indices, written out_shape))
  ∧ (prev_shape ≠ out_shape →
     Forall (λ d, d ≠ 0 ∧ d ≠ -1) (strides dt out_shape) →
     sparse_reshape dt it sparse_indices prev_shape new_shape
       (length sparse_indices, length new_shape) (length new_shape)
     = Ok (written2
             ((λ row, unflatten_row dt it (strides dt out_shape)
                        (wrap dt (weighted_sum (strides dt prev_shape) row)))
              <$> sparse_indices),
           written out_shape))
  ∧ (Forall (λ s, 0 < s) prev_shape → product prev_shape < half dt →
     strides dt prev_shape = exact_strides prev_shape
     ∧ ∀ row, weighted_sum (exact_strides prev_shape) row
              = linear_offset prev_shape row).
Proof.
  intros Hw Hp Hn Hrows Hk out_shape.
  assert (Hk' : division_defined dt (total_elements dt prev_shape)
                  (division_total dt new_shape) ∨ -1 ∉ new_shape)
    by (unfold sentinel in Hk; tauto).
  split_and!.
  - intros Hsh.
    rewrite sparse_reshape_ok; try assumption; [|left; exact Hsh].
    unfold reshaped_indices. fold out_shape.
    rewrite decide_True by exact Hsh. reflexivity.
  - intros Hsh Hnz.
    rewrite sparse_reshape_ok; try assumption; [|right; right; exact Hnz].
    unfold reshaped_indices. fold out_shape.
    rewrite decide_False by exact Hsh. f_equal. f_equal. f_equal.
    apply list_fmap_ext. intros i row _. unfold transcode_row.
    now rewrite flatten_row_wrap.
  - intros Hpos HP. split; [now apply strides_exact_all|].
    intros row. apply weighted_sum_exact.
Qed.

Lemma no_bounds_check_witness :
  sparse_reshape int32 int32 [[5; -7]; [-1; 3]] [2; 3] [2; -1] (2, 2)%nat 2
  = Ok (written2 [[5; -7]; [-1; 3]], written [2; 3])
  ∧ sparse_reshape int32 int32 [[5; -7]; [-1; 3]] [2; 3] [3; -1] (2, 2)%nat 2
    = Ok (written2 [[4; 0]; [0; 0]], written [3; 2]).
Proof.
  split.
  - destruct (no_bounds_check int32 int32 [[5; -7]; [-1; 3]] [2; 3] [2; -1])
      as (H & _).
    + vm_compute. discriminate.
    + discriminate.
    + discriminate.
    + repeat constructor.
    + right. apply division_defined_pos. vm_compute. reflexivity.
    + apply H. vm_compute. reflexivity.
  - destruct (no_bounds_check int32 int32 [[5; -7]; [-1; 3]] [2; 3] [3; -1])
      as (_ & H & _).
    + vm_compute. discriminate.
    + discriminate.
    + discriminate.
    + repeat constructor.
    + right. apply division_defined_pos. vm_compute. reflexivity.
    + apply H.
      * vm_compute. discriminate.
      * apply (bool_decide_unpack _). vm_compute. exact I.
Defined.

(** ** Further properties of the kernel *)

Section Reference.

Variables (dt it : dtype).

Lemma in_bounds_in_range (shape row : list Z) :
in_bounds shape row → Forall (λ s, s <= half it) shape →
Forall (in_range it) row.
Proof.
unfold in_bounds. induction 1 as [|x s xs ss Hx _ IH]; intros Hfit.
- constructor.
- inversion Hfit as [|? ? Hs Hss]; subst.
  constructor; [unfold in_range; lia | auto].
Qed.

Lemma compatible_product (prev_shape new_shape : list Z) :
compatible dt it prev_shape new_shape →
product (inferred_shape prev_shape new_shape) = product prev_shape
∧ Forall (λ s, 0 < s) (inferred_shape prev_shape new_shape)
∧ known_product new_shape < half dt
∧ inferred_shape prev_shape new_shape ≠ [].
Proof.
intros (Hw & Hp & Hn & Hpos & Hnpos & Hs & Hdiv & Heq & HP & Hfit).
pose proof (product_pos _ Hpos) as Ht.
pose proof (known_product_pos _ Hnpos) as Hk.
unfold inferred_shape in *.
assert (Hprod : product (substitute_sentinel (product prev_shape)
                           (known_product new_shape) new_shape)
                = product prev_shape).
{ rewrite product_substitute by exact Hs.
  destruct (decide (sentinel ∈ new_shape)) as [Hin|Hin].
  - destruct (Hdiv Hin) as [c Hc]. rewrite Hc at 1.
    rewrite Z.div_mul by lia. lia.
  - destruct (no_sentinel_facts _ Hin) as (Hkp & _ & _).
    rewrite Hkp. auto. }
split_and!.
- exact Hprod.
- now apply substitute_pos.
- destruct (decide (sentinel ∈ new_shape)) as [Hin|Hin].
  + destruct (divide_pos_bounds _ _ Ht (Hdiv Hin)) as (_ & ? & _). lia.
  + destruct (no_sentinel_facts _ Hin) as (Hkp & _ & _).
    rewrite Hkp, (Heq Hin). exact HP.
- intros E. apply (f_equal length) in E.
  rewrite length_substitute in E.
  destruct new_shape; [congruence | discriminate].
Qed.

Lemma reference_row_in_bounds (prev_shape new_shape row : list Z) :
compatible dt it prev_shape new_shape → in_bounds prev_shape row →
in_bounds (inferred_shape prev_shape new_shape)
  (reference_row prev_shape new_shape row).
Proof.
intros Hc Hb. destruct (compatible_product _ _ Hc) as (Hprod & Hpos & _).
pose proof (linear_offset_bounds _ _ Hb).
unfold reference_row. apply unflatten_in_bounds; [exact Hpos | lia].
Qed.

(** The kernel on compatible shapes and rows within bounds. *)
Lemma sparse_reshape_exact (sparse_indices : list (list Z))
  (prev_shape new_shape : list Z) :
compatible dt it prev_shape new_shape →
Forall (in_bounds prev_shape) sparse_indices →
sparse_reshape dt it sparse_indices prev_shape new_shape
  (length sparse_indices, length new_shape) (length new_shape)
= Ok (written2 (reference_row prev_shape new_shape <$> sparse_indices),
      written (inferred_shape prev_shape new_shape)).
Proof.
intros Hc Hb.
destruct (compatible_product _ _ Hc) as (Hprod & Hopos & HK & Hone).
pose proof Hc as (Hw & Hp & Hn & Hpos & Hnpos & Hs & Hdiv & Heq & HP & Hfit).
assert (Hrows : Forall (λ row, length row = length prev_shape)
                  sparse_indices)
  by (eapply Forall_impl; [exact Hb | intros row; apply in_bounds_length]).
pose proof (sparse_reshape_valid dt it sparse_indices prev_shape new_shape
              Hw Hp Hn Hpos Hnpos Hs Hdiv HP HK Hrows) as Hrun.
cbv zeta in Hrun. fold (inferred_shape prev_shape new_shape) in Hrun.
rewrite Hrun. f_equal. f_equal. f_equal.
destruct (decide (prev_shape = inferred_shape prev_shape new_shape))
  as [Hsame|Hdiff].
- rewrite <- (list_fmap_id sparse_indices) at 1.
  apply list_fmap_ext. intros i row Hrow. simpl.
  unfold reference_row. rewrite <- Hsame.
  symmetry. apply unflatten_linear_offset.
  exact (Forall_lookup_1 _ _ _ _ Hb Hrow).
- apply transcode_rows_exact; try assumption; [lia|].
  apply Forall_forall. intros row Hrow.
  apply (in_bounds_in_range (inferred_shape prev_shape new_shape));
    [|exact Hfit].
  apply reference_row_in_bounds; [exact Hc|].
  rewrite Forall_forall in Hb. auto.
Qed.

Lemma linear_offset_inj (shape r1 r2 : list Z) :
in_bounds shape r1 → in_bounds shape r2 →
linear_offset shape r1 = linear_offset shape r2 → r1 = r2.
Proof.
intros H1 H2 Heq.
rewrite <- (unflatten_linear_offset shape r1 H1).
rewrite <- (unflatten_linear_offset shape r2 H2). now rewrite Heq.
Qed.

Lemma lex_lt_offset (shape r1 r2 : list Z) :
in_bounds shape r1 → in_bounds shape r2 →
(lex_lt r1 r2 ↔ linear_offset shape r1 < linear_offset shape r2).
Proof.
unfold in_bounds. intros H1. revert r2.
induction H1 as [|x s xs ss Hx Hxs IH]; intros r2 H2.
- inversion H2; subst. simpl. lia.
- inversion H2 as [|y ? ys ? Hy Hys]; subst.
  pose proof (linear_offset_bounds _ _ Hxs) as Hl1.
  pose proof (linear_offset_bounds _ _ Hys) as Hl2.
  specialize (IH ys Hys). simpl. split.
  + intros [Hlt|[-> Hlt]]; [nia|]. apply IH in Hlt. lia.
  + intros Hlt. destruct (Z.lt_trichotomy x y) as [?|[->|?]].
    * left. assumption.
    * right. split; [reflexivity|]. apply IH. lia.
    * exfalso. nia.
Qed.

Lemma reference_row_offset (prev_shape new_shape row : list Z) :
compatible dt it prev_shape new_shape →
linear_offset (inferred_shape prev_shape new_shape)
  (reference_row prev_shape new_shape row)
= linear_offset prev_shape row.
Proof.
intros Hc. destruct (compatible_product _ _ Hc) as (_ & _ & _ & Hne).
unfold reference_row. now apply linear_offset_unflatten.
Qed.

End Reference.

(** The shapes of the example of TensorFlow's [sparse_reshape], with 64-bit
    shapes and 32-bit coordinates. *)
Lemma compatible_example : compatible int64 int32 [2; 3; 6] [9; -1].
Proof.
  unfold compatible. split_and!.
  - vm_compute. discriminate.
  - discriminate.
  - discriminate.
  - repeat constructor; lia.
  - repeat constructor; (left; reflexivity) || (right; lia).
  - vm_compute. lia.
  - intros _. exists 4. reflexivity.
  - intros Hno. exfalso. apply Hno. repeat constructor.
  - vm_compute. reflexivity.
  - repeat constructor; vm_compute; discriminate.
Qed.

(** X1.  On compatible shapes and rows within bounds the kernel computes
    the reference reshape: every output row holds the coordinates, under
    the inferred shape, of the linear offset of the input row; the rows
    come out in the order they went in. *)
Theorem reshape_reference (dt it : dtype) (sparse_indices : list (list Z))
    (prev_shape new_shape : list Z) :
  compatible dt it prev_shape new_shape →
  Forall (in_bounds prev_shape) sparse_indices →
  sparse_reshape dt it sparse_indices prev_shape new_shape
    (length sparse_indices, length new_shape) (length new_shape)
  = Ok (written2 (reference_row prev_shape new_shape <$> sparse_indices),
        written (inferred_shape prev_shape new_shape)).
Proof. intros Hc Hb. now apply sparse_reshape_exact. Qed.

Lemma reshape_reference_witness :
  sparse_reshape int64 int32 [[0; 1; 0]; [1; 2; 3]] [2; 3; 6] [9; -1]
    (2, 2)%nat 2
  = Ok (written2 (reference_row [2; 3; 6] [9; -1]
                    <$> [[0; 1; 0]; [1; 2; 3]]),
        written (inferred_shape [2; 3; 6] [9; -1])).
Proof.
  apply (reshape_reference int64 int32 [[0; 1; 0]; [1; 2; 3]]).
  - exact compatible_example.
  - repeat constructor; lia.
Defined.

(** X2.  The output is a coordinate matrix for the inferred shape: as
    many rows as the input, each with one coordinate per output dimension,
    every coordinate at least 0 and below the size of its dimension. *)
Theorem output_in_bounds (dt it : dtype) (sparse_indices : list (list Z))
    (prev_shape new_shape : list Z) :
  compatible dt it prev_shape new_shape →
  Forall (in_bounds prev_shape) sparse_indices →
  ∃ new_sparse_indices,
    sparse_reshape dt it sparse_indices prev_shape new_shape
      (length sparse_indices, length new_shape) (length new_shape)
    = Ok (written2 new_sparse_indices,
          written (inferred_shape prev_shape new_shape))
    ∧ length new_sparse_indices = length sparse_indices
    ∧ Forall (λ row, length row = length new_shape) new_sparse_indices
    ∧ Forall (in_bounds (inferred_shape prev_shape new_shape))
        new_sparse_indices.
Proof.
  intros Hc Hb. eexists. split; [now apply sparse_reshape_exact|].
  assert (Hall : Forall (in_bounds (inferred_shape prev_shape new_shape))
                   (reference_row prev_shape new_shape <$> sparse_indices)).
  { apply Forall_fmap, Forall_forall. intros row Hrow. simpl.
    apply (reference_row_in_bounds dt it); [exact Hc|].
    rewrite Forall_forall in Hb. auto. }
  split_and!.
  - apply length_fmap.
  - eapply Forall_impl; [exact Hall|]. intros row Hrow. simpl.
    rewrite (in_bounds_length _ _ Hrow). apply length_substitute.
  - exact Hall.
Qed.

Lemma output_in_bounds_witness :
  ∃ new_sparse_indices,
    sparse_reshape int64 int32 [[0; 1; 0]; [1; 2; 3]] [2; 3; 6] [9; -1]
      (2, 2)%nat 2
    = Ok (written2 new_sparse_indices,
          written (inferred_shape [2; 3; 6] [9; -1]))
    ∧ length new_sparse_indices = 2%nat
    ∧ Forall (λ row, length row = 2%nat) new_sparse_indices
    ∧ Forall (in_bounds (inferred_shape [2; 3; 6] [9; -1]))
        new_sparse_indices.
Proof.
  apply (output_in_bounds int64 int32 [[0; 1; 0]; [1; 2; 3]]
           [2; 3; 6] [9; -1]).
  - exact compatible_example.
  - repeat constructor; lia.
Defined.

(** X3.  The reshape neither merges nor reorders entries: two input rows
    are equal exactly when their output rows are, and one precedes the
    other lexicographically exactly when their output rows do.  A
    coordinate list that is sorted and free of duplicates stays so. *)
Theorem order_isomorphism (dt it : dtype) (sparse_indices : list (list Z))
    (prev_shape new_shape : list Z) :
  compatible dt it prev_shape new_shape →
  Forall (in_bounds prev_shape) sparse_indices →
  ∃ new_sparse_indices,
    sparse_reshape dt it sparse_indices prev_shape new_shape
      (length sparse_indices, length new_shape) (length new_shape)
    = Ok (written2 new_sparse_indices,
          written (inferred_shape prev_shape new_shape))
    ∧ ∀ (i j : nat) r1 r2 o1 o2,
        sparse_indices !! i = Some r1 → sparse_indices !! j = Some r2 →
        new_sparse_indices !! i = Some o1 →
        new_sparse_indices !! j = Some o2 →
        (r1 = r2 ↔ o1 = o2) ∧ (lex_lt r1 r2 ↔ lex_lt o1 o2).
Proof.
  intros Hc Hb. eexists. split; [now apply sparse_reshape_exact|].
  intros i j r1 r2 o1 o2 Hr1 Hr2 Ho1 Ho2.
  rewrite list_lookup_fmap, Hr1 in Ho1. injection Ho1 as <-.
  rewrite list_lookup_fmap, Hr2 in Ho2. injection Ho2 as <-.
  pose proof (Forall_lookup_1 _ _ _ _ Hb Hr1) as Hb1.
  pose proof (Forall_lookup_1 _ _ _ _ Hb Hr2) as Hb2.
  pose proof (reference_row_in_bounds dt it _ _ _ Hc Hb1) as Ho1.
  pose proof (reference_row_in_bounds dt it _ _ _ Hc Hb2) as Ho2.
  pose proof (reference_row_offset dt it _ _ r1 Hc) as E1.
  pose proof (reference_row_offset dt it _ _ r2 Hc) as E2.
  split.
  - split; [now intros ->|]. intros Heq.
    apply (linear_offset_inj prev_shape); [assumption..|].
    rewrite <- E1, <- E2. now rewrite Heq.
  - rewrite (lex_lt_offset prev_shape r1 r2 Hb1 Hb2).
    rewrite (lex_lt_offset _ _ _ Ho1 Ho2). now rewrite E1, E2.
Qed.

Lemma order_isomorphism_witness :
  ∃ new_sparse_indices,
    sparse_reshape int64 int32 [[0; 1; 0]; [1; 2; 3]] [2; 3; 6] [9; -1]
      (2, 2)%nat 2
    = Ok (written2 new_sparse_indices,
          written (inferred_shape [2; 3; 6] [9; -1]))
    ∧ ∀ (i j : nat) r1 r2 o1 o2,
        ([[0; 1; 0]; [1; 2; 3]] : list (list Z)) !! i = Some r1 →
        ([[0; 1; 0]; [1; 2; 3]] : list (list Z)) !! j = Some r2 →
        new_sparse_indices !! i = Some o1 →
        new_sparse_indices !! j = Some o2 →
        (r1 = r2 ↔ o1 = o2) ∧ (lex_lt r1 r2 ↔ lex_lt o1 o2).
Proof.
  apply (order_isomorphism int64 int32 [[0; 1; 0]; [1; 2; 3]]
           [2; 3; 6] [9; -1]).
  - exact compatible_example.
  - repeat constructor; lia.
Defined.

Lemma compatible_chain (dt it : dtype) (prev_shape mid_shape new_shape : list Z) :
  compatible dt it prev_shape mid_shape →
  compatible dt it prev_shape new_shape →
  compatible dt it (inferred_shape prev_shape mid_shape) new_shape
  ∧ inferred_shape (inferred_shape prev_shape mid_shape) new_shape
    = inferred_shape prev_shape new_shape.
Proof.
  intros Hm Hn.
  destruct (compatible_product dt it _ _ Hm) as (Hprod & Hpos & _ & Hne).
  destruct Hn as (Hw & Hp & Hn & Hppos & Hnpos & Hs & Hdiv & Heq & HP & Hfit).
  assert (Hsame : inferred_shape (inferred_shape prev_shape mid_shape)
                    new_shape = inferred_shape prev_shape new_shape)
    by (unfold inferred_shape at 1 3; now rewrite Hprod).
  split; [|exact Hsame].
  unfold compatible. rewrite Hsame, Hprod. split_and!; assumption.
Qed.

(** X4.  Reshapes compose: going from [prev_shape] to an intermediate
    shape and from there to [new_shape] returns the coordinates and the
    shape of the direct reshape from [prev_shape] to [new_shape]. *)
Theorem reshape_compose (dt it : dtype) (sparse_indices : list (list Z))
    (prev_shape mid_shape new_shape : list Z) :
  compatible dt it prev_shape mid_shape →
  compatible dt it prev_shape new_shape →
  Forall (in_bounds prev_shape) sparse_indices →
  ∃ there resolved_mid direct,
    sparse_reshape dt it sparse_indices prev_shape mid_shape
      (length sparse_indices, length mid_shape) (length mid_shape)
    = Ok (written2 there, written resolved_mid)
    ∧ sparse_reshape dt it sparse_indices prev_shape new_shape
        (length sparse_indices, length new_shape) (length new_shape)
      = Ok direct
    ∧ sparse_reshape dt it there resolved_mid new_shape
        (length there, length new_shape) (length new_shape)
      = Ok direct.
Proof.
  intros Hm Hn Hb.
  destruct (compatible_chain dt it _ _ _ Hm Hn) as [Hc Hsame].
  destruct (compatible_product dt it _ _ Hm) as (_ & _ & _ & Hne).
  exists (reference_row prev_shape mid_shape <$> sparse_indices),
    (inferred_shape prev_shape mid_shape). eexists.
  split_and!.
  - now apply sparse_reshape_exact.
  - now apply sparse_reshape_exact.
  - rewrite (sparse_reshape_exact dt it).
    + rewrite Hsame. f_equal. f_equal. f_equal.
      rewrite <- list_fmap_compose. apply list_fmap_ext.
      intros i row Hrow. simpl. unfold reference_row at 1.
      rewrite Hsame. unfold reference_row at 1.
      now rewrite linear_offset_unflatten.
    + exact Hc.
    + apply Forall_fmap, Forall_forall. intros row Hrow. simpl.
      apply (reference_row_in_bounds dt it); [exact Hm|].
      rewrite Forall_forall in Hb. auto.
Qed.

(** A second target for the shapes of the example: [[4;-1]], resolved to
    [[4;9]]. *)
Lemma compatible_example_direct : compatible int64 int32 [2; 3; 6] [4; -1].
Proof.
  unfold compatible. split_and!.
  - vm_compute. discriminate.
  - discriminate.
  - discriminate.
  - repeat constructor; lia.
  - repeat constructor; (left; reflexivity) || (right; lia).
  - vm_compute. lia.
  - intros _. exists 9. reflexivity.
  - intros Hno. exfalso. apply Hno. repeat constructor.
  - vm_compute. reflexivity.
  - repeat constructor; vm_compute; discriminate.
Qed.

Lemma reshape_compose_witness :
  ∃ there resolved_mid direct,
    sparse_reshape int64 int32 [[0; 1; 0]; [1; 2; 3]] [2; 3; 6] [9; -1]
      (2, 2)%nat 2
    = Ok (written2 there, written resolved_mid)
    ∧ sparse_reshape int64 int32 [[0; 1; 0]; [1; 2; 3]] [2; 3; 6] [4; -1]
        (2, 2)%nat 2
      = Ok direct
    ∧ sparse_reshape int64 int32 there resolved_mid [4; -1]
        (length there, 2%nat) 2
      = Ok direct.
Proof.
  apply (reshape_compose int64 int32 [[0; 1; 0]; [1; 2; 3]]
           [2; 3; 6] [9; -1] [4; -1]).
  - exact compatible_example.
  - exact compatible_example_direct.
  - repeat constructor; lia.
Defined.

(** X5.  Both shape vectors must have at least one entry: with an empty
    [prev_shape] the kernel, once built, reads [prev_shape[0]] outside the
    buffer, and with an empty [new_shape] it writes [dividers[-1]]; no
    other input is looked at first. *)
Theorem empty_shape_faults (dt it : dtype) (sparse_indices : list (list Z))
    (prev_shape new_shape : list Z) (new_sparse_indices : list (list cell))
    (out_new_shape : list cell) :
  (it <= dt)%positive → prev_shape ≠ [] →
  gen_ir dt it sparse_indices [] new_shape new_sparse_indices out_new_shape
  = Fault OutOfBounds
  ∧ gen_ir dt it sparse_indices prev_shape [] new_sparse_indices
      out_new_shape
    = Fault OutOfBounds.
Proof.
  intros Hw Hp. unfold gen_ir. rewrite (build_flatten_ok _ _ Hw), !bind_Ok.
  split; [reflexivity|]. unfold shape_resolver.
  rewrite multipliers_loop_ok by exact Hp. rewrite bind_Ok.
  rewrite division_total_loop_ok, bind_Ok.
  change (out_new_shape_loop dt [] (total_elements dt prev_shape)
            (division_total dt []) out_new_shape) with (Ok out_new_shape).
  rewrite !bind_Ok. unfold equal_shape_check.
  rewrite decide_False by (destruct prev_shape; [congruence | discriminate]).
  rewrite bind_Ok. unfold transcoder.
  rewrite (build_flatten_ok _ _ Hw), bind_Ok. reflexivity.
Qed.

Lemma empty_shape_faults_witness :
  gen_ir int64 int32 [[0; 1]] [] [2; 3] (decl_buffer (1, 2)%nat) (allocate 2)
  = Fault OutOfBounds
  ∧ gen_ir int64 int32 [[0; 1]] [2; 3] [] (decl_buffer (1, 2)%nat)
      (allocate 2)
    = Fault OutOfBounds.
Proof.
  apply (empty_shape_faults int64 int32 [[0; 1]] [2; 3] [2; 3]
           (decl_buffer (1, 2)%nat) (allocate 2)).
  - vm_compute. discriminate.
  - discriminate.
Defined.

Lemma total_elements_wrap (dt : dtype) (p0 p1 : Z) (ps : list Z) :
  total_elements dt (p0 :: p1 :: ps) = wrap dt (product (p0 :: p1 :: ps)).
Proof.
  assert (G : ∀ l, wrap dt (fold_right (λ p acc, mul dt acc p) p0 l)
                   = wrap dt (p0 * product l)).
  { induction l as [|a l IH]; simpl.
    - f_equal. lia.
    - unfold mul at 1. rewrite (wrap_id dt (wrap dt _)) by apply wrap_in_range.
      rewrite <- wrap_mul_l, IH, wrap_mul_l. f_equal. lia. }
  unfold total_elements. cbn [fold_right]. unfold mul at 1.
  rewrite <- wrap_mul_l, G, wrap_mul_l. f_equal. simpl. lia.
Qed.

Lemma product_zero (shape : list Z) : 0 ∈ shape → product shape = 0.
Proof.
  induction shape as [|s rest IH]; intros Hin.
  - now apply elem_of_nil in Hin.
  - apply elem_of_cons in Hin. simpl. destruct Hin as [<-|Hin]; [lia|].
    rewrite IH by exact Hin. lia.
Qed.

Lemma total_elements_zero (dt : dtype) (prev_shape : list Z) :
  0 ∈ prev_shape → total_elements dt prev_shape = 0.
Proof.
  intros Hin. destruct prev_shape as [|p0 [|p1 ps]].
  - now apply elem_of_nil in Hin.
  - apply list_elem_of_singleton in Hin. subst. reflexivity.
  - rewrite total_elements_wrap, (product_zero _ Hin).
    apply wrap_small. pose proof (half_pos dt). lia.
Qed.

(** X6.  A zero-sized dimension in [prev_shape] (an empty tensor, which
    has no rows), the coordinates no wider than the shapes: every sentinel
    is resolved to 0 and nothing fails, as long as the product of the
    other entries of [new_shape] is not zero in the shape dtype; when that
    product is zero as well, the kernel divides 0 by 0 and faults,
    whatever the rows. *)
Theorem zero_sized_dimension (dt it : dtype) (prev_shape new_shape : list Z) :
  (it <= dt)%positive →
  0 ∈ prev_shape → new_shape ≠ [] →
  (wrap dt (known_product new_shape) ≠ 0 →
   sparse_reshape dt it [] prev_shape new_shape (0%nat, length new_shape)
     (length new_shape)
   = Ok ([], written ((λ e, if decide (e = sentinel) then 0 else e)
                      <$> new_shape)))
  ∧ (sentinel ∈ new_shape → wrap dt (known_product new_shape) = 0 →
     ∀ sparse_indices,
       sparse_reshape dt it sparse_indices prev_shape new_shape
         (length sparse_indices, length new_shape) (length new_shape)
       = Fault DivideByZero).
Proof.
  intros Hw Hz Hn.
  assert (Hp : prev_shape ≠ []) by (intros ->; now apply elem_of_nil in Hz).
  split.
  - intros Hk.
    pose proof (sparse_reshape_ok dt it [] prev_shape new_shape Hw Hp Hn
                  (Forall_nil_2 _)) as Hrun.
    simpl length in Hrun at 1. rewrite Hrun.
    + f_equal. f_equal.
      * unfold reshaped_indices. now destruct (decide _).
      * f_equal. unfold resolved_shape.
        rewrite (total_elements_zero dt _ Hz). apply list_fmap_ext.
        intros i e He. unfold sentinel.
        destruct (decide (e = -1)); [|reflexivity].
        change (Z.quot 0 (division_total dt new_shape)) with 0.
        unfold Cast. pose proof (half_pos dt).
        rewrite !(wrap_small dt 0) by lia. reflexivity.
    + left. rewrite division_total_wrap, (total_elements_zero dt _ Hz).
      split; [exact Hk|]. pose proof (half_pos dt). lia.
    + right. left. reflexivity.
  - intros Hin Hk si. unfold sparse_reshape, gen_ir.
    rewrite (build_flatten_ok _ _ Hw), bind_Ok.
    rewrite (shape_resolver_fault dt _ _ _ DivideByZero);
      [reflexivity | exact Hp | | | exact Hin].
    + unfold allocate. apply length_replicate.
    + rewrite division_total_wrap, Hk. unfold div. now rewrite decide_True.
Qed.

Lemma zero_sized_dimension_witness :
  sparse_reshape int32 int32 [] [2; 0; 4] [3; -1] (0, 2)%nat 2
  = Ok ([], written [3; 0])
  ∧ ∀ sparse_indices,
      sparse_reshape int32 int32 sparse_indices [2; 0; 4] [0; -1]
        (length sparse_indices, 2%nat) 2
      = Fault DivideByZero.
Proof.
  split.
  - destruct (zero_sized_dimension int32 int32 [2; 0; 4] [3; -1])
      as [H _].
    + vm_compute. discriminate.
    + apply (bool_decide_unpack _). vm_compute. exact I.
    + discriminate.
    + apply H. vm_compute. discriminate.
  - destruct (zero_sized_dimension int32 int32 [2; 0; 4] [0; -1])
      as [_ H].
    + vm_compute. discriminate.
    + apply (bool_decide_unpack _). vm_compute. exact I.
    + discriminate.
    + apply H; [|vm_compute; reflexivity].
      apply (bool_decide_unpack _). vm_compute. exact I.
Defined.

(** A loop that runs [k] iterations in closed form and then faults. *)
Lemma for_loop_fault_at {St : Type} (body : nat → St → result St)
    (f : nat → St) (e : fault) (k count lo : nat) :
  (k < count)%nat →
  (∀ i, (lo <= i < lo + k)%nat → body i (f i) = Ok (f (S i))) →
  body (lo + k)%nat (f (lo + k)%nat) = Fault e →
  for_loop body lo count (f lo) = Fault e.
Proof.
  revert count lo. induction k as [|k IH]; intros count lo Hk Hok Hbad.
  - destruct count as [|c]; [lia|]. simpl.
    rewrite Nat.add_0_r in Hbad. now rewrite Hbad.
  - destruct count as [|c]; [lia|]. simpl.
    rewrite Hok by lia. rewrite bind_Ok. apply IH.
    + lia.
    + intros i Hi. apply Hok. lia.
    + replace (S lo + k)%nat with (lo + S k)%nat by lia. exact Hbad.
Qed.

(** A zero in a table of strides reaches the front of the table: every
    entry is a multiple of the next one. *)
Lemma strides_zero_head (dt : dtype) (shape : list Z) :
  0 ∈ strides dt shape → strides dt shape !! 0%nat = Some 0.
Proof.
  induction shape as [|s rest IH]; intros Hin.
  - now apply elem_of_nil in Hin.
  - cbn [strides] in *. cbv zeta in *.
    apply elem_of_cons in Hin. destruct Hin as [Hin|Hin].
    + simpl. now rewrite <- Hin.
    + specialize (IH Hin). simpl.
      destruct rest as [|p rest']; [now apply elem_of_nil in Hin|].
      destruct (strides dt (p :: rest')) as [|m ms]; [discriminate|].
      injection IH as ->. unfold mul. rewrite Z.mul_0_r.
      f_equal. apply wrap_id. unfold in_range. pose proof (half_pos dt). lia.
Qed.

Section DivideByZero.

Variables (dt it : dtype).
Local Open Scope nat_scope.

Lemma unflatten_loop_fault (flat dividers : list Z)
  (new_sparse_indices : list (list cell)) :
flat ≠ [] → length new_sparse_indices = length flat →
Forall (λ row, length row = length dividers) new_sparse_indices →
dividers !! 0 = Some 0%Z →
unflatten_loop dt it (written flat) (written dividers) new_sparse_indices
= Fault DivideByZero.
Proof.
intros Hne Hlen Hrows Hk.
destruct flat as [|cur flat]; [congruence|].
destruct new_sparse_indices as [|row0 rest]; [discriminate|].
assert (Hkm : 0 < length dividers) by (eapply lookup_lt_Some; exact Hk).
inversion Hrows as [|? ? Hr0 _]; subst.
unfold unflatten_loop, for_range, shape0. rewrite Nat.sub_0_r.
cbn [length for_loop]. rewrite (load_written (cur :: flat) 0 cur) by reflexivity.
rewrite bind_Ok. cbn [shape1]. rewrite Nat.sub_0_r, Hr0.
set (nsi := row0 :: rest).
set (outrow := unflatten_row dt it dividers cur).
assert (Horl : length outrow = length dividers).
{ unfold outrow, unflatten_row.
  now rewrite length_fmap, length_division_chain. }
set (rstep := λ (r d : Z), wrap dt (r mod d)%Z).
set (inner := λ (j : nat) '(b, current_element), _).
pose (g := λ j : nat,
        (<[0 := (Some <$> take j outrow) ++ drop j row0]> nsi,
         fold_left rstep (take j dividers) cur)).
change (nsi, cur) with (g 0).
rewrite (for_loop_fault_at inner g DivideByZero 0);
  [reflexivity | exact Hkm | |].
- intros j Hj. lia.
- unfold inner, g. simpl Nat.add.
  rewrite (load_written _ _ _ Hk), bind_Ok.
  unfold floordiv. rewrite decide_True by reflexivity. reflexivity.
Qed.

End DivideByZero.

(** X7.  The general path divides by every entry of [dividers]: if the
    shapes differ and one of the dividers is zero (a zero size after the
    first position of the resolved shape, a sentinel whose truncated
    quotient is 0, or a stride that wraps to 0), the first divider is zero
    as well and the kernel, once built and past the resolver, faults at
    the first division of the first row. *)
Theorem zero_divider_faults (dt it : dtype) (sparse_indices : list (list Z))
    (prev_shape new_shape : list Z) :
  (it <= dt)%positive →
  prev_shape ≠ [] → new_shape ≠ [] → sparse_indices ≠ [] →
  Forall (λ row, length row = length prev_shape) sparse_indices →
  (sentinel ∉ new_shape
   ∨ division_defined dt (total_elements dt prev_shape)
       (division_total dt new_shape)) →
  prev_shape ≠ resolved_shape dt prev_shape new_shape →
  0 ∈ strides dt (resolved_shape dt prev_shape new_shape) →
  sparse_reshape dt it sparse_indices prev_shape new_shape
    (length sparse_indices, length new_shape) (length new_shape)
  = Fault DivideByZero.
Proof.
  intros Hw Hp Hn Hsi Hrows Hk Hdiff Hz. unfold sparse_reshape, gen_ir.
  rewrite (build_flatten_ok _ _ Hw), bind_Ok.
  destruct (decl_buffer_rows (length sparse_indices) (length new_shape))
    as [HbN Hbm].
  rewrite shape_resolver_ok;
    [| exact Hp | unfold allocate; apply length_replicate
     | unfold sentinel in Hk; tauto].
  rewrite bind_Ok.
  rewrite equal_shape_check_ok by apply length_resolved_shape.
  rewrite bind_Ok, bool_decide_eq_false_2 by exact Hdiff.
  set (out := resolved_shape dt prev_shape new_shape) in *.
  assert (Hout : length out = length new_shape)
    by apply length_resolved_shape.
  assert (Hone : out ≠ [])
    by (intros E; rewrite E in Hout; destruct new_shape;
        [congruence | discriminate]).
  unfold transcoder. rewrite (build_flatten_ok _ _ Hw), bind_Ok.
  rewrite <- Hout.
  rewrite dividers_loop_ok by exact Hone. rewrite bind_Ok.
  rewrite (flatten_loop_ok dt it sparse_indices _ (length prev_shape));
    [| exact Hw | exact Hrows | rewrite length_strides; lia].
  rewrite bind_Ok.
  rewrite unflatten_loop_fault;
    [reflexivity | | | | now apply strides_zero_head].
  - destruct sparse_indices; [congruence | rewrite fmap_cons; discriminate].
  - rewrite length_fmap, Hout. exact HbN.
  - rewrite length_strides, Hout. exact Hbm.
Qed.

Lemma zero_divider_faults_witness :
  sparse_reshape int32 int32 [[1; 2]] [2; 3] [7; -1] (1, 2)%nat 2
  = Fault DivideByZero.
Proof.
  apply (zero_divider_faults int32 int32 [[1; 2]] [2; 3] [7; -1]).
  - vm_compute. discriminate.
  - discriminate.
  - discriminate.
  - discriminate.
  - repeat constructor.
  - right. apply division_defined_pos. vm_compute. reflexivity.
  - vm_compute. discriminate.
  - vm_compute. repeat constructor.
Defined.

Lemma for_loop_ext {St : Type} (body body' : nat → St → result St)
    (count lo : nat) (s : St) :
  (∀ i t, (lo <= i < lo + count)%nat → body i t = body' i t) →
  for_loop body lo count s = for_loop body' lo count s.
Proof.
  revert lo s. induction count as [|c IH]; intros lo s Hext; simpl.
  - reflexivity.
  - rewrite Hext by lia. destruct (body' lo s) as [s'|f]; [|reflexivity].
    rewrite !bind_Ok. apply IH. intros i t Hi. apply Hext. lia.
Qed.

Section DeclaredRows.

Variables (dt it : dtype).
Local Open Scope nat_scope.

(** The division loop runs over the rows of the output buffer and reads
  no offset beyond them. *)
Lemma unflatten_loop_prefix (flat dividers : list Z)
  (new_sparse_indices : list (list cell)) :
length new_sparse_indices <= length flat →
Forall (λ row, length row = length dividers) new_sparse_indices →
Forall (λ d, d ≠ 0%Z ∧ d ≠ (-1)%Z) dividers →
unflatten_loop dt it (written flat) (written dividers) new_sparse_indices
= Ok (written2 (unflatten_row dt it dividers
                  <$> take (length new_sparse_indices) flat)).
Proof.
intros Hlen Hrows Hnz.
rewrite <- (unflatten_loop_ok dt it
              (take (length new_sparse_indices) flat) dividers
              new_sparse_indices);
  [| rewrite length_take; lia | exact Hrows | right; exact Hnz].
unfold unflatten_loop, for_range. apply for_loop_ext.
intros i t Hi. unfold shape0 in Hi.
assert (Hl : load (written flat) i
             = load (written (take (length new_sparse_indices) flat)) i).
{ unfold load, written. rewrite !list_lookup_fmap.
  rewrite lookup_take_lt by lia. reflexivity. }
now rewrite Hl.
Qed.

(** One row of the copy. *)
Lemma copy_row_ok (sparse_indices : list (list Z)) (b : list (list cell))
  (i : nat) (row : list Z) (row0 : list cell) :
sparse_indices !! i = Some row → b !! i = Some row0 →
length row0 = length row →
for_loop (λ j b, v ← input2 sparse_indices i j; store2 b i j v)
  0 (length row) b
= Ok (<[i := written row]> b).
Proof.
intros Hrow Hrow0 Hl.
assert (Hi : i < length b) by (eapply lookup_lt_Some; exact Hrow0).
set (inner := λ (j : nat) (b : list (list cell)), _).
pose (g := λ j : nat, <[i := (Some <$> take j row) ++ drop j row0]> b).
assert (Hg0 : g 0 = b) by (unfold g; now apply row_prefix_0).
rewrite <- Hg0 at 1. rewrite (for_loop_eq inner g).
- unfold g. simpl. now rewrite prefix_full.
- intros j Hj. unfold inner.
  destruct (lookup_lt_is_Some_2 row j) as [v Hv]; [lia|].
  rewrite (input2_lookup _ _ _ _ _ Hrow Hv), bind_Ok.
  unfold g. apply store2_prefix; [exact Hi | exact Hv | lia | lia].
Qed.

Lemma copy_loop_short (sparse_indices : list (list Z))
  (new_sparse_indices : list (list cell)) (c : nat) :
0 < c →
Forall (λ row, length row = c) sparse_indices →
Forall (λ row, length row = c) new_sparse_indices →
length new_sparse_indices < length sparse_indices →
copy_loop sparse_indices new_sparse_indices = Fault OutOfBounds.
Proof.
intros Hc Hsi Hnsi Hlen. unfold copy_loop, for_range, shape0.
rewrite !Nat.sub_0_r.
set (body := λ (i : nat) (b : list (list cell)), _).
pose (f := λ i : nat,
        (written <$> take i sparse_indices) ++ drop i new_sparse_indices).
change (for_loop body 0 (length sparse_indices) (f 0) = Fault OutOfBounds).
apply (for_loop_fault_at body f OutOfBounds (length new_sparse_indices));
  [exact Hlen | |].
- intros i Hi. unfold body.
  rewrite (shape1_rows sparse_indices c i Hsi) by lia.
  destruct (lookup_lt_is_Some_2 sparse_indices i) as [row Hrow]; [lia|].
  destruct (lookup_lt_is_Some_2 new_sparse_indices i) as [row0 Hrow0];
    [lia|].
  pose proof (Forall_lookup_1 _ _ _ _ Hsi Hrow) as Hrl.
  pose proof (Forall_lookup_1 _ _ _ _ Hnsi Hrow0) as Hr0l.
  cbv beta in Hrl, Hr0l. rewrite <- Hrl.
  rewrite (copy_row_ok sparse_indices (f i) i row row0);
    [| exact Hrow | unfold f; rewrite prefix_lookup by lia; exact Hrow0
     | lia].
  f_equal. unfold f. apply (insert_prefix written); [exact Hrow | lia].
- simpl Nat.add. set (n := length new_sparse_indices) in *.
  unfold body.
  rewrite (shape1_rows sparse_indices c n Hsi) by lia.
  destruct c as [|c']; [lia|]. cbn [for_loop].
  destruct (lookup_lt_is_Some_2 sparse_indices n) as [row Hrow]; [lia|].
  pose proof (Forall_lookup_1 _ _ _ _ Hsi Hrow) as Hrl. cbv beta in Hrl.
  destruct (lookup_lt_is_Some_2 row 0) as [v Hv]; [lia|].
  rewrite (input2_lookup _ _ _ _ _ Hrow Hv), bind_Ok.
  assert (Hnone : f n !! n = None).
  { apply lookup_ge_None. unfold f.
    rewrite length_app, length_fmap, length_take, length_drop. lia. }
  unfold store2. rewrite Hnone. reflexivity.
Qed.

End DeclaredRows.

(** X8.  The kernel trusts the shape declared for [new_sparse_indices].
    With fewer rows declared than [sparse_indices] has, the general path,
    whose division loop runs over the rows of the output buffer, returns
    the transcoded rows that fit and drops the others without a word,
    whereas the copy of the equality shortcut, which runs over the rows of
    the input, stores outside the output buffer.  The kernel can be built
    and no division is undefined: the resolver's quotient is defined and,
    on the general path, no divider is 0 or -1. *)
Theorem declared_rows_trusted (dt it : dtype) (sparse_indices : list (list Z))
    (prev_shape new_shape : list Z) (rows : nat) :
  (it <= dt)%positive →
  prev_shape ≠ [] → new_shape ≠ [] →
  Forall (λ row, length row = length prev_shape) sparse_indices →
  (sentinel ∉ new_shape
   ∨ division_defined dt (total_elements dt prev_shape)
       (division_total dt new_shape)) →
  (rows < length sparse_indices)%nat →
  let out_shape := resolved_shape dt prev_shape new_shape in
  (prev_shape ≠ out_shape →
   Forall (λ d, d ≠ 0 ∧ d ≠ -1) (strides dt out_shape) →
   sparse_reshape dt it sparse_indices prev_shape new_shape
     (rows, length new_shape) (length new_shape)
   = Ok (written2 (take rows (transcode_row dt it prev_shape out_shape
                              <$> sparse_indices)),
         written out_shape))
  ∧ (prev_shape = out_shape →
     sparse_reshape dt it sparse_indices prev_shape new_shape
       (rows, length new_shape) (length new_shape)
     = Fault OutOfBounds).
Proof.
  intros Hw Hp Hn Hrows Hk Hlt out. unfold sparse_reshape, gen_ir.
  rewrite (build_flatten_ok _ _ Hw), bind_Ok.
  destruct (decl_buffer_rows rows (length new_shape)) as [HbN Hbm].
  rewrite shape_resolver_ok;
    [| exact Hp | unfold allocate; apply length_replicate
     | unfold sentinel in Hk; tauto].
  rewrite bind_Ok.
  rewrite equal_shape_check_ok by apply length_resolved_shape.
  rewrite bind_Ok. fold out.
  assert (Hout : length out = length new_shape)
    by apply length_resolved_shape.
  split.
  - intros Hdiff Hnz. rewrite bool_decide_eq_false_2 by exact Hdiff.
    assert (Hone : out ≠ [])
      by (intros E; rewrite E in Hout; destruct new_shape;
          [congruence | discriminate]).
    unfold transcoder. rewrite (build_flatten_ok _ _ Hw), bind_Ok.
    rewrite <- Hout at 1.
    rewrite dividers_loop_ok by exact Hone. rewrite bind_Ok.
    rewrite (flatten_loop_ok dt it sparse_indices _ (length prev_shape));
      [| exact Hw | exact Hrows | rewrite length_strides; lia].
    rewrite bind_Ok. rewrite unflatten_loop_prefix.
    + rewrite bind_Ok, HbN. f_equal. f_equal. f_equal.
      rewrite <- fmap_take, <- list_fmap_compose, fmap_take. reflexivity.
    + rewrite length_fmap, HbN. lia.
    + rewrite length_strides, Hout. exact Hbm.
    + exact Hnz.
  - intros Hsame. rewrite bool_decide_eq_true_2 by exact Hsame.
    rewrite (copy_loop_short sparse_indices _ (length prev_shape));
      [reflexivity | | exact Hrows | | rewrite HbN; exact Hlt].
    + destruct prev_shape; [congruence | simpl; lia].
    + pose proof (f_equal length Hsame) as Hl. rewrite Hout in Hl.
      rewrite Hl. exact Hbm.
Qed.

Lemma declared_rows_trusted_witness :
  sparse_reshape int32 int32 [[0; 1]; [1; 2]] [2; 3] [3; -1] (1, 2)%nat 2
  = Ok (written2 [[0; 1]], written [3; 2])
  ∧ sparse_reshape int32 int32 [[0; 1]; [1; 2]] [2; 3] [2; -1] (1, 2)%nat 2
    = Fault OutOfBounds.
Proof.
  split.
  - destruct (declared_rows_trusted int32 int32 [[0; 1]; [1; 2]] [2; 3]
                [3; -1] 1) as [H _].
    + vm_compute. discriminate.
    + discriminate.
    + discriminate.
    + repeat constructor.
    + right. apply division_defined_pos. vm_compute. reflexivity.
    + simpl. lia.
    + apply H.
      * vm_compute. discriminate.
      * apply (bool_decide_unpack _). vm_compute. exact I.
  - destruct (declared_rows_trusted int32 int32 [[0; 1]; [1; 2]] [2; 3]
                [2; -1] 1) as [_ H].
    + vm_compute. discriminate.
    + discriminate.
    + discriminate.
    + repeat constructor.
    + right. apply division_defined_pos. vm_compute. reflexivity.
    + simpl. lia.
    + apply H. vm_compute. reflexivity.
Defined.

(** * Properties of the inputs of a run *)

Module RunnerProperties.

Import Runner.

Local Open Scope nat_scope.

(** ** Dicts *)

Lemma get_setitem {V : Type} (d : dict V) (k k' : string) (v : V) :
  get (setitem d k v) k' = if decide (k = k') then Some v else get d k'.
Proof.
  induction d as [|[k0 v0] d IH]; simpl.
  - destruct (decide (k = k')); reflexivity.
  - destruct (decide (k0 = k)) as [->|Hne]; simpl.
    + destruct (decide (k = k')); reflexivity.
    + rewrite IH. destruct (decide (k0 = k')) as [->|?]; [|reflexivity].
      now rewrite decide_False.
Qed.

Lemma keys_cons {V : Type} (d : dict V) (k : string) (v : V) :
  keys ((k, v) :: d) = k :: keys d.
Proof. reflexivity. Qed.

Lemma keys_setitem_fresh {V : Type} (d : dict V) (k : string) (v : V) :
  k ∉ keys d → keys (setitem d k v) = keys d ++ [k].
Proof.
  induction d as [|[k0 v0] d IH]; intros Hk.
  - reflexivity.
  - rewrite keys_cons in Hk. apply not_elem_of_cons in Hk.
    destruct Hk as [Hne Hk]. cbn [setitem].
    rewrite decide_False by congruence.
    rewrite !keys_cons, IH by exact Hk. reflexivity.
Qed.

Lemma get_is_Some {V : Type} (d : dict V) (k : string) :
  k ∈ keys d ↔ is_Some (get d k).
Proof.
  induction d as [|[k0 v0] d IH].
  - split; [intros Hin; now apply elem_of_nil in Hin
           | intros [? ?]; discriminate].
  - rewrite keys_cons. cbn [get].
    destruct (decide (k0 = k)) as [->|Hne].
    + split; [eauto | intros _; apply list_elem_of_here].
    + rewrite elem_of_cons, IH.
      split; [intros [?|?]; [congruence | assumption] | auto].
Qed.

Lemma getitem_key {V : Type} (d : dict V) (k : string) :
  k ∈ keys d → ∃ v, get d k = Some v ∧ getitem d k = Return v.
Proof.
  intros Hin. apply get_is_Some in Hin. destruct Hin as [v Hv].
  exists v. unfold getitem. now rewrite Hv.
Qed.

(** ** Loops *)

Lemma bind_Return {A B : Type} (a : A) (k : A → py B) :
  (Return a ≫= k) = k a.
Proof. reflexivity. Qed.

Lemma for_each_app {A St : Type} (l1 l2 : list A) (body : A → St → py St)
    (s : St) :
  for_each (l1 ++ l2) body s = for_each l1 body s ≫= for_each l2 body.
Proof.
  revert s. induction l1 as [|a l1 IH]; intros s; simpl.
  - reflexivity.
  - destruct (body a s) as [s'|e]; [|reflexivity].
    rewrite !bind_Return. apply IH.
Qed.

Section Inputs.

Context `{Numpy}.

Variables (shape_dict : dict (list Z)) (dtype_dict : dict string).
Variables (inputs : dict ndarray) (fill_mode : string).

(** The two loops of [make_inputs_dict]. *)
Let check := λ (input_name : string) (_ : unit),
if decide (input_name ∉ keys shape_dict) then
  Raise (TVMCException (InputNotInGraph input_name (keys shape_dict)))
else Return tt.

Let build := λ (input_name : string) '(inputs_dict, g),
if decide (input_name ∈ keys inputs) then
  v ← getitem inputs input_name;
  Return (setitem inputs_dict input_name v, g)
else
  shape ← getitem shape_dict input_name;
  dtype ← getitem dtype_dict input_name;
  '(data, g) ← generate_tensor_data shape dtype fill_mode g;
  Return (setitem (inputs_dict : dict ndarray) input_name data, g).

Lemma make_inputs_dict_loops (g : random_state) :
make_inputs_dict shape_dict dtype_dict (Some inputs) fill_mode g
= (for_each (keys inputs) check tt ≫= λ _,
   for_each (keys shape_dict) build ([], g)).
Proof. reflexivity. Qed.

Lemma check_ok (names : list string) :
Forall (λ n, n ∈ keys shape_dict) names →
for_each names check tt = Return tt.
Proof.
induction 1 as [|n names Hn _ IH]; cbn [for_each]; [reflexivity|].
unfold check; fold check. rewrite decide_False by tauto.
rewrite bind_Return. exact IH.
Qed.

Lemma check_inv (names : list string) (u : unit) :
for_each names check tt = Return u →
Forall (λ n, n ∈ keys shape_dict) names.
Proof.
induction names as [|n names IH]; cbn [for_each]; intros Hrun;
  [constructor|].
unfold check in Hrun; fold check in Hrun.
destruct (decide (n ∉ keys shape_dict)) as [Hn|Hn]; [discriminate|].
rewrite bind_Return in Hrun. constructor; [|auto].
destruct (decide (n ∈ keys shape_dict)); tauto.
Qed.

(** What a successful run of the second loop has built. *)
Lemma build_success (names : list string) (acc r : dict ndarray)
  (g g' : random_state) :
for_each names build (acc, g) = Return (r, g') →
NoDup names → (∀ k, k ∈ names → k ∉ keys acc) →
keys r = keys acc ++ names
∧ (∀ k, k ∉ names → get r k = get acc k)
∧ (∀ k, k ∈ names → k ∈ keys inputs → get r k = get inputs k)
∧ (∀ k, k ∈ names → k ∉ keys inputs →
     ∃ shape dtype data g1 g2,
       get shape_dict k = Some shape ∧ get dtype_dict k = Some dtype
       ∧ generate_tensor_data shape dtype fill_mode g1 = Return (data, g2)
       ∧ get r k = Some data).
Proof.
revert acc g. induction names as [|n names IH]; intros acc g Hrun Hnd Hfresh.
- simpl in Hrun. injection Hrun as <- <-. rewrite app_nil_r.
  split_and!; [reflexivity | reflexivity | |];
    intros k Hk; now apply elem_of_nil in Hk.
- apply NoDup_cons in Hnd. destruct Hnd as [Hn Hnd].
  assert (Hnacc : n ∉ keys acc) by (apply Hfresh, list_elem_of_here).
  cbn [for_each] in Hrun. unfold build in Hrun; fold build in Hrun.
  assert (Hstep : ∀ v g1,
             for_each names build (setitem acc n v, g1) = Return (r, g') →
             keys r = keys acc ++ n :: names
             ∧ (∀ k, k ∉ n :: names → get r k = get acc k)
             ∧ (∀ k, k ∈ names → k ∈ keys inputs → get r k = get inputs k)
             ∧ (∀ k, k ∈ names → k ∉ keys inputs →
                  ∃ shape dtype data g1 g2,
                    get shape_dict k = Some shape
                    ∧ get dtype_dict k = Some dtype
                    ∧ generate_tensor_data shape dtype fill_mode g1
                      = Return (data, g2)
                    ∧ get r k = Some data)
             ∧ get r n = Some v).
  { intros v g1 Hrest.
    destruct (IH _ _ Hrest Hnd) as (Hkeys & Hother & Huser & Hgen).
    - intros k Hk. rewrite keys_setitem_fresh by exact Hnacc.
      rewrite elem_of_app, list_elem_of_singleton.
      intros [Hin | ->]; [|contradiction].
      eapply Hfresh; [apply list_elem_of_further; exact Hk | exact Hin].
    - rewrite keys_setitem_fresh in Hkeys by exact Hnacc.
      rewrite <- app_assoc in Hkeys. split_and!.
      + exact Hkeys.
      + intros k Hk. apply not_elem_of_cons in Hk. destruct Hk as [Hne Hk].
        rewrite Hother by exact Hk. rewrite get_setitem.
        now rewrite decide_False by congruence.
      + exact Huser.
      + exact Hgen.
      + rewrite Hother by exact Hn. rewrite get_setitem.
        now rewrite decide_True. }
  destruct (decide (n ∈ keys inputs)) as [Hin|Hin].
  + destruct (getitem_key inputs n Hin) as (v & Hv & Hget).
    rewrite Hget, !bind_Return in Hrun.
    destruct (Hstep v g Hrun) as (Hkeys & Hother & Huser & Hgen & Hn').
    split_and!; [exact Hkeys | exact Hother | |].
    * intros k Hk Hki. apply elem_of_cons in Hk.
      destruct Hk as [->|Hk]; [congruence | auto].
    * intros k Hk Hki. apply elem_of_cons in Hk.
      destruct Hk as [->|Hk]; [contradiction | auto].
  + destruct (getitem shape_dict n) as [shape|e] eqn:Hs; [|discriminate].
    rewrite bind_Return in Hrun.
    destruct (getitem dtype_dict n) as [dtype|e] eqn:Hd; [|discriminate].
    rewrite bind_Return in Hrun.
    destruct (generate_tensor_data shape dtype fill_mode g)
      as [[data g1]|e] eqn:Hgd; [|discriminate].
    rewrite !bind_Return in Hrun.
    destruct (Hstep data g1 Hrun) as (Hkeys & Hother & Huser & Hgen & Hn').
    split_and!; [exact Hkeys | exact Hother | |].
    * intros k Hk Hki. apply elem_of_cons in Hk.
      destruct Hk as [->|Hk]; [contradiction | auto].
    * intros k Hk Hki. apply elem_of_cons in Hk.
      destruct Hk as [->|Hk]; [|auto].
      exists shape, dtype, data, g, g1. split_and!; try assumption.
      -- unfold getitem in Hs. destruct (get shape_dict n); congruence.
      -- unfold getitem in Hd. destruct (get dtype_dict n); congruence.
Qed.

Lemma build_rng_unchanged (names : list string) (acc r : dict ndarray)
  (g g' : random_state) :
fill_mode = "zeros" ∨ fill_mode = "ones" →
for_each names build (acc, g) = Return (r, g') → g' = g.
Proof.
intros Hfm. revert acc. induction names as [|n names IH]; intros acc Hrun.
- cbn [for_each] in Hrun. now injection Hrun as _ <-.
- cbn [for_each] in Hrun. unfold build in Hrun; fold build in Hrun.
  destruct (decide (n ∈ keys inputs)).
  + destruct (getitem inputs n); [|discriminate].
    rewrite !bind_Return in Hrun. eauto.
  + destruct (getitem shape_dict n) as [shape|]; [|discriminate].
    rewrite bind_Return in Hrun.
    destruct (getitem dtype_dict n) as [dtype|]; [|discriminate].
    rewrite bind_Return in Hrun.
    destruct (generate_tensor_data shape dtype fill_mode g)
      as [[data g1]|e] eqn:Hg; [|discriminate].
    rewrite !bind_Return in Hrun.
    assert (g1 = g) as ->; [|eauto].
    unfold generate_tensor_data in Hg.
    destruct Hfm as [-> | ->].
    * rewrite decide_True in Hg by reflexivity.
      destruct (np_zeros shape dtype); [|discriminate].
      now injection Hg as _ <-.
    * rewrite decide_False in Hg by discriminate.
      rewrite decide_True in Hg by reflexivity.
      destruct (np_ones shape dtype); [|discriminate].
      now injection Hg as _ <-.
Qed.


(** The second loop stops at the first name it has to generate data for
  when the fill mode is not one of the three. *)
Lemma build_unknown_fill_mode (names : list string) (acc : dict ndarray)
  (g : random_state) :
fill_mode ≠ "zeros" → fill_mode ≠ "ones" → fill_mode ≠ "random" →
Forall (λ k, k ∈ keys inputs
             ∨ (k ∈ keys shape_dict ∧ k ∈ keys dtype_dict)) names →
Exists (λ k, k ∉ keys inputs) names →
for_each names build (acc, g)
= Raise (TVMCException (UnknownFillMode fill_mode)).
Proof.
intros Hz Ho Hr Hall Hex. revert acc.
induction Hall as [|n names Hn _ IH]; intros acc.
- inversion Hex.
- cbn [for_each]. unfold build; fold build.
  destruct (decide (n ∈ keys inputs)) as [Hin|Hin].
  + destruct (getitem_key inputs n Hin) as (v & _ & ->).
    rewrite !bind_Return. apply IH.
    apply Exists_cons in Hex. destruct Hex; [contradiction | assumption].
  + destruct Hn as [?|(Hs & Hd)]; [contradiction|].
    destruct (getitem_key shape_dict n Hs) as (shape & _ & ->).
    destruct (getitem_key dtype_dict n Hd) as (dtype & _ & ->).
    rewrite !bind_Return. unfold generate_tensor_data.
    rewrite !decide_False by assumption. reflexivity.
Qed.

(** Generation returns, or raises for the fill mode, or lets an exception
  of numpy through. *)
Lemma generate_tensor_data_outcome (shape : list Z) (dtype : string)
  (g : random_state) :
(∃ r, generate_tensor_data shape dtype fill_mode g = Return r)
∨ generate_tensor_data shape dtype fill_mode g
  = Raise (TVMCException (UnknownFillMode fill_mode))
∨ ∃ exc, generate_tensor_data shape dtype fill_mode g
         = Raise (NumpyError exc).
Proof.
unfold generate_tensor_data.
destruct (decide (fill_mode = "zeros"));
  [destruct (np_zeros shape dtype); cbn; eauto|].
destruct (decide (fill_mode = "ones"));
  [destruct (np_ones shape dtype); cbn; eauto|].
destruct (decide (fill_mode = "random")); [|eauto].
destruct (contains "int8" dtype);
  [destruct (np_random_randint g 128 shape dtype)
  | destruct (np_random_uniform_astype g (-1) 1 shape dtype)];
  cbn; eauto.
Qed.

Lemma build_outcome (names : list string) (acc : dict ndarray)
  (g : random_state) :
Forall (λ k, k ∈ keys inputs
             ∨ (k ∈ keys shape_dict ∧ k ∈ keys dtype_dict)) names →
(∃ r g', for_each names build (acc, g) = Return (r, g'))
∨ (∃ m, for_each names build (acc, g) = Raise (TVMCException m))
∨ (∃ exc, for_each names build (acc, g) = Raise (NumpyError exc)).
Proof.
intros Hall. revert acc g.
induction Hall as [|n names Hn _ IH]; intros acc g.
- left. eexists _, _. reflexivity.
- cbn [for_each]. unfold build; fold build.
  destruct (decide (n ∈ keys inputs)) as [Hin|Hin].
  + destruct (getitem_key inputs n Hin) as (v & _ & ->).
    rewrite !bind_Return. apply IH.
  + destruct Hn as [?|(Hs & Hd)]; [contradiction|].
    destruct (getitem_key shape_dict n Hs) as (shape & _ & ->).
    destruct (getitem_key dtype_dict n Hd) as (dtype & _ & ->).
    rewrite !bind_Return.
    destruct (generate_tensor_data_outcome shape dtype g)
      as [[[data g1] ->] | [-> | [exc ->]]].
    * rewrite !bind_Return. apply IH.
    * right. left. eexists. reflexivity.
    * right. right. eexists. reflexivity.
Qed.

Lemma build_all_user (names : list string) (acc : dict ndarray)
  (g : random_state) :
Forall (λ k, k ∈ keys inputs) names →
∃ r, for_each names build (acc, g) = Return (r, g).
Proof.
intros Hall. revert acc.
induction Hall as [|n names Hn _ IH]; intros acc.
- eexists. reflexivity.
- cbn [for_each]. unfold build; fold build.
  rewrite decide_True by exact Hn.
  destruct (getitem_key inputs n Hn) as (v & _ & ->).
  rewrite !bind_Return. apply IH.
Qed.

End Inputs.

Lemma keys_setitem {V : Type} (d : dict V) (k : string) (v : V) :
  keys (setitem d k v) = if decide (k ∈ keys d) then keys d else keys d ++ [k].
Proof.
  destruct (decide (k ∈ keys d)) as [Hin|Hin];
    [|now apply keys_setitem_fresh].
  induction d as [|[k0 v0] d IH].
  - now apply elem_of_nil in Hin.
  - cbn [setitem]. destruct (decide (k0 = k)) as [->|Hne]; [reflexivity|].
    rewrite !keys_cons. f_equal. apply IH.
    rewrite keys_cons in Hin. apply elem_of_cons in Hin.
    destruct Hin; [congruence | assumption].
Qed.

(** What a successful run of [get_input_info] has collected. *)
Lemma get_input_info_loop {V : Type} (graph : graph) (params_dict : dict V)
    (ids : list Z) (sd sd' : dict (list Z)) (dd dd' : dict string) :
  for_each ids
    (λ node_id '(shape_dict, dtype_dict),
       node ← index (nodes graph) node_id;
       let name := name node in
       if decide (name ∉ keys params_dict) then
         shape ← index (attrs_shape graph) node_id;
         dtype ← index (attrs_dltype graph) node_id;
         Return (setitem shape_dict name shape, setitem dtype_dict name dtype)
       else Return (shape_dict, dtype_dict))
    (sd, dd) = Return (sd', dd') →
  keys sd = keys dd → NoDup (keys sd) →
  Forall (λ k, k ∉ keys params_dict) (keys sd) →
  keys sd' = keys dd' ∧ NoDup (keys sd')
  ∧ Forall (λ k, k ∉ keys params_dict) (keys sd')
  ∧ (∀ k, k ∈ keys sd → k ∈ keys sd')
  ∧ (∀ id nd, id ∈ ids → index (nodes graph) id = Return nd →
       name nd ∉ keys params_dict → name nd ∈ keys sd').
Proof.
  revert sd dd. induction ids as [|id ids IH]; intros sd dd Hrun Hk Hnd Hnp.
  - cbn [for_each] in Hrun. injection Hrun as <- <-.
    split_and!; try assumption; [auto|].
    intros id nd Hin. now apply elem_of_nil in Hin.
  - cbn [for_each] in Hrun.
    destruct (index (nodes graph) id) as [nd|e] eqn:Hnode; [|discriminate].
    rewrite bind_Return in Hrun. cbv zeta in Hrun.
    destruct (decide (name nd ∉ keys params_dict)) as [Hnew|Hold].
    + destruct (index (attrs_shape graph) id) as [shape|e]; [|discriminate].
      rewrite bind_Return in Hrun.
      destruct (index (attrs_dltype graph) id) as [dtype|e]; [|discriminate].
      rewrite bind_Return in Hrun.
      assert (Hin' : ∀ k, k ∈ keys sd → k ∈ keys (setitem sd (name nd) shape)).
      { intros k Hin. rewrite keys_setitem.
        destruct (decide (name nd ∈ keys sd)); [assumption|].
        apply elem_of_app. now left. }
      assert (Hself : name nd ∈ keys (setitem sd (name nd) shape)).
      { rewrite keys_setitem.
        destruct (decide (name nd ∈ keys sd)); [assumption|].
        apply elem_of_app. right. apply list_elem_of_here. }
      destruct (IH _ _ Hrun) as (Hk' & Hnd' & Hnp' & Hmono & Hall).
      * rewrite !keys_setitem, <- Hk.
        now destruct (decide (name nd ∈ keys sd)).
      * rewrite keys_setitem.
        destruct (decide (name nd ∈ keys sd)) as [?|Hfresh]; [assumption|].
        apply NoDup_app. split_and!; [assumption | | apply NoDup_singleton].
        intros k Hk1 Hk2. apply list_elem_of_singleton in Hk2. congruence.
      * rewrite keys_setitem.
        destruct (decide (name nd ∈ keys sd)); [assumption|].
        apply Forall_app. split; [assumption|]. now constructor.
      * split_and!; try assumption; [auto|].
        intros id' nd' Hid Hnode' Hnew'. apply elem_of_cons in Hid.
        destruct Hid as [->|Hid]; [|eauto].
        rewrite Hnode in Hnode'. injection Hnode' as <-. auto.
    + rewrite bind_Return in Hrun.
      destruct (IH _ _ Hrun Hk Hnd Hnp) as (Hk' & Hnd' & Hnp' & Hmono & Hall).
      split_and!; try assumption.
      intros id' nd' Hid Hnode' Hnew'. apply elem_of_cons in Hid.
      destruct Hid as [->|Hid]; [|eauto].
      rewrite Hnode in Hnode'. injection Hnode' as <-. contradiction.
Qed.

(** X9.  A name among the user's inputs that the graph does not have is
    refused before anything is generated: the exception names the first
    such input and lists the inputs of the graph, whatever the fill mode
    and the dtypes. *)
Theorem unknown_input_rejected `{Numpy} (shape_dict : dict (list Z))
    (dtype_dict : dict string) (inputs : dict ndarray) (fill_mode : string)
    (g : random_state) (before after : list string) (input_name : string) :
  keys inputs = before ++ input_name :: after →
  Forall (λ k, k ∈ keys shape_dict) before →
  input_name ∉ keys shape_dict →
  make_inputs_dict shape_dict dtype_dict (Some inputs) fill_mode g
  = Raise (TVMCException (InputNotInGraph input_name (keys shape_dict))).
Proof.
  intros Hkeys Hbefore Hbad. rewrite make_inputs_dict_loops, Hkeys.
  rewrite for_each_app.
  rewrite (check_ok shape_dict dtype_dict inputs fill_mode) by exact Hbefore.
  rewrite bind_Return. cbn [for_each].
  rewrite decide_True by exact Hbad. reflexivity.
Qed.

Lemma unknown_input_rejected_witness :
  make_inputs_dict (H := symbolic_numpy) example_shape_dict
    example_dtype_dict
    (Some [("data", Loaded "cat.npy"); ("label", Loaded "label.npy")])
    "random" 0
  = Raise (TVMCException (InputNotInGraph "label" ["data"; "mask"])).
Proof.
  apply (unknown_input_rejected (H := symbolic_numpy) example_shape_dict
           example_dtype_dict
           [("data", Loaded "cat.npy"); ("label", Loaded "label.npy")]
           "random" 0 ["data"] [] "label").
  - reflexivity.
  - apply (bool_decide_unpack _). vm_compute. exact I.
  - apply (bool_decide_unpack _). vm_compute. exact I.
Defined.



(** X11.  When the user gives data for exactly the inputs of the graph,
    the fill mode and the dtypes are never looked at and no random number
    is drawn: any fill mode, even an unknown one, returns the user's
    data. *)
Theorem user_inputs_suffice `{Numpy} (shape_dict : dict (list Z))
    (dtype_dict : dict string) (inputs : dict ndarray) (fill_mode : string)
    (g : random_state) :
  NoDup (keys shape_dict) →
  Forall (λ k, k ∈ keys shape_dict) (keys inputs) →
  Forall (λ k, k ∈ keys inputs) (keys shape_dict) →
  ∃ inputs_dict,
    make_inputs_dict shape_dict dtype_dict (Some inputs) fill_mode g
    = Return (inputs_dict, g)
    ∧ keys inputs_dict = keys shape_dict
    ∧ ∀ k, get inputs_dict k = get inputs k.
Proof.
  intros Hnd Hin Hall. rewrite make_inputs_dict_loops.
  rewrite (check_ok shape_dict dtype_dict inputs fill_mode) by exact Hin.
  rewrite bind_Return.
  destruct (build_all_user shape_dict dtype_dict inputs fill_mode
              (keys shape_dict) [] g Hall) as (r & Hrun).
  rewrite Forall_forall in Hin, Hall.
  exists r. split; [exact Hrun|].
  destruct (build_success _ _ _ _ _ _ _ _ _ Hrun Hnd)
    as (Hkeys & Hother & Huser & _).
  { intros k _ Hk. now apply elem_of_nil in Hk. }
  split; [exact Hkeys|]. intros k.
  destruct (decide (k ∈ keys shape_dict)) as [Hk|Hk].
  - apply Huser; [exact Hk | now apply Hall].
  - rewrite Hother by exact Hk.
    assert (Hki : k ∉ keys inputs) by (intros Hc; now apply Hin in Hc).
    rewrite get_is_Some in Hki. simpl.
    destruct (get inputs k); [exfalso; eauto | reflexivity].
Qed.

Lemma user_inputs_suffice_witness :
  ∃ inputs_dict,
    make_inputs_dict (H := symbolic_numpy) example_shape_dict []
      (Some [("mask", Loaded "mask.npy"); ("data", Loaded "cat.npy")])
      "noise" 7
    = Return (inputs_dict, 7)
    ∧ keys inputs_dict = keys example_shape_dict
    ∧ ∀ k, get inputs_dict k
           = get [("mask", Loaded "mask.npy"); ("data", Loaded "cat.npy")] k.
Proof.
  apply (user_inputs_suffice (H := symbolic_numpy) example_shape_dict []
           [("mask", Loaded "mask.npy"); ("data", Loaded "cat.npy")]
           "noise" 7).
  - apply (bool_decide_unpack _). vm_compute. exact I.
  - apply (bool_decide_unpack _). vm_compute. exact I.
  - apply (bool_decide_unpack _). vm_compute. exact I.
Defined.

(** X12.  With the fill modes "zeros" and "ones" no random number is
    drawn, and every input of the graph the user gave no data for is the
    constant array numpy returns for the shape and the dtype the graph
    declares. *)
Theorem constant_fill `{Numpy} (shape_dict : dict (list Z))
    (dtype_dict : dict string) (inputs inputs_dict : dict ndarray)
    (fill_mode : string) (g g' : random_state) :
  NoDup (keys shape_dict) →
  fill_mode = "zeros" ∨ fill_mode = "ones" →
  make_inputs_dict shape_dict dtype_dict (Some inputs) fill_mode g
  = Return (inputs_dict, g') →
  g' = g
  ∧ ∀ k, k ∈ keys shape_dict → k ∉ keys inputs →
      ∃ shape dtype data,
        get shape_dict k = Some shape ∧ get dtype_dict k = Some dtype
        ∧ (if decide (fill_mode = "zeros") then np_zeros shape dtype
           else np_ones shape dtype) = Array data
        ∧ get inputs_dict k = Some data.
Proof.
  intros Hnd Hfm Hrun. rewrite make_inputs_dict_loops in Hrun.
  destruct (for_each (keys inputs) _ tt) as [[]|e]; [|discriminate].
  rewrite bind_Return in Hrun. split.
  - exact (build_rng_unchanged _ _ _ _ _ _ _ _ _ Hfm Hrun).
  - intros k Hk Hki.
    destruct (build_success _ _ _ _ _ _ _ _ _ Hrun Hnd)
      as (_ & _ & _ & Hgen).
    { intros k' _ Hk'. now apply elem_of_nil in Hk'. }
    destruct (Hgen k Hk Hki) as (shape & dtype & data & g1 & g2
                                 & Hs & Hd & Hg & Hr).
    exists shape, dtype, data. split_and!; [exact Hs | exact Hd | | exact Hr].
    unfold generate_tensor_data in Hg.
    destruct Hfm as [-> | ->].
    + rewrite decide_True in Hg by reflexivity.
      rewrite decide_True by reflexivity.
      destruct (np_zeros shape dtype); [|discriminate].
      now injection Hg as <- _.
    + rewrite decide_False in Hg by discriminate.
      rewrite decide_True in Hg by reflexivity.
      rewrite decide_False by discriminate.
      destruct (np_ones shape dtype); [|discriminate].
      now injection Hg as <- _.
Qed.

Lemma constant_fill_witness :
  0 = 0
  ∧ ∀ k, k ∈ keys example_shape_dict →
      k ∉ keys [("data", Loaded "cat.npy")] →
      ∃ shape dtype data,
        get example_shape_dict k = Some shape
        ∧ get example_dtype_dict k = Some dtype
        ∧ (if decide ("zeros" = "zeros")
           then np_zeros (Numpy := symbolic_numpy) shape dtype
           else np_ones (Numpy := symbolic_numpy) shape dtype) = Array data
        ∧ get [("data", Loaded "cat.npy"); ("mask", Zeros [1; 8]%Z "int8")] k
          = Some data.
Proof.
  apply (constant_fill (H := symbolic_numpy) example_shape_dict
           example_dtype_dict [("data", Loaded "cat.npy")]
           [("data", Loaded "cat.npy"); ("mask", Zeros [1; 8]%Z "int8")]
           "zeros" 0 0).
  - apply (bool_decide_unpack _). vm_compute. exact I.
  - left. reflexivity.
  - vm_compute. reflexivity.
Defined.

(** X13.  An unknown fill mode is reported exactly when data has to be
    generated: if every user input is an input of the graph and some
    input of the graph has no user data, a fill mode other than "zeros",
    "ones" and "random" raises the fill-mode exception. *)
Theorem unknown_fill_mode_raised `{Numpy} (shape_dict : dict (list Z))
    (dtype_dict : dict string) (inputs : dict ndarray) (fill_mode : string)
    (g : random_state) :
  Forall (λ k, k ∈ keys shape_dict) (keys inputs) →
  Forall (λ k, k ∈ keys inputs ∨ k ∈ keys dtype_dict) (keys shape_dict) →
  Exists (λ k, k ∉ keys inputs) (keys shape_dict) →
  fill_mode ≠ "zeros" → fill_mode ≠ "ones" → fill_mode ≠ "random" →
  make_inputs_dict shape_dict dtype_dict (Some inputs) fill_mode g
  = Raise (TVMCException (UnknownFillMode fill_mode)).
Proof.
  intros Hin Hdt Hex Hz Ho Hr. rewrite make_inputs_dict_loops.
  rewrite (check_ok shape_dict dtype_dict inputs fill_mode) by exact Hin.
  rewrite bind_Return.
  apply build_unknown_fill_mode; try assumption.
  apply Forall_forall. intros k Hk. rewrite Forall_forall in Hdt.
  destruct (Hdt k Hk) as [?|?]; [left | right]; auto.
Qed.

Lemma unknown_fill_mode_raised_witness :
  make_inputs_dict (H := symbolic_numpy) example_shape_dict
    example_dtype_dict (Some [("data", Loaded "cat.npy")]) "noise" 0
  = Raise (TVMCException (UnknownFillMode "noise")).
Proof.
  apply (unknown_fill_mode_raised (H := symbolic_numpy) example_shape_dict
           example_dtype_dict [("data", Loaded "cat.npy")] "noise" 0).
  - apply (bool_decide_unpack _). vm_compute. exact I.
  - apply (bool_decide_unpack _). vm_compute. exact I.
  - apply (bool_decide_unpack _). vm_compute. exact I.
  - discriminate.
  - discriminate.
  - discriminate.
Defined.

(** X14.  What [get_input_info] returns: the two dicts have the same
    keys in the same order, no key is the name of a parameter, and the
    name of every argument node that is not a parameter is a key. *)
Theorem get_input_info_keys {V : Type} (graph : graph) (params_dict : dict V)
    (shape_dict : dict (list Z)) (dtype_dict : dict string) :
  get_input_info graph params_dict = Return (shape_dict, dtype_dict) →
  keys shape_dict = keys dtype_dict
  ∧ NoDup (keys shape_dict)
  ∧ Forall (λ k, k ∉ keys params_dict) (keys shape_dict)
  ∧ ∀ node_id node,
      node_id ∈ arg_nodes graph →
      index (nodes graph) node_id = Return node →
      name node ∉ keys params_dict → name node ∈ keys shape_dict.
Proof.
  intros Hrun. unfold get_input_info in Hrun.
  destruct (get_input_info_loop _ _ _ _ _ _ _ Hrun)
    as (Hk & Hnd & Hnp & _ & Hall).
  - reflexivity.
  - apply NoDup_nil_2.
  - constructor.
  - auto.
Qed.

Lemma get_input_info_keys_witness :
  keys example_shape_dict = keys example_dtype_dict
  ∧ NoDup (keys example_shape_dict)
  ∧ Forall (λ k, k ∉ keys example_params) (keys example_shape_dict)
  ∧ ∀ node_id node,
      node_id ∈ arg_nodes example_graph →
      index (nodes example_graph) node_id = Return node →
      name node ∉ keys example_params →
      name node ∈ keys example_shape_dict.
Proof.
  apply (get_input_info_keys example_graph example_params
           example_shape_dict example_dtype_dict).
  reflexivity.
Defined.

(** X15.  The two compose: with the dicts of [get_input_info],
    [make_inputs_dict] returns, or raises a [TVMCException], or lets an
    exception of numpy through; it never raises a [KeyError] for a missing
    dtype, and what it returns holds the inferred inputs and no parameter
    of the model. *)
Theorem inputs_from_graph `{Numpy} {V : Type} (graph : graph)
    (params_dict : dict V) (shape_dict : dict (list Z))
    (dtype_dict : dict string) (inputs : dict ndarray) (fill_mode : string)
    (g : random_state) :
  get_input_info graph params_dict = Return (shape_dict, dtype_dict) →
  (∃ inputs_dict g',
     make_inputs_dict shape_dict dtype_dict (Some inputs) fill_mode g
     = Return (inputs_dict, g')
     ∧ keys inputs_dict = keys shape_dict
     ∧ Forall (λ k, k ∉ keys params_dict) (keys inputs_dict))
  ∨ (∃ m,
       make_inputs_dict shape_dict dtype_dict (Some inputs) fill_mode g
       = Raise (TVMCException m))
  ∨ (∃ exc,
       make_inputs_dict shape_dict dtype_dict (Some inputs) fill_mode g
       = Raise (NumpyError exc)).
Proof.
  intros Hinfo.
  destruct (get_input_info_keys _ _ _ _ Hinfo) as (Hk & Hnd & Hnp & _).
  destruct (decide (Forall (λ k, k ∈ keys shape_dict) (keys inputs)))
    as [Hin|Hin].
  - assert (Hdt : Forall (λ k, k ∈ keys inputs
                               ∨ (k ∈ keys shape_dict ∧ k ∈ keys dtype_dict))
                    (keys shape_dict)).
    { apply Forall_forall. intros k Hkk. right.
      split; [exact Hkk | now rewrite <- Hk]. }
    rewrite make_inputs_dict_loops.
    rewrite (check_ok shape_dict dtype_dict inputs fill_mode) by exact Hin.
    rewrite bind_Return.
    destruct (build_outcome shape_dict dtype_dict inputs fill_mode
                (keys shape_dict) [] g Hdt)
      as [(r & g' & Hrun) | [Hexc | Hexc]]; [left | tauto | tauto].
    exists r, g'. split; [exact Hrun|].
    destruct (build_success _ _ _ _ _ _ _ _ _ Hrun Hnd) as (Hkeys & _).
    { intros k _ Hkk. now apply elem_of_nil in Hkk. }
    split; [exact Hkeys|]. now rewrite Hkeys.
  - right. left. apply not_Forall_Exists in Hin; [|intros k; apply _].
    assert (Hsplit : ∃ before n after,
               keys inputs = before ++ n :: after
               ∧ Forall (λ k, k ∈ keys shape_dict) before
               ∧ n ∉ keys shape_dict).
    { clear -Hin. induction (keys inputs) as [|k l IH]; [inversion Hin|].
      destruct (decide (k ∈ keys shape_dict)) as [Hk|Hk].
      - apply Exists_cons in Hin. destruct Hin as [?|Hin]; [contradiction|].
        destruct (IH Hin) as (b & n & a & -> & Hb & Hn).
        exists (k :: b), n, a.
        split_and!; [reflexivity | now constructor | exact Hn].
      - exists [], k, l. split_and!; [reflexivity | constructor | exact Hk]. }
    destruct Hsplit as (b & n & a & Hkeys & Hb & Hn). eexists.
    now apply (unknown_input_rejected _ _ _ _ _ b a n).
Qed.

Lemma inputs_from_graph_witness :
  (∃ inputs_dict g',
     make_inputs_dict (H := symbolic_numpy) example_shape_dict
       example_dtype_dict (Some [("mask", Loaded "mask.npy")]) "random" 0
     = Return (inputs_dict, g')
     ∧ keys inputs_dict = keys example_shape_dict
     ∧ Forall (λ k, k ∉ keys example_params) (keys inputs_dict))
  ∨ (∃ m,
       make_inputs_dict (H := symbolic_numpy) example_shape_dict
         example_dtype_dict (Some [("mask", Loaded "mask.npy")]) "random" 0
       = Raise (TVMCException m))
  ∨ (∃ exc,
       make_inputs_dict (H := symbolic_numpy) example_shape_dict
         example_dtype_dict (Some [("mask", Loaded "mask.npy")]) "random" 0
       = Raise (NumpyError exc)).
Proof.
  apply (inputs_from_graph (H := symbolic_numpy) example_graph
           example_params example_shape_dict example_dtype_dict
           [("mask", Loaded "mask.npy")] "random" 0).
  reflexivity.
Defined.

(** ** The values [get_input_info] records *)

Lemma index_in_range {A : Type} (l : list A) (i : Z) :
  (- Z.of_nat (length l) ≤ i < Z.of_nat (length l))%Z →
  ∃ x, index l i = Return x.
Proof.
  intros Hi. unfold index. cbv zeta.
  destruct (decide (i < 0)%Z).
  - rewrite decide_True by lia.
    destruct (lookup_lt_is_Some_2 l (Z.to_nat (i + Z.of_nat (length l))))
      as [x ->]; [lia | eauto].
  - rewrite decide_True by lia.
    destruct (lookup_lt_is_Some_2 l (Z.to_nat i)) as [x ->]; [lia | eauto].
Qed.

Lemma index_out_of_range {A : Type} (l : list A) (i : Z) :
  ¬ (- Z.of_nat (length l) ≤ i < Z.of_nat (length l))%Z →
  index l i = Raise IndexError.
Proof.
  intros Hi. unfold index. cbv zeta.
  destruct (decide (i < 0)%Z); now rewrite decide_False by lia.
Qed.

Lemma index_nonneg {A : Type} (l : list A) (i : Z) (x : A) :
  (0 ≤ i)%Z → index l i = Return x → l !! Z.to_nat i = Some x.
Proof.
  intros Hi. unfold index. cbv zeta.
  destruct (decide (i < 0)%Z); [lia|].
  destruct (decide _); [|discriminate].
  destruct (l !! Z.to_nat i); [|discriminate]. congruence.
Qed.

Lemma name_inj (l : list node) (i j : nat) (n n' : node) :
  NoDup (name <$> l) → l !! i = Some n → l !! j = Some n' →
  name n = name n' → i = j.
Proof.
  intros Hnd Hi Hj Heq.
  apply (NoDup_lookup (name <$> l) i j (name n)); [exact Hnd | |];
    rewrite list_lookup_fmap; [rewrite Hi | rewrite Hj]; simpl; congruence.
Qed.

Section Graph.

Context {V : Type}.

Variables (gr : graph) (params_dict : dict V).

(** The body of the loop of [get_input_info]. *)
Let record := λ (node_id : Z) '(shape_dict, dtype_dict),
node ← index (nodes gr) node_id;
let name := name node in
if decide (name ∉ keys params_dict) then
  shape ← index (attrs_shape gr) node_id;
  dtype ← index (attrs_dltype gr) node_id;
  Return (setitem (shape_dict : dict (list Z)) name shape,
          setitem (dtype_dict : dict string) name dtype)
else Return (shape_dict, dtype_dict).

Lemma get_input_info_record :
get_input_info gr params_dict = for_each (arg_nodes gr) record ([], []).
Proof. reflexivity. Qed.

Lemma record_returns (ids : list Z) (sd : dict (list Z)) (dd : dict string) :
Forall (λ i, (- Z.of_nat (length (nodes gr)) ≤ i
              < Z.of_nat (length (nodes gr)))%Z) ids →
length (attrs_shape gr) = length (nodes gr) →
length (attrs_dltype gr) = length (nodes gr) →
∃ sd' dd', for_each ids record (sd, dd) = Return (sd', dd').
Proof.
intros Hall Hs Hd. revert sd dd.
induction Hall as [|id ids Hid _ IH]; intros sd dd.
- eexists _, _. reflexivity.
- cbn [for_each]. unfold record; fold record.
  destruct (index_in_range (nodes gr) id Hid) as [nd ->].
  rewrite bind_Return. cbv zeta.
  destruct (decide (name nd ∉ keys params_dict)).
  + destruct (index_in_range (attrs_shape gr) id) as [shape ->];
      [now rewrite Hs|].
    destruct (index_in_range (attrs_dltype gr) id) as [dtype ->];
      [now rewrite Hd|].
    rewrite !bind_Return. apply IH.
  + rewrite bind_Return. apply IH.
Qed.

Lemma record_raises (before after : list Z) (id : Z) (sd : dict (list Z))
  (dd : dict string) :
Forall (λ i, (- Z.of_nat (length (nodes gr)) ≤ i
              < Z.of_nat (length (nodes gr)))%Z) before →
length (attrs_shape gr) = length (nodes gr) →
length (attrs_dltype gr) = length (nodes gr) →
¬ (- Z.of_nat (length (nodes gr)) ≤ id < Z.of_nat (length (nodes gr)))%Z →
for_each (before ++ id :: after) record (sd, dd) = Raise IndexError.
Proof.
intros Hall Hs Hd Hid. rewrite for_each_app.
destruct (record_returns before sd dd Hall Hs Hd) as (sd' & dd' & ->).
rewrite bind_Return. cbn [for_each]. unfold record; fold record.
now rewrite (index_out_of_range (nodes gr)) by exact Hid.
Qed.

Lemma record_frame (ids : list Z) (sd sd' : dict (list Z))
  (dd dd' : dict string) (k : string) :
for_each ids record (sd, dd) = Return (sd', dd') →
(∀ id nd, id ∈ ids → index (nodes gr) id = Return nd → name nd ≠ k) →
get sd' k = get sd k ∧ get dd' k = get dd k.
Proof.
revert sd dd. induction ids as [|id ids IH]; intros sd dd Hrun Hk.
- cbn [for_each] in Hrun. now injection Hrun as <- <-.
- cbn [for_each] in Hrun. unfold record in Hrun; fold record in Hrun.
  destruct (index (nodes gr) id) as [nd|e] eqn:Hnode; [|discriminate].
  rewrite bind_Return in Hrun. cbv zeta in Hrun.
  assert (Hne : name nd ≠ k) by (eapply Hk; [apply list_elem_of_here|eauto]).
  assert (Hk' : ∀ id nd, id ∈ ids → index (nodes gr) id = Return nd →
                         name nd ≠ k)
    by (intros ? ? ?; apply Hk; now apply list_elem_of_further).
  destruct (decide (name nd ∉ keys params_dict)).
  + destruct (index (attrs_shape gr) id) as [shape|e]; [|discriminate].
    rewrite bind_Return in Hrun.
    destruct (index (attrs_dltype gr) id) as [dtype|e]; [|discriminate].
    rewrite bind_Return in Hrun.
    destruct (IH _ _ Hrun Hk') as [-> ->].
    rewrite !get_setitem. now rewrite !decide_False by exact Hne.
  + rewrite bind_Return in Hrun. now apply IH.
Qed.

Lemma record_values (ids : list Z) (sd sd' : dict (list Z))
  (dd dd' : dict string) :
for_each ids record (sd, dd) = Return (sd', dd') →
NoDup (name <$> nodes gr) → NoDup ids → Forall (λ i, (0 ≤ i)%Z) ids →
∀ id nd, id ∈ ids → index (nodes gr) id = Return nd →
  name nd ∉ keys params_dict →
  getitem sd' (name nd) = index (attrs_shape gr) id
  ∧ getitem dd' (name nd) = index (attrs_dltype gr) id.
Proof.
intros Hrun Hnames Hnd Hpos. revert sd dd Hrun.
induction ids as [|id ids IH]; intros sd dd Hrun id' nd' Hin Hnode' Hnew.
- now apply elem_of_nil in Hin.
- apply NoDup_cons in Hnd. destruct Hnd as [Hid Hnd].
  apply Forall_cons in Hpos. destruct Hpos as [Hid0 Hpos].
  cbn [for_each] in Hrun. unfold record in Hrun; fold record in Hrun.
  destruct (index (nodes gr) id) as [nd|e] eqn:Hnode; [|discriminate].
  rewrite bind_Return in Hrun. cbv zeta in Hrun.
  apply elem_of_cons in Hin. destruct Hin as [->|Hin].
  + rewrite Hnode in Hnode'. injection Hnode' as <-.
    rewrite decide_True in Hrun by exact Hnew.
    destruct (index (attrs_shape gr) id) as [shape|e]; [|discriminate].
    rewrite bind_Return in Hrun.
    destruct (index (attrs_dltype gr) id) as [dtype|e]; [|discriminate].
    rewrite bind_Return in Hrun.
    destruct (record_frame _ _ _ _ _ (name nd) Hrun) as [Hs Hd].
    { intros id2 nd2 Hin2 Hnode2 Heq.
      rewrite Forall_forall in Hpos.
      apply index_nonneg in Hnode; [|exact Hid0].
      apply index_nonneg in Hnode2; [|now apply Hpos].
      pose proof (name_inj _ _ _ _ _ Hnames Hnode2 Hnode Heq) as Hsame.
      assert (id2 = id) by (specialize (Hpos _ Hin2); simpl in Hpos; lia).
      congruence. }
    unfold getitem. rewrite Hs, Hd, !get_setitem.
    now rewrite !decide_True.
  + destruct (decide (name nd ∉ keys params_dict)).
    * destruct (index (attrs_shape gr) id) as [shape|e]; [|discriminate].
      rewrite bind_Return in Hrun.
      destruct (index (attrs_dltype gr) id) as [dtype|e]; [|discriminate].
      rewrite bind_Return in Hrun. eapply IH; eauto.
    * rewrite bind_Return in Hrun. eapply IH; eauto.
Qed.

End Graph.

(** X16.  [get_input_info] returns when every argument node is an index
    of the node list (negative ones counting from the end) and the two
    attribute lists are as long as the node list. *)
Theorem get_input_info_returns {V : Type} (graph : graph)
    (params_dict : dict V) :
  Forall (λ i, (- Z.of_nat (length (nodes graph)) ≤ i
                < Z.of_nat (length (nodes graph)))%Z) (arg_nodes graph) →
  length (attrs_shape graph) = length (nodes graph) →
  length (attrs_dltype graph) = length (nodes graph) →
  ∃ shape_dict dtype_dict,
    get_input_info graph params_dict = Return (shape_dict, dtype_dict).
Proof.
  intros Hall Hs Hd. rewrite get_input_info_record.
  now apply record_returns.
Qed.

Lemma get_input_info_returns_witness :
  ∃ shape_dict dtype_dict,
    get_input_info example_graph example_params
    = Return (shape_dict, dtype_dict).
Proof.
  apply (get_input_info_returns example_graph example_params).
  - apply (bool_decide_unpack _). vm_compute. exact I.
  - reflexivity.
  - reflexivity.
Defined.

(** X17.  An argument node that is no index of the node list makes
    [get_input_info] raise [IndexError], whatever the parameters are. *)
Theorem get_input_info_index_error {V : Type} (graph : graph)
    (params_dict : dict V) (before after : list Z) (node_id : Z) :
  arg_nodes graph = before ++ node_id :: after →
  Forall (λ i, (- Z.of_nat (length (nodes graph)) ≤ i
                < Z.of_nat (length (nodes graph)))%Z) before →
  length (attrs_shape graph) = length (nodes graph) →
  length (attrs_dltype graph) = length (nodes graph) →
  ¬ (- Z.of_nat (length (nodes graph)) ≤ node_id
     < Z.of_nat (length (nodes graph)))%Z →
  get_input_info graph params_dict = Raise IndexError.
Proof.
  intros Hids Hall Hs Hd Hid. rewrite get_input_info_record, Hids.
  now apply record_raises.
Qed.

Lemma get_input_info_index_error_witness :
  get_input_info
    {| arg_nodes := [0; 4; 1]%Z; nodes := nodes example_graph;
       attrs_shape := attrs_shape example_graph;
       attrs_dltype := attrs_dltype example_graph |}
    example_params
  = Raise IndexError.
Proof.
  apply (get_input_info_index_error
           {| arg_nodes := [0; 4; 1]%Z; nodes := nodes example_graph;
              attrs_shape := attrs_shape example_graph;
              attrs_dltype := attrs_dltype example_graph |}
           example_params [0%Z] [1%Z] 4%Z).
  - reflexivity.
  - apply (bool_decide_unpack _). vm_compute. exact I.
  - reflexivity.
  - reflexivity.
  - simpl. lia.
Defined.

(** X18.  In a graph whose nodes have distinct names and whose argument
    nodes are distinct indices from the front, the shape and the dtype
    [get_input_info] records for an input are the graph's attributes of
    that input's node. *)
Theorem get_input_info_values {V : Type} (graph : graph)
    (params_dict : dict V) (shape_dict : dict (list Z))
    (dtype_dict : dict string) :
  get_input_info graph params_dict = Return (shape_dict, dtype_dict) →
  NoDup (name <$> nodes graph) →
  NoDup (arg_nodes graph) →
  Forall (λ i, (0 ≤ i)%Z) (arg_nodes graph) →
  ∀ node_id node,
    node_id ∈ arg_nodes graph →
    index (nodes graph) node_id = Return node →
    name node ∉ keys params_dict →
    getitem shape_dict (name node) = index (attrs_shape graph) node_id
    ∧ getitem dtype_dict (name node) = index (attrs_dltype graph) node_id.
Proof.
  intros Hrun. rewrite get_input_info_record in Hrun.
  now apply record_values with (sd := []) (dd := []).
Qed.

Lemma get_input_info_values_witness :
  getitem example_shape_dict "mask" = index (attrs_shape example_graph) 2%Z
  ∧ getitem example_dtype_dict "mask"
    = index (attrs_dltype example_graph) 2%Z.
Proof.
  apply (get_input_info_values example_graph example_params
           example_shape_dict example_dtype_dict eq_refl
           ltac:(apply (bool_decide_unpack _); vm_compute; exact I)
           ltac:(apply (bool_decide_unpack _); vm_compute; exact I)
           ltac:(apply (bool_decide_unpack _); vm_compute; exact I)
           2%Z {| name := "mask" |}).
  - apply (bool_decide_unpack _). vm_compute. exact I.
  - reflexivity.
  - apply (bool_decide_unpack _). vm_compute. exact I.
Defined.

End RunnerProperties.
